(** * Scarlet: a shallow embedding of the compiler front end and lowering

    The development follows the C++ sources of the repository:
    - [Common.h]   : the token, data-type and operator enumerations;
    - [Utils.h/.cpp] : source locations, character classes, escape helpers;
    - [Lexer.cpp]  : the scanner;
    - [Parser.cpp] : the recursive-descent parser;
    - [Semantic.cpp] : the symbol table and the semantic analyzer;
    - [CodeGen.cpp] : the lowering to an IR module through a builder;
    - [main.cpp]   : the driver [compileFile].

    Conventions.  [size_t] counters are unbounded naturals (no source of
    realistic size reaches the 64-bit wrap-around).  A C++ [std::string] is a
    Rocq [string]; a [std::vector] is a [list] in vector order (index 0
    first, [back()] last); a [std::unordered_map<String, _>] is a
    [gmap string _].  Member functions that mutate the object take the object
    and return the new one. *)

From Stdlib Require Import Ascii String DecimalString ZArith Lia Bool.
From stdpp Require Import base option list gmap strings.

Set Warnings "-register-all".
Local Open Scope string_scope.
Local Open Scope nat_scope.

(* ===================================================================== *)
(** ** Common.h *)
(* ===================================================================== *)

(** [enum class TokenType].  The published enumeration stops at [ERROR];
    [Parser.cpp] also names [TokenType::SLASH] (lines 124, 131) and
    [TokenType::COLON] (lines 258, 280, 298), which the header does not
    declare.  They are taken here as two further enumerators, distinct from
    every published one (in particular [SLASH] is not [DIVIDE], as section
    9 of the specification reads them): that is the only reading under
    which the parser's [switch] at lines 129-134 is meaningful, and
    [Lexer.cpp] never produces either of them. *)
Inductive TokenType : Type :=
  | INTEGER | FLOAT | STRING | IDENTIFIER
  | IF | ELSE | WHILE | FOR | RETURN | FUNCTION | VAR | LET | CONST
  | TRUE | FALSE | NULL_LITERAL
  | PLUS | MINUS | MULTIPLY | DIVIDE | MODULO | ASSIGN
  | EQUAL | NOT_EQUAL | LESS | LESS_EQUAL | GREATER | GREATER_EQUAL
  | AND | OR | NOT
  | LEFT_PAREN | RIGHT_PAREN | LEFT_BRACE | RIGHT_BRACE
  | LEFT_BRACKET | RIGHT_BRACKET | SEMICOLON | COMMA | DOT
  | END_OF_FILE | ERROR
  | SLASH | COLON.

Inductive DataType : Type :=
  | VOID | INT | FLOAT_T | BOOL | STRING_T | ARRAY | FUNCTION_T | UNKNOWN.

Inductive OperatorType : Type :=
  | OP_ADD | OP_SUBTRACT | OP_MULTIPLY | OP_DIVIDE | OP_MODULO | OP_ASSIGN
  | OP_EQUAL | OP_NOT_EQUAL | OP_LESS | OP_LESS_EQUAL | OP_GREATER
  | OP_GREATER_EQUAL | OP_AND | OP_OR | OP_NOT.

#[global] Instance TokenType_eq_dec : EqDecision TokenType.
Proof. solve_decision. Defined.
#[global] Instance DataType_eq_dec : EqDecision DataType.
Proof. solve_decision. Defined.
#[global] Instance OperatorType_eq_dec : EqDecision OperatorType.
Proof. solve_decision. Defined.

(* ===================================================================== *)
(** ** Utils.h / Utils.cpp *)
(* ===================================================================== *)

(** [std::to_string] / the [{}] of fmt on an unsigned number. *)
Definition to_string (n : nat) : string :=
  NilEmpty.string_of_uint (Nat.to_uint n).

Record SourceLocation : Type := mkLoc {
  line : nat;
  column : nat;
  offset : nat
}.

#[global] Instance SourceLocation_eq_dec : EqDecision SourceLocation.
Proof. solve_decision. Defined.

(** The default argument values of the constructor. *)
Definition SourceLocation_default : SourceLocation := mkLoc 1 1 0.

Definition newline : ascii := "010"%char.

Definition SourceLocation_advance (l : SourceLocation) (c : ascii)
  : SourceLocation :=
  if Ascii.eqb c newline
  then mkLoc (S (line l)) 1 (S (offset l))
  else mkLoc (line l) (S (column l)) (S (offset l)).

(** [fmt::format("{}:{}", line_, column_)]. *)
Definition SourceLocation_toString (l : SourceLocation) : string :=
  to_string (line l) ++ ":" ++ to_string (column l).

(** What [CompilerError::what()] returns:
    [fmt::format("{}: {}", location.toString(), message)].  The same format
    is used by [TypeChecker::reportError] and
    [LLVMCodeGenerator::reportError]. *)
Definition format_diagnostic (l : SourceLocation) (message : string) : string :=
  SourceLocation_toString l ++ ": " ++ message.

Record CompilerError : Type := mkCompilerError {
  what : string;
  error_location : SourceLocation
}.

Definition CompilerError_new (message : string) (l : SourceLocation)
  : CompilerError :=
  mkCompilerError (format_diagnostic l message) l.

(** Character classes of [<cctype>] in the "C" locale (the program never
    calls [setlocale]). *)
Definition isWhitespace (c : ascii) : bool :=
  let n := nat_of_ascii c in (n =? 32) || ((9 <=? n) && (n <=? 13)).

Definition isDigit (c : ascii) : bool :=
  let n := nat_of_ascii c in (48 <=? n) && (n <=? 57).

Definition isAlpha (c : ascii) : bool :=
  let n := nat_of_ascii c in
  ((65 <=? n) && (n <=? 90)) || ((97 <=? n) && (n <=? 122))
  || Ascii.eqb c "_"%char.

Definition isAlphaNumeric (c : ascii) : bool := isAlpha c || isDigit c.

Definition backslash : ascii := "\"%char.
Definition dquote : ascii := "034"%char.
Definition tab : ascii := "009"%char.
Definition carriage_return : ascii := "013"%char.

(** [escapeString]: the [switch] applied to one character, then the
    [for (char c : str)] loop. *)
Definition escapeChar (c : ascii) : string :=
  if Ascii.eqb c backslash then String backslash (String backslash "")
  else if Ascii.eqb c dquote then String backslash (String dquote "")
  else if Ascii.eqb c newline then String backslash (String "n" "")
  else if Ascii.eqb c tab then String backslash (String "t" "")
  else if Ascii.eqb c carriage_return then String backslash (String "r" "")
  else String c "".

Fixpoint escapeString (str : string) : string :=
  match str with
  | EmptyString => ""
  | String c rest => escapeChar c ++ escapeString rest
  end.

(** The inner [switch (str[i + 1])] of [unescapeString]. *)
Definition unescapeChar (c : ascii) : ascii :=
  if Ascii.eqb c backslash then backslash
  else if Ascii.eqb c dquote then dquote
  else if Ascii.eqb c "n" then newline
  else if Ascii.eqb c "t" then tab
  else if Ascii.eqb c "r" then carriage_return
  else c.

(** [unescapeString]: the index loop reads [str[i]]; on a backslash with a
    character after it ([i + 1 < str.length()]) it decodes that character
    and skips it, otherwise it copies [str[i]].  The recursion is on the
    part of the string from index [i] on. *)
Fixpoint unescapeString (str : string) : string :=
  match str with
  | EmptyString => ""
  | String c rest =>
      if Ascii.eqb c backslash then
        match rest with
        | EmptyString => String c ""
        | String d rest' => String (unescapeChar d) (unescapeString rest')
        end
      else String c (unescapeString rest)
  end.

Definition dataTypeToString (type : DataType) : string :=
  match type with
  | VOID => "void"
  | INT => "int"
  | FLOAT_T => "float"
  | BOOL => "bool"
  | STRING_T => "string"
  | ARRAY => "array"
  | FUNCTION_T => "function"
  | UNKNOWN => "unknown"
  end.

(* ===================================================================== *)
(** ** Lexer.h / Lexer.cpp *)
(* ===================================================================== *)

Record Token : Type := mkToken {
  type : TokenType;
  value : string;
  location : SourceLocation
}.

Module Lexer.

Record t : Type := mk {
  source_ : string;
  current_ : nat;
  start_ : nat;
  location_ : SourceLocation
}.

(** [Lexer::initializeKeywords]. *)
Definition keywords_ : gmap string TokenType :=
  <["null" := NULL_LITERAL]> (<["false" := FALSE]> (<["true" := TRUE]> (
  <["const" := CONST]> (<["let" := LET]> (<["var" := VAR]> (
  <["function" := FUNCTION]> (<["return" := RETURN]> (<["for" := FOR]> (
  <["while" := WHILE]> (<["else" := ELSE]> (<["if" := IF]> ∅))))))))))).

Definition new (source : string) : t := mk source 0 0 (mkLoc 1 1 0).

Definition set_start (lx : t) : t :=
  mk (source_ lx) (current_ lx) (current_ lx) (location_ lx).

Definition isAtEnd (lx : t) : bool :=
  String.length (source_ lx) <=? current_ lx.

(** [source_[i]] for an index the caller has checked to be in range. *)
Definition at_ (lx : t) (i : nat) : ascii :=
  match String.get i (source_ lx) with Some c => c | None => zero end.

Definition peek (lx : t) (offset : nat) : ascii :=
  if String.length (source_ lx) <=? current_ lx + offset then zero
  else at_ lx (current_ lx + offset).

Definition advance (lx : t) : ascii * t :=
  if isAtEnd lx then (zero, lx)
  else
    let c := at_ lx (current_ lx) in
    (c, mk (source_ lx) (S (current_ lx)) (start_ lx)
           (SourceLocation_advance (location_ lx) c)).

Definition match_ (expected : ascii) (lx : t) : bool * t :=
  if isAtEnd lx then (false, lx)
  else if negb (Ascii.eqb (at_ lx (current_ lx)) expected) then (false, lx)
  else (true, mk (source_ lx) (S (current_ lx)) (start_ lx)
                 (SourceLocation_advance (location_ lx) expected)).

Definition errorToken (message : string) (lx : t) : Token :=
  mkToken ERROR message (location_ lx).

(** Characters left to read; every scanning loop below stops at
    [isAtEnd], so it runs at most this many times. *)
Definition remaining (lx : t) : nat :=
  String.length (source_ lx) - current_ lx.

Fixpoint skipWhitespace_loop (n : nat) (lx : t) : t :=
  match n with
  | O => lx
  | S n' =>
      if negb (isAtEnd lx) && isWhitespace (peek lx 0)
      then skipWhitespace_loop n' (snd (advance lx))
      else lx
  end.

Definition skipWhitespace (lx : t) : t :=
  skipWhitespace_loop (remaining lx) lx.

Fixpoint skipComment_loop (n : nat) (lx : t) : t :=
  match n with
  | O => lx
  | S n' =>
      if negb (isAtEnd lx) && negb (Ascii.eqb (peek lx 0) newline)
      then skipComment_loop n' (snd (advance lx))
      else lx
  end.

Definition skipComment (lx : t) : t :=
  skipComment_loop (remaining lx) lx.

(** The [while] loop of [readNumber], threading [hasDecimal]. *)
Fixpoint readNumber_loop (n : nat) (hasDecimal : bool) (lx : t) : bool * t :=
  match n with
  | O => (hasDecimal, lx)
  | S n' =>
      if negb (isAtEnd lx)
         && (isDigit (peek lx 0)
             || (negb hasDecimal && Ascii.eqb (peek lx 0) "."%char))
      then
        let hasDecimal' :=
          if Ascii.eqb (peek lx 0) "."%char then true else hasDecimal in
        readNumber_loop n' hasDecimal' (snd (advance lx))
      else (hasDecimal, lx)
  end.

Definition readNumber (lx : t) : Token * t :=
  let '(hasDecimal, lx) := readNumber_loop (remaining lx) false lx in
  let number :=
    String.substring (start_ lx) (current_ lx - start_ lx) (source_ lx) in
  let type := if hasDecimal then FLOAT else INTEGER in
  (mkToken type number (location_ lx), lx).

(** The [while] loop of [readString]; [inl] is the early
    [return errorToken(...)] from inside the loop. *)
Fixpoint readString_loop (n : nat) (lx : t) : Token * t + t :=
  match n with
  | O => inr lx
  | S n' =>
      if negb (isAtEnd lx) && negb (Ascii.eqb (peek lx 0) dquote)
      then
        if Ascii.eqb (peek lx 0) newline
        then inl (errorToken "Unterminated string" lx, lx)
        else readString_loop n' (snd (advance lx))
      else inr lx
  end.

Definition readString (lx : t) : Token * t :=
  match readString_loop (remaining lx) lx with
  | inl r => r
  | inr lx =>
      if isAtEnd lx then (errorToken "Unterminated string" lx, lx)
      else
        let lx := snd (advance lx) in
        let value :=
          String.substring (S (start_ lx)) (current_ lx - start_ lx - 2)
                           (source_ lx) in
        (mkToken STRING value (location_ lx), lx)
  end.

Fixpoint readIdentifier_loop (n : nat) (lx : t) : t :=
  match n with
  | O => lx
  | S n' =>
      if negb (isAtEnd lx) && isAlphaNumeric (peek lx 0)
      then readIdentifier_loop n' (snd (advance lx))
      else lx
  end.

Definition readIdentifier (lx : t) : Token * t :=
  let lx := readIdentifier_loop (remaining lx) lx in
  let text :=
    String.substring (start_ lx) (current_ lx - start_ lx) (source_ lx) in
  match keywords_ !! text with
  | Some ty => (mkToken ty text (location_ lx), lx)
  | None => (mkToken IDENTIFIER text (location_ lx), lx)
  end.

(** The six two-character operators, tried in the order of the source. *)
Definition twoCharOperator (twoChar : string) : option TokenType :=
  if String.eqb twoChar "==" then Some EQUAL
  else if String.eqb twoChar "!=" then Some NOT_EQUAL
  else if String.eqb twoChar "<=" then Some LESS_EQUAL
  else if String.eqb twoChar ">=" then Some GREATER_EQUAL
  else if String.eqb twoChar "&&" then Some AND
  else if String.eqb twoChar "||" then Some OR
  else None.

(** The [switch (c)] of [readOperator]; [None] is the [default:] arm. *)
Definition singleCharOperator (c : ascii) : option TokenType :=
  if Ascii.eqb c "(" then Some LEFT_PAREN
  else if Ascii.eqb c ")" then Some RIGHT_PAREN
  else if Ascii.eqb c "{" then Some LEFT_BRACE
  else if Ascii.eqb c "}" then Some RIGHT_BRACE
  else if Ascii.eqb c "[" then Some LEFT_BRACKET
  else if Ascii.eqb c "]" then Some RIGHT_BRACKET
  else if Ascii.eqb c ";" then Some SEMICOLON
  else if Ascii.eqb c "," then Some COMMA
  else if Ascii.eqb c "." then Some DOT
  else if Ascii.eqb c "+" then Some PLUS
  else if Ascii.eqb c "-" then Some MINUS
  else if Ascii.eqb c "*" then Some MULTIPLY
  else if Ascii.eqb c "/" then Some DIVIDE
  else if Ascii.eqb c "%" then Some MODULO
  else if Ascii.eqb c "=" then Some ASSIGN
  else if Ascii.eqb c "<" then Some LESS
  else if Ascii.eqb c ">" then Some GREATER
  else if Ascii.eqb c "!" then Some NOT
  else None.

Definition readOperator_single (c : ascii) (lx : t) : Token * t :=
  match singleCharOperator c with
  | Some ty => (mkToken ty (String c "") (location_ lx), lx)
  | None =>
      (errorToken ("Unexpected character: " ++ String c "") lx, lx)
  end.

Definition readOperator (lx : t) : Token * t :=
  let c := at_ lx (current_ lx - 1) in
  if negb (isAtEnd lx) then
    let next := peek lx 0 in
    let twoChar := String c (String next "") in
    match twoCharOperator twoChar with
    | Some ty =>
        let lx := snd (advance lx) in
        (mkToken ty twoChar (location_ lx), lx)
    | None => readOperator_single c lx
    end
  else readOperator_single c lx.

(** [nextToken] calls itself after a comment; each such call has consumed
    the two slashes, so [n] bounds the number of calls when it is at least
    the number of characters left.  [None] is [nullptr]. *)
Fixpoint nextToken_rec (n : nat) (lx : t) : option Token * t :=
  let lx := skipWhitespace lx in
  if isAtEnd lx then (None, lx)
  else
    let lx := set_start lx in
    let '(c, lx) := advance lx in
    let '(isComment, lx) :=
      if Ascii.eqb c "/" then match_ "/" lx else (false, lx) in
    if isComment then
      let lx := skipComment lx in
      match n with
      | O => (None, lx)
      | S n' => nextToken_rec n' lx
      end
    else if isAlpha c then
      let '(tok, lx) := readIdentifier lx in (Some tok, lx)
    else if isDigit c then
      let '(tok, lx) := readNumber lx in (Some tok, lx)
    else if Ascii.eqb c dquote then
      let '(tok, lx) := readString lx in (Some tok, lx)
    else
      let '(tok, lx) := readOperator lx in (Some tok, lx).

Definition nextToken (lx : t) : option Token * t :=
  nextToken_rec (remaining lx) lx.

(** The [while (!isAtEnd())] loop of [tokenize]: an iteration that does
    not reach the end of the input consumes at least one character. *)
Fixpoint tokenize_loop (n : nat) (lx : t) (tokens : list Token)
  : list Token * t :=
  match n with
  | O => (tokens, lx)
  | S n' =>
      if negb (isAtEnd lx) then
        let lx := set_start lx in
        let '(token, lx) := nextToken lx in
        tokenize_loop n' lx
          (match token with
           | Some tok => (tokens ++ [tok])%list
           | None => tokens
           end)
      else (tokens, lx)
  end.

Definition tokenize (lx : t) : list Token * t :=
  let '(tokens, lx) := tokenize_loop (S (remaining lx)) lx [] in
  ((tokens ++ [mkToken END_OF_FILE "" (location_ lx)])%list, lx).

End Lexer.

(** [Lexer lexer(source); lexer.tokenize()]. *)
Definition tokenize (source : string) : list Token :=
  fst (Lexer.tokenize (Lexer.new source)).

(* ===================================================================== *)
(** ** AST.h *)
(* ===================================================================== *)

(** The node classes, one constructor per class.  An [ExpressionPtr] or
    [StatementPtr] that may be [nullptr] (an absent initializer, [else]
    branch or return value) is an [option]. *)
Inductive Expression : Type :=
  | LiteralExpression (value : string) (type : DataType)
                      (location : SourceLocation)
  | VariableExpression (name : string) (location : SourceLocation)
  | BinaryExpression (left : Expression) (op : OperatorType)
                     (right : Expression) (location : SourceLocation)
  | UnaryExpression (op : OperatorType) (operand : Expression)
                    (location : SourceLocation)
  | AssignmentExpression (name : string) (value : Expression)
                         (location : SourceLocation)
  | FunctionCallExpression (name : string) (arguments : list Expression)
                           (location : SourceLocation).

Inductive Statement : Type :=
  | BlockStatement (statements : list Statement) (location : SourceLocation)
  | VariableDeclaration (name : string) (type : DataType)
                        (initializer : option Expression)
                        (location : SourceLocation)
  | FunctionDeclaration (name : string) (returnType : DataType)
                        (parameters : list (string * DataType))
                        (body : Statement) (location : SourceLocation)
  | IfStatement (condition : Expression) (thenBranch : Statement)
                (elseBranch : option Statement) (location : SourceLocation)
  | WhileStatement (condition : Expression) (body : Statement)
                   (location : SourceLocation)
  | ReturnStatement (value : option Expression) (location : SourceLocation)
  | ExpressionStatement (expression : Expression)
                        (location : SourceLocation).

Inductive Program : Type :=
  | mkProgram (statements : list Statement).

Definition Expression_location (e : Expression) : SourceLocation :=
  match e with
  | LiteralExpression _ _ l | VariableExpression _ l
  | BinaryExpression _ _ _ l | UnaryExpression _ _ l
  | AssignmentExpression _ _ l | FunctionCallExpression _ _ l => l
  end.

Definition Program_statements (p : Program) : list Statement :=
  match p with mkProgram ss => ss end.

(* ===================================================================== *)
(** ** Parser.h / Parser.cpp *)
(* ===================================================================== *)

Module Parser.

Record t : Type := mk {
  tokens_ : list Token;
  current_ : nat;
  hadError_ : bool;
  panicMode_ : bool
}.

(** How a member function of the parser can end: it returns a value, a
    [CompilerError] leaves it by [throw], it indexes [tokens_] out of
    range or reaches [SCARLET_UNREACHABLE] (behaviour the language leaves
    undefined), or the recursion budget of this embedding is used up. *)
Inductive result (A : Type) : Type :=
  | Ok (a : A) (p : t)
  | Throw (e : CompilerError) (p : t)
  | Undefined
  | OutOfFuel.
Arguments Ok {A} a p.
Arguments Throw {A} e p.
Arguments Undefined {A}.
Arguments OutOfFuel {A}.

Definition M (A : Type) : Type := t -> result A.

Definition ret {A} (a : A) : M A := fun p => Ok a p.

Definition bind {A B} (m : M A) (f : A -> M B) : M B :=
  fun p =>
    match m p with
    | Ok a p' => f a p'
    | Throw e p' => Throw e p'
    | Undefined => Undefined
    | OutOfFuel => OutOfFuel
    end.

Definition throw {A} (e : CompilerError) : M A := fun p => Throw e p.
Definition undefined {A} : M A := fun _ => Undefined.
Definition out_of_fuel {A} : M A := fun _ => OutOfFuel.

Notation "x <- m ;; k" := (bind m (fun x => k))
  (at level 100, m at level 99, k at level 200, right associativity).
Notation "m ;;; k" := (bind m (fun _ => k))
  (at level 100, k at level 200, right associativity).

(** [Parser::Parser]. *)
Definition new (tokens : list Token) : t := mk tokens 0 false false.

(** [tokens_[current_].get()]. *)
Definition peek : M Token :=
  fun p =>
    match tokens_ p !! current_ p with
    | Some tok => Ok tok p
    | None => Undefined
    end.

(** [tokens_[current_ - 1].get()]; at [current_ = 0] the unsigned index
    wraps around and is out of range. *)
Definition previous : M Token :=
  fun p =>
    match current_ p with
    | O => Undefined
    | S i =>
        match tokens_ p !! i with
        | Some tok => Ok tok p
        | None => Undefined
        end
    end.

Definition isAtEnd : M bool :=
  tok <- peek ;; ret (bool_decide (type tok = END_OF_FILE)).

Definition check (ty : TokenType) : M bool :=
  atEnd <- isAtEnd ;;
  if atEnd then ret false
  else tok <- peek ;; ret (bool_decide (type tok = ty)).

Definition advance : M Token :=
  atEnd <- isAtEnd ;;
  (if atEnd then ret tt
   else fun p => Ok tt (mk (tokens_ p) (S (current_ p))
                           (hadError_ p) (panicMode_ p))) ;;;
  previous.

Definition match_ (ty : TokenType) : M bool :=
  b <- check ty ;;
  if b then advance ;;; ret true else ret false.

(** [a || b] on two calls with effects: [b] runs only when [a] is false. *)
Definition orM (a b : M bool) : M bool :=
  x <- a ;; if x then ret true else b.

Definition consume (ty : TokenType) (message : string) : M Token :=
  b <- check ty ;;
  if b then advance
  else tok <- peek ;; throw (CompilerError_new message (location tok)).

(** [Parser::error]: it sets the two flags and always throws. *)
Definition error (message : string) : M unit :=
  (fun p => Ok tt (mk (tokens_ p) (current_ p) true true)) ;;;
  atEnd <- isAtEnd ;;
  if negb atEnd then
    tok <- peek ;; throw (CompilerError_new message (location tok))
  else
    tok <- previous ;; throw (CompilerError_new message (location tok)).

(** The [while] loop of [synchronize]. *)
Fixpoint synchronize_loop (fuel : nat) : M unit :=
  match fuel with
  | O => out_of_fuel
  | S fuel =>
      atEnd <- isAtEnd ;;
      if atEnd then ret tt
      else
        prev <- previous ;;
        if bool_decide (type prev = SEMICOLON) then ret tt
        else
          tok <- peek ;;
          match type tok with
          | FUNCTION | VAR | LET | CONST | FOR | IF | WHILE | RETURN =>
              ret tt
          | _ => advance ;;; synchronize_loop fuel
          end
  end.

Definition synchronize (fuel : nat) : M unit :=
  (fun p => Ok tt (mk (tokens_ p) (current_ p) (hadError_ p) false)) ;;;
  synchronize_loop fuel.

Definition parseType : M DataType :=
  b <- match_ IDENTIFIER ;;
  if b then
    tok <- previous ;;
    let typeName := value tok in
    if String.eqb typeName "int" then ret INT
    else if String.eqb typeName "float" then ret FLOAT_T
    else if String.eqb typeName "bool" then ret BOOL
    else if String.eqb typeName "string" then ret STRING_T
    else if String.eqb typeName "void" then ret VOID
    else error ("Unknown type: " ++ typeName) ;;; ret UNKNOWN
  else error "Expect type name." ;;; ret UNKNOWN.

(** The expression grammar.  Each function takes the recursion budget
    [fuel]; a [while] loop of the source is the [_loop] function next to
    it, which carries the expression built so far. *)
Fixpoint parseExpression (fuel : nat) : M Expression :=
  match fuel with
  | O => out_of_fuel
  | S fuel => parseAssignment fuel
  end

with parseAssignment (fuel : nat) : M Expression :=
  match fuel with
  | O => out_of_fuel
  | S fuel =>
      expr <- parseLogicalOr fuel ;;
      b <- match_ ASSIGN ;;
      if b then
        equals <- previous ;;
        value <- parseAssignment fuel ;;
        match expr with
        | VariableExpression name _ =>
            ret (AssignmentExpression name value (location equals))
        | _ => error "Invalid assignment target" ;;; ret expr
        end
      else ret expr
  end

with parseLogicalOr (fuel : nat) : M Expression :=
  match fuel with
  | O => out_of_fuel
  | S fuel => expr <- parseLogicalAnd fuel ;; parseLogicalOr_loop fuel expr
  end

with parseLogicalOr_loop (fuel : nat) (expr : Expression) : M Expression :=
  match fuel with
  | O => out_of_fuel
  | S fuel =>
      b <- match_ OR ;;
      if b then
        operator_ <- previous ;;
        right <- parseLogicalAnd fuel ;;
        parseLogicalOr_loop fuel
          (BinaryExpression expr OP_OR right (location operator_))
      else ret expr
  end

with parseLogicalAnd (fuel : nat) : M Expression :=
  match fuel with
  | O => out_of_fuel
  | S fuel => expr <- parseEquality fuel ;; parseLogicalAnd_loop fuel expr
  end

with parseLogicalAnd_loop (fuel : nat) (expr : Expression) : M Expression :=
  match fuel with
  | O => out_of_fuel
  | S fuel =>
      b <- match_ AND ;;
      if b then
        operator_ <- previous ;;
        right <- parseEquality fuel ;;
        parseLogicalAnd_loop fuel
          (BinaryExpression expr OP_AND right (location operator_))
      else ret expr
  end

with parseEquality (fuel : nat) : M Expression :=
  match fuel with
  | O => out_of_fuel
  | S fuel => expr <- parseComparison fuel ;; parseEquality_loop fuel expr
  end

with parseEquality_loop (fuel : nat) (expr : Expression) : M Expression :=
  match fuel with
  | O => out_of_fuel
  | S fuel =>
      b <- orM (match_ NOT_EQUAL) (match_ EQUAL) ;;
      if b then
        operator_ <- previous ;;
        right <- parseComparison fuel ;;
        let op := if bool_decide (type operator_ = EQUAL)
                  then OP_EQUAL else OP_NOT_EQUAL in
        parseEquality_loop fuel
          (BinaryExpression expr op right (location operator_))
      else ret expr
  end

with parseComparison (fuel : nat) : M Expression :=
  match fuel with
  | O => out_of_fuel
  | S fuel => expr <- parseTerm fuel ;; parseComparison_loop fuel expr
  end

with parseComparison_loop (fuel : nat) (expr : Expression) : M Expression :=
  match fuel with
  | O => out_of_fuel
  | S fuel =>
      b <- orM (match_ GREATER) (orM (match_ GREATER_EQUAL)
               (orM (match_ LESS) (match_ LESS_EQUAL))) ;;
      if b then
        operator_ <- previous ;;
        right <- parseTerm fuel ;;
        match type operator_ with
        | GREATER =>
            parseComparison_loop fuel
              (BinaryExpression expr OP_GREATER right (location operator_))
        | GREATER_EQUAL =>
            parseComparison_loop fuel
              (BinaryExpression expr OP_GREATER_EQUAL right
                                (location operator_))
        | LESS =>
            parseComparison_loop fuel
              (BinaryExpression expr OP_LESS right (location operator_))
        | LESS_EQUAL =>
            parseComparison_loop fuel
              (BinaryExpression expr OP_LESS_EQUAL right
                                (location operator_))
        | _ => undefined
        end
      else ret expr
  end

with parseTerm (fuel : nat) : M Expression :=
  match fuel with
  | O => out_of_fuel
  | S fuel => expr <- parseFactor fuel ;; parseTerm_loop fuel expr
  end

with parseTerm_loop (fuel : nat) (expr : Expression) : M Expression :=
  match fuel with
  | O => out_of_fuel
  | S fuel =>
      b <- orM (match_ MINUS) (match_ PLUS) ;;
      if b then
        operator_ <- previous ;;
        right <- parseFactor fuel ;;
        let op := if bool_decide (type operator_ = PLUS)
                  then OP_ADD else OP_SUBTRACT in
        parseTerm_loop fuel
          (BinaryExpression expr op right (location operator_))
      else ret expr
  end

with parseFactor (fuel : nat) : M Expression :=
  match fuel with
  | O => out_of_fuel
  | S fuel => expr <- parseUnary fuel ;; parseFactor_loop fuel expr
  end

with parseFactor_loop (fuel : nat) (expr : Expression) : M Expression :=
  match fuel with
  | O => out_of_fuel
  | S fuel =>
      b <- orM (match_ SLASH) (orM (match_ MULTIPLY) (match_ MODULO)) ;;
      if b then
        operator_ <- previous ;;
        right <- parseUnary fuel ;;
        match type operator_ with
        | MULTIPLY =>
            parseFactor_loop fuel
              (BinaryExpression expr OP_MULTIPLY right (location operator_))
        | SLASH =>
            parseFactor_loop fuel
              (BinaryExpression expr OP_DIVIDE right (location operator_))
        | MODULO =>
            parseFactor_loop fuel
              (BinaryExpression expr OP_MODULO right (location operator_))
        | _ => undefined
        end
      else ret expr
  end

with parseUnary (fuel : nat) : M Expression :=
  match fuel with
  | O => out_of_fuel
  | S fuel =>
      b <- orM (match_ NOT) (match_ MINUS) ;;
      if b then
        operator_ <- previous ;;
        right <- parseUnary fuel ;;
        let op := if bool_decide (type operator_ = MINUS)
                  then OP_SUBTRACT else OP_NOT in
        ret (UnaryExpression op right (location operator_))
      else parsePrimary fuel
  end

with parsePrimary (fuel : nat) : M Expression :=
  match fuel with
  | O => out_of_fuel
  | S fuel =>
      b <- match_ FALSE ;;
      if b then
        tok <- previous ;;
        ret (LiteralExpression "false" BOOL (location tok))
      else
      b <- match_ TRUE ;;
      if b then
        tok <- previous ;;
        ret (LiteralExpression "true" BOOL (location tok))
      else
      b <- match_ NULL_LITERAL ;;
      if b then
        tok <- previous ;;
        ret (LiteralExpression "null" UNKNOWN (location tok))
      else
      b <- match_ INTEGER ;;
      if b then
        tok <- previous ;;
        ret (LiteralExpression (value tok) INT (location tok))
      else
      b <- match_ FLOAT ;;
      if b then
        tok <- previous ;;
        ret (LiteralExpression (value tok) FLOAT_T (location tok))
      else
      b <- match_ STRING ;;
      if b then
        tok <- previous ;;
        ret (LiteralExpression (value tok) STRING_T (location tok))
      else
      b <- match_ IDENTIFIER ;;
      if b then
        tok <- previous ;;
        ret (VariableExpression (value tok) (location tok))
      else
      b <- match_ LEFT_PAREN ;;
      if b then
        expr <- parseExpression fuel ;;
        consume RIGHT_PAREN "Expect ')' after expression." ;;;
        ret expr
      else
        tok <- peek ;;
        throw (CompilerError_new "Expect expression." (location tok))
  end.

(** [parseArguments]: the [do ... while (match(COMMA))] loop.  No
    function of the parser calls it. *)
Fixpoint parseArguments_loop (fuel : nat) (arguments : list Expression)
  : M (list Expression) :=
  match fuel with
  | O => out_of_fuel
  | S fuel' =>
      arg <- parseExpression fuel' ;;
      let arguments := (arguments ++ [arg])%list in
      b <- match_ COMMA ;;
      if b then parseArguments_loop fuel' arguments else ret arguments
  end.

Definition parseArguments (fuel : nat) : M (list Expression) :=
  b <- check RIGHT_PAREN ;;
  if negb b then parseArguments_loop fuel [] else ret [].

Fixpoint parseParameters_loop (fuel : nat)
    (parameters : list (string * DataType))
  : M (list (string * DataType)) :=
  match fuel with
  | O => out_of_fuel
  | S fuel' =>
      consume IDENTIFIER "Expect parameter name." ;;;
      name <- previous ;;
      consume COLON "Expect ':' after parameter name." ;;;
      ty <- parseType ;;
      let parameters := (parameters ++ [(value name, ty)])%list in
      b <- match_ COMMA ;;
      if b then parseParameters_loop fuel' parameters else ret parameters
  end.

Definition parseParameters (fuel : nat) : M (list (string * DataType)) :=
  b <- check RIGHT_PAREN ;;
  if negb b then parseParameters_loop fuel [] else ret [].

Definition parseExpressionStatement (fuel : nat) : M Statement :=
  expr <- parseExpression fuel ;;
  consume SEMICOLON "Expect ';' after expression." ;;;
  prev <- previous ;;
  ret (ExpressionStatement expr (location prev)).

Definition parseReturnStatement (fuel : nat) : M Statement :=
  keyword <- previous ;;
  b <- check SEMICOLON ;;
  value <- (if negb b
            then e <- parseExpression fuel ;; ret (Some e)
            else ret None) ;;
  consume SEMICOLON "Expect ';' after return value." ;;;
  ret (ReturnStatement value (location keyword)).

Definition parseVariableDeclaration (fuel : nat) : M Statement :=
  keyword <- previous ;;
  consume IDENTIFIER "Expect variable name." ;;;
  name <- previous ;;
  b <- match_ COLON ;;
  ty <- (if b then parseType else ret UNKNOWN) ;;
  b <- match_ ASSIGN ;;
  initializer <- (if b
                  then e <- parseExpression fuel ;; ret (Some e)
                  else ret None) ;;
  consume SEMICOLON "Expect ';' after variable declaration." ;;;
  ret (VariableDeclaration (value name) ty initializer (location keyword)).

Fixpoint parseStatement (fuel : nat) : M Statement :=
  match fuel with
  | O => out_of_fuel
  | S fuel =>
      b <- match_ IF ;;
      if b then parseIfStatement fuel else
      b <- match_ WHILE ;;
      if b then parseWhileStatement fuel else
      b <- match_ RETURN ;;
      if b then parseReturnStatement fuel else
      b <- match_ LEFT_BRACE ;;
      if b then parseBlockStatement fuel else
      b <- orM (match_ VAR) (orM (match_ LET) (match_ CONST)) ;;
      if b then parseVariableDeclaration fuel else
      b <- match_ FUNCTION ;;
      if b then parseFunctionDeclaration fuel else
      parseExpressionStatement fuel
  end

with parseBlockStatement (fuel : nat) : M Statement :=
  match fuel with
  | O => out_of_fuel
  | S fuel =>
      statements <- parseBlockStatement_loop fuel [] ;;
      consume RIGHT_BRACE "Expect '}' after block." ;;;
      prev <- previous ;;
      ret (BlockStatement statements (location prev))
  end

with parseBlockStatement_loop (fuel : nat) (statements : list Statement)
  : M (list Statement) :=
  match fuel with
  | O => out_of_fuel
  | S fuel =>
      isBrace <- check RIGHT_BRACE ;;
      atEnd <- (if negb isBrace then isAtEnd else ret true) ;;
      if negb isBrace && negb atEnd then
        stmt <- parseStatement fuel ;;
        parseBlockStatement_loop fuel (statements ++ [stmt])%list
      else ret statements
  end

with parseIfStatement (fuel : nat) : M Statement :=
  match fuel with
  | O => out_of_fuel
  | S fuel =>
      consume LEFT_PAREN "Expect '(' after 'if'." ;;;
      condition <- parseExpression fuel ;;
      consume RIGHT_PAREN "Expect ')' after if condition." ;;;
      thenBranch <- parseStatement fuel ;;
      b <- match_ ELSE ;;
      elseBranch <- (if b
                     then s <- parseStatement fuel ;; ret (Some s)
                     else ret None) ;;
      prev <- previous ;;
      ret (IfStatement condition thenBranch elseBranch (location prev))
  end

with parseWhileStatement (fuel : nat) : M Statement :=
  match fuel with
  | O => out_of_fuel
  | S fuel =>
      consume LEFT_PAREN "Expect '(' after 'while'." ;;;
      condition <- parseExpression fuel ;;
      consume RIGHT_PAREN "Expect ')' after condition." ;;;
      body <- parseStatement fuel ;;
      prev <- previous ;;
      ret (WhileStatement condition body (location prev))
  end

with parseFunctionDeclaration (fuel : nat) : M Statement :=
  match fuel with
  | O => out_of_fuel
  | S fuel =>
      consume IDENTIFIER "Expect function name." ;;;
      name <- previous ;;
      consume LEFT_PAREN "Expect '(' after function name." ;;;
      parameters <- parseParameters fuel ;;
      consume RIGHT_PAREN "Expect ')' after parameters." ;;;
      b <- match_ COLON ;;
      returnType <- (if b then parseType else ret VOID) ;;
      consume LEFT_BRACE "Expect '{' before function body." ;;;
      body <- parseBlockStatement fuel ;;
      ret (FunctionDeclaration (value name) returnType parameters body
                               (location name))
  end.

(** The [while (!isAtEnd())] loop of [parse] with its [try]/[catch].  The
    handler calls [error(e.what())], which throws: that second exception
    is raised outside the [try] block, so it leaves [parse], and
    [synchronize()] after it is never reached. *)
Fixpoint parse_loop (fuel : nat) (statements : list Statement)
  : M Program :=
  match fuel with
  | O => out_of_fuel
  | S fuel' =>
      atEnd <- isAtEnd ;;
      if atEnd then ret (mkProgram statements)
      else
        fun p =>
          match parseStatement fuel' p with
          | Ok stmt p' =>
              parse_loop fuel' (statements ++ [stmt])%list p'
          | Throw e p' =>
              (error (what e) ;;; synchronize fuel' ;;;
               parse_loop fuel' statements) p'
          | Undefined => Undefined
          | OutOfFuel => OutOfFuel
          end
  end.

(** A budget that grows with the token list: a call that does not
    consume a token is one of at most ten nested descents from
    [parseExpression] to [parsePrimary] or one of the statement
    dispatchers. *)
Definition budget (tokens : list Token) : nat := 16 * S (length tokens).

Definition parse : M Program :=
  fun p => parse_loop (budget (tokens_ p)) [] p.

End Parser.

(** [Parser parser(tokens); parser.parse()]. *)
Definition parse (tokens : list Token) : Parser.result Program :=
  Parser.parse (Parser.new tokens).

(* ===================================================================== *)
(** ** Semantic.h / Semantic.cpp *)
(* ===================================================================== *)

Module Symbol.

(** [struct Symbol].  The constructor leaves [returnType] uninitialised
    ([None]); only function symbols are given one, and it is read only
    after [isFunction] has been tested. *)
Record t : Type := mk {
  name : string;
  type : DataType;
  isFunction : bool;
  isConstant : bool;
  location : SourceLocation;
  parameterTypes : list DataType;
  returnType : option DataType
}.

Definition new (name : string) (type : DataType) (isFunction : bool)
    (location : SourceLocation) : t :=
  mk name type isFunction false location [] None.

Definition set_returnType (ty : DataType) (s : t) : t :=
  mk (name s) (type s) (isFunction s) (isConstant s) (location s)
     (parameterTypes s) (Some ty).

Definition set_parameterTypes (tys : list DataType) (s : t) : t :=
  mk (name s) (type s) (isFunction s) (isConstant s) (location s)
     tys (returnType s).

End Symbol.

Module SymbolTable.

(** [scopes_]: the global scope is at index 0, the innermost scope is
    [back()]. *)
Record t : Type := mk {
  scopes_ : list (gmap string Symbol.t)
}.

Definition enterScope (st : t) : t := mk (scopes_ st ++ [∅])%list.

Definition exitScope (st : t) : t :=
  if 1 <? length (scopes_ st) then mk (removelast (scopes_ st)) else st.

(** [SymbolTable::SymbolTable]. *)
Definition new : t := enterScope (mk []).

Definition clear (st : t) : t := enterScope (mk []).

Definition scopeDepth (st : t) : nat := length (scopes_ st).

(** [scopes_.back().find(name)].  [back()] of an empty vector is
    undefined; the constructor and the guard of [exitScope] keep one scope
    in place, and on the empty list this model finds nothing. *)
Definition lookupCurrentScope (name : string) (st : t) : option Symbol.t :=
  match last (scopes_ st) with
  | Some scope => scope !! name
  | None => None
  end.

(** [f] applied to [back()]. *)
Fixpoint update_back {A} (f : A -> A) (l : list A) : list A :=
  match l with
  | [] => []
  | [x] => [f x]
  | x :: l' => x :: update_back f l'
  end.

Definition insert (name : string) (symbol : Symbol.t) (st : t) : bool * t :=
  match lookupCurrentScope name st with
  | Some _ => (false, st)
  | None => (true, mk (update_back (fun scope => <[name := symbol]> scope)
                                   (scopes_ st)))
  end.

(** The loop from [rbegin()] to [rend()], on the reversed vector. *)
Fixpoint lookup_from (name : string) (scopes : list (gmap string Symbol.t))
  : option Symbol.t :=
  match scopes with
  | [] => None
  | scope :: outer =>
      match scope !! name with
      | Some symbol => Some symbol
      | None => lookup_from name outer
      end
  end.

Definition lookup (name : string) (st : t) : option Symbol.t :=
  lookup_from name (rev (scopes_ st)).

End SymbolTable.

Module BuiltinFunctions.

Definition registerPrintFunction (st : SymbolTable.t) : SymbolTable.t :=
  let printSymbol :=
    Symbol.set_parameterTypes [STRING_T]
      (Symbol.set_returnType VOID
         (Symbol.new "print" FUNCTION_T true SourceLocation_default)) in
  snd (SymbolTable.insert "print" printSymbol st).

Definition registerInputFunction (st : SymbolTable.t) : SymbolTable.t :=
  let inputSymbol :=
    Symbol.set_parameterTypes []
      (Symbol.set_returnType STRING_T
         (Symbol.new "input" FUNCTION_T true SourceLocation_default)) in
  snd (SymbolTable.insert "input" inputSymbol st).

Definition registerMathFunctions (st : SymbolTable.t) : SymbolTable.t :=
  let sqrtSymbol :=
    Symbol.set_parameterTypes [FLOAT_T]
      (Symbol.set_returnType FLOAT_T
         (Symbol.new "sqrt" FUNCTION_T true SourceLocation_default)) in
  snd (SymbolTable.insert "sqrt" sqrtSymbol st).

Definition registerBuiltins (st : SymbolTable.t) : SymbolTable.t :=
  registerMathFunctions (registerInputFunction (registerPrintFunction st)).

End BuiltinFunctions.

Module TypeChecker.

Record t : Type := mk {
  symbolTable_ : SymbolTable.t;
  errors_ : list string;
  currentReturnType_ : DataType;
  inFunction_ : bool
}.

Definition new : t :=
  mk (BuiltinFunctions.registerBuiltins SymbolTable.new) [] VOID false.

Definition isCompatible (from to : DataType) : bool :=
  if bool_decide (from = to) then true
  else if bool_decide (from = UNKNOWN) || bool_decide (to = UNKNOWN)
  then true
  else if bool_decide (from = INT) && bool_decide (to = FLOAT_T) then true
  else if bool_decide (from = FLOAT_T) && bool_decide (to = INT) then true
  else false.

Definition getResultType (op : OperatorType) (left right : DataType)
  : DataType :=
  match op with
  | OP_ADD | OP_SUBTRACT | OP_MULTIPLY | OP_DIVIDE | OP_MODULO =>
      if bool_decide (left = INT) && bool_decide (right = INT) then INT
      else if (bool_decide (left = INT) || bool_decide (left = FLOAT_T))
              && (bool_decide (right = INT) || bool_decide (right = FLOAT_T))
      then (if bool_decide (left = FLOAT_T) || bool_decide (right = FLOAT_T)
            then FLOAT_T else INT)
      else UNKNOWN
  | OP_EQUAL | OP_NOT_EQUAL | OP_LESS | OP_LESS_EQUAL | OP_GREATER
  | OP_GREATER_EQUAL => BOOL
  | OP_AND | OP_OR =>
      if bool_decide (left = BOOL) && bool_decide (right = BOOL) then BOOL
      else UNKNOWN
  | _ => UNKNOWN
  end.

Definition getUnaryResultType (op : OperatorType) (operand : DataType)
  : DataType :=
  match op with
  | OP_SUBTRACT =>
      if bool_decide (operand = INT) || bool_decide (operand = FLOAT_T)
      then operand else UNKNOWN
  | OP_NOT => if bool_decide (operand = BOOL) then BOOL else UNKNOWN
  | _ => UNKNOWN
  end.

Definition reportError (message : string) (l : SourceLocation) (tc : t) : t :=
  mk (symbolTable_ tc) (errors_ tc ++ [format_diagnostic l message])%list
     (currentReturnType_ tc) (inFunction_ tc).

Definition hasErrors (tc : t) : bool :=
  negb (bool_decide (errors_ tc = [])).

End TypeChecker.

Module SemanticAnalyzer.

Record t : Type := mk {
  typeChecker_ : TypeChecker.t;
  symbolTable_ : SymbolTable.t;
  currentExpressionType_ : DataType;
  inLoop_ : bool;
  inFunction_ : bool;
  currentFunctionReturnType_ : DataType
}.

Definition new : t :=
  mk TypeChecker.new (BuiltinFunctions.registerBuiltins SymbolTable.new)
     UNKNOWN false false VOID.

Definition getErrors (a : t) : list string :=
  TypeChecker.errors_ (typeChecker_ a).

Definition hasErrors (a : t) : bool := TypeChecker.hasErrors (typeChecker_ a).

(** [typeChecker_.reportError(message, location)]. *)
Definition reportError (message : string) (l : SourceLocation) (a : t) : t :=
  mk (TypeChecker.reportError message l (typeChecker_ a)) (symbolTable_ a)
     (currentExpressionType_ a) (inLoop_ a) (inFunction_ a)
     (currentFunctionReturnType_ a).

Definition set_currentExpressionType (ty : DataType) (a : t) : t :=
  mk (typeChecker_ a) (symbolTable_ a) ty (inLoop_ a) (inFunction_ a)
     (currentFunctionReturnType_ a).

Definition set_symbolTable (st : SymbolTable.t) (a : t) : t :=
  mk (typeChecker_ a) st (currentExpressionType_ a) (inLoop_ a)
     (inFunction_ a) (currentFunctionReturnType_ a).

Definition set_inLoop (b : bool) (a : t) : t :=
  mk (typeChecker_ a) (symbolTable_ a) (currentExpressionType_ a) b
     (inFunction_ a) (currentFunctionReturnType_ a).

Definition set_function (inFunction : bool) (ret : DataType) (a : t) : t :=
  mk (typeChecker_ a) (symbolTable_ a) (currentExpressionType_ a)
     (inLoop_ a) inFunction ret.

Definition undefinedVariable (name : string) (l : SourceLocation) (a : t)
  : t :=
  set_currentExpressionType UNKNOWN
    (reportError ("Undefined variable: " ++ name) l a).

(** The [for] loop of [visitFunctionCallExpression] over the arguments,
    from index [i] on; [visit] is the visit of one argument
    ([checkExpression]), and the argument count has been checked against
    [parameterTypes] before. *)
Fixpoint checkArguments (visit : Expression -> t -> t)
    (parameterTypes : list DataType) (l : SourceLocation)
    (arguments : list Expression) (i : nat) (a : t) : t :=
  match arguments with
  | [] => a
  | arg :: arguments' =>
      let a := visit arg a in
      let argType := currentExpressionType_ a in
      let a :=
        if negb (TypeChecker.isCompatible argType
                   (nth i parameterTypes UNKNOWN))
        then reportError ("Argument " ++ to_string (i + 1)
                          ++ " type mismatch") l a
        else a in
      checkArguments visit parameterTypes l arguments' (S i) a
  end.

(** The expression visitors.  The analyzer's [checkExpression(e)] is read
    as [e->accept( *this); return currentExpressionType_;], the body of
    [TypeChecker::checkExpression]: below, "the type of [e]" is
    [currentExpressionType_] after the visit. *)
Fixpoint visitExpression (e : Expression) (a : t) : t :=
  match e with
  | LiteralExpression _ ty _ => set_currentExpressionType ty a
  | VariableExpression name l =>
      match SymbolTable.lookup name (symbolTable_ a) with
      | None => undefinedVariable name l a
      | Some symbol => set_currentExpressionType (Symbol.type symbol) a
      end
  | BinaryExpression left_ op right_ l =>
      let a := visitExpression left_ a in
      let leftType := currentExpressionType_ a in
      let a := visitExpression right_ a in
      let rightType := currentExpressionType_ a in
      let a :=
        set_currentExpressionType
          (TypeChecker.getResultType op leftType rightType) a in
      if bool_decide (currentExpressionType_ a = UNKNOWN)
      then reportError ("Invalid operation between types "
                        ++ dataTypeToString leftType ++ " and "
                        ++ dataTypeToString rightType) l a
      else a
  | UnaryExpression op operand l =>
      let a := visitExpression operand a in
      let operandType := currentExpressionType_ a in
      let a :=
        set_currentExpressionType
          (TypeChecker.getUnaryResultType op operandType) a in
      if bool_decide (currentExpressionType_ a = UNKNOWN)
      then reportError ("Invalid unary operation on type "
                        ++ dataTypeToString operandType) l a
      else a
  | AssignmentExpression name value l =>
      let a := visitExpression value a in
      let valueType := currentExpressionType_ a in
      match SymbolTable.lookup name (symbolTable_ a) with
      | None => undefinedVariable name l a
      | Some symbol =>
          let a :=
            if negb (TypeChecker.isCompatible valueType (Symbol.type symbol))
            then reportError ("Cannot assign " ++ dataTypeToString valueType
                              ++ " to variable of type "
                              ++ dataTypeToString (Symbol.type symbol)) l a
            else a in
          set_currentExpressionType (Symbol.type symbol) a
      end
  | FunctionCallExpression name arguments l =>
      let undefinedFunction :=
        set_currentExpressionType UNKNOWN
          (reportError ("Undefined function: " ++ name) l a) in
      match SymbolTable.lookup name (symbolTable_ a) with
      | None => undefinedFunction
      | Some symbol =>
          if negb (Symbol.isFunction symbol) then undefinedFunction
          else if negb (length arguments
                        =? length (Symbol.parameterTypes symbol))
          then
            set_currentExpressionType UNKNOWN
              (reportError
                 ("Function " ++ name ++ " expects "
                  ++ to_string (length (Symbol.parameterTypes symbol))
                  ++ " arguments, got " ++ to_string (length arguments))
                 l a)
          else
            let a :=
              checkArguments visitExpression (Symbol.parameterTypes symbol)
                             l arguments 0 a in
            set_currentExpressionType
              (default UNKNOWN (Symbol.returnType symbol)) a
      end
  end.

Definition checkExpression (e : Expression) (a : t) : DataType * t :=
  let a := visitExpression e a in (currentExpressionType_ a, a).

Definition visitVariableDeclaration (name : string) (ty : DataType)
    (initializer : option Expression) (l : SourceLocation) (a : t) : t :=
  let declaredType := ty in
  let '(initializerType, a) :=
    match initializer with
    | Some e => checkExpression e a
    | None => (UNKNOWN, a)
    end in
  let '(declaredType, a) :=
    if bool_decide (declaredType = UNKNOWN) then (initializerType, a)
    else if negb (bool_decide (initializerType = UNKNOWN))
            && negb (TypeChecker.isCompatible initializerType declaredType)
    then (declaredType,
          reportError ("Cannot initialize " ++ dataTypeToString declaredType
                       ++ " with " ++ dataTypeToString initializerType) l a)
    else (declaredType, a) in
  let symbol := Symbol.new name declaredType false l in
  let '(inserted, st) := SymbolTable.insert name symbol (symbolTable_ a) in
  let a := set_symbolTable st a in
  if negb inserted
  then reportError ("Variable already declared: " ++ name) l a
  else a.

Definition visitReturnStatement (value : option Expression)
    (l : SourceLocation) (a : t) : t :=
  if negb (inFunction_ a)
  then reportError "Return statement outside function" l a
  else
    let '(returnType, a) :=
      match value with
      | Some e => checkExpression e a
      | None => (VOID, a)
      end in
    if negb (TypeChecker.isCompatible returnType
               (currentFunctionReturnType_ a))
    then reportError "Return type mismatch" l a
    else a.

(** [Expression::location()] of the condition is where the two
    condition diagnostics point. *)
Definition checkCondition (message : string) (condition : Expression)
    (a : t) : t :=
  let '(conditionType, a) := checkExpression condition a in
  if negb (bool_decide (conditionType = BOOL))
  then reportError message (Expression_location condition) a
  else a.

(** The statement visitors ([stmt->accept( *this)]). *)
Fixpoint visitStatement (s : Statement) (a : t) : t :=
  match s with
  | BlockStatement statements _ =>
      let a := set_symbolTable (SymbolTable.enterScope (symbolTable_ a)) a in
      let a :=
        (fix statements_loop (ss : list Statement) (a : t) : t :=
           match ss with
           | [] => a
           | s' :: ss' => statements_loop ss' (visitStatement s' a)
           end) statements a in
      set_symbolTable (SymbolTable.exitScope (symbolTable_ a)) a
  | VariableDeclaration name ty initializer l =>
      visitVariableDeclaration name ty initializer l a
  | FunctionDeclaration name returnType parameters body l =>
      let symbol :=
        Symbol.set_parameterTypes (map snd parameters)
          (Symbol.set_returnType returnType
             (Symbol.new name returnType true l)) in
      let '(inserted, st) :=
        SymbolTable.insert name symbol (symbolTable_ a) in
      let a := set_symbolTable st a in
      if negb inserted
      then reportError ("Function already declared: " ++ name) l a
      else
        let a :=
          set_symbolTable (SymbolTable.enterScope (symbolTable_ a)) a in
        let wasInFunction := inFunction_ a in
        let wasReturnType := currentFunctionReturnType_ a in
        let a := set_function true returnType a in
        let a :=
          fold_left
            (fun a param =>
               let paramSymbol :=
                 Symbol.new (fst param) (snd param) false l in
               set_symbolTable
                 (snd (SymbolTable.insert (fst param) paramSymbol
                         (symbolTable_ a))) a)
            parameters a in
        let a := visitStatement body a in
        let a := set_function wasInFunction wasReturnType a in
        set_symbolTable (SymbolTable.exitScope (symbolTable_ a)) a
  | IfStatement condition thenBranch elseBranch _ =>
      let a := checkCondition "If condition must be boolean" condition a in
      let a := visitStatement thenBranch a in
      match elseBranch with
      | Some s' => visitStatement s' a
      | None => a
      end
  | WhileStatement condition body _ =>
      let a := checkCondition "While condition must be boolean" condition a in
      let wasInLoop := inLoop_ a in
      let a := set_inLoop true a in
      let a := visitStatement body a in
      set_inLoop wasInLoop a
  | ReturnStatement value l => visitReturnStatement value l a
  | ExpressionStatement expression _ => snd (checkExpression expression a)
  end.

Definition visitProgram (program : Program) (a : t) : t :=
  fold_left (fun a s => visitStatement s a) (Program_statements program) a.

Definition analyze (program : Program) (a : t) : bool * t :=
  let a := visitProgram program a in (negb (hasErrors a), a).

End SemanticAnalyzer.

(* ===================================================================== *)
(** ** The IR construction interface used by CodeGen.cpp *)
(* ===================================================================== *)

(** Modelled from the spec: the IR construction interface of section 6.3
    (LLVM's [Module], [Function], [BasicBlock] and [IRBuilder<>]), which the
    lowering is written against and whose code is not in the repository.
    This module is the part of that interface the lowering calls, with the
    behaviour section 6.3 lists and the library documents:
    - a module is a list of functions, a function a list of basic blocks, a
      block a list of instructions; functions and blocks are identified by
      their position, instructions that produce a value by a fresh number;
    - the builder appends at the end of its insertion block; it appends
      whatever it is asked to, also after a terminator; with no insertion
      block the instruction is created and attached nowhere;
    - [getTerminator()] is the last instruction of the block when that one
      is a terminator, and null otherwise;
    - an arithmetic, comparison or negation request whose operands are all
      constants is folded to a constant and emits nothing;
    - dereferencing the null insertion block ([GetInsertBlock()->...]) is a
      crash. *)
Module IR.

Inductive Ty : Type :=
  | VoidTy | Int1Ty | Int32Ty | DoubleTy | Int8PtrTy | PointerTy.

Definition isIntegerTy (ty : Ty) : bool :=
  match ty with Int1Ty | Int32Ty => true | _ => false end.

Inductive BinOpcode : Type :=
  | Add | FAdd | Sub | FSub | Mul | FMul | SDiv | FDiv
  | ICmpEQ | FCmpOEQ | ICmpNE | FCmpONE | ICmpSLT | FCmpOLT
  | ICmpSGT | FCmpOGT.

Inductive UnOpcode : Type := Neg | FNeg | Not.

Definition isCompare (opc : BinOpcode) : bool :=
  match opc with
  | ICmpEQ | FCmpOEQ | ICmpNE | FCmpONE | ICmpSLT | FCmpOLT
  | ICmpSGT | FCmpOGT => true
  | _ => false
  end.

Inductive Value : Type :=
  | ConstantInt (ty : Ty) (v : Z)
  | ConstantFP (text : string)
  | ConstantBin (opc : BinOpcode) (l r : Value) (ty : Ty)
  | ConstantUn (opc : UnOpcode) (v : Value) (ty : Ty)
  | GlobalStringPtr (index : nat)
  | Argument (function : nat) (index : nat) (ty : Ty)
  | Inst (id : nat) (ty : Ty).

Definition typeOf (v : Value) : Ty :=
  match v with
  | ConstantInt ty _ => ty
  | ConstantFP _ => DoubleTy
  | ConstantBin _ _ _ ty => ty
  | ConstantUn _ _ ty => ty
  | GlobalStringPtr _ => Int8PtrTy
  | Argument _ _ ty => ty
  | Inst _ ty => ty
  end.

Definition isConstant (v : Value) : bool :=
  match v with
  | ConstantInt _ _ | ConstantFP _ | ConstantBin _ _ _ _
  | ConstantUn _ _ _ | GlobalStringPtr _ => true
  | Argument _ _ _ | Inst _ _ => false
  end.

Inductive Instr : Type :=
  | Alloca (id : nat) (ty : Ty) (name : string)
  | Load (id : nat) (ty : Ty) (ptr : Value)
  | Store (val ptr : Value)
  | BinOp (id : nat) (opc : BinOpcode) (l r : Value)
  | UnOp (id : nat) (opc : UnOpcode) (v : Value)
  | Call (id : nat) (callee : nat) (args : list Value)
  | Br (target : nat)
  | CondBr (cond : Value) (ifTrue ifFalse : nat)
  | Ret (v : Value)
  | RetVoid.

Definition isTerminator (i : Instr) : bool :=
  match i with
  | Br _ | CondBr _ _ _ | Ret _ | RetVoid => true
  | _ => false
  end.

Record BasicBlock : Type := mkBlock {
  bb_name : string;
  instructions : list Instr
}.

Record Function : Type := mkFunction {
  fn_name : string;
  fn_returnType : Ty;
  fn_paramTypes : list Ty;
  fn_isVarArg : bool;
  blocks : list BasicBlock
}.

Record Module : Type := mkModule {
  mod_name : string;
  functions : list Function;
  globalStrings : list string;
  nextId : nat
}.

(** A block of a function: (function index, block index). *)
Definition BlockRef : Type := nat * nat.

Definition getBlock (m : Module) (b : BlockRef) : option BasicBlock :=
  match functions m !! fst b with
  | Some f => blocks f !! snd b
  | None => None
  end.

Definition getTerminator (bb : BasicBlock) : option Instr :=
  match last (instructions bb) with
  | Some i => if isTerminator i then Some i else None
  | None => None
  end.

(** [Module::getFunction(name)]. *)
Fixpoint find_function (name : string) (fs : list Function) (i : nat)
  : option nat :=
  match fs with
  | [] => None
  | f :: fs' =>
      if String.eqb (fn_name f) name then Some i
      else find_function name fs' (S i)
  end.

Definition getFunction (name : string) (m : Module) : option nat :=
  find_function name (functions m) 0.

Definition map_function (fi : nat) (g : Function -> Function) (m : Module)
  : Module :=
  mkModule (mod_name m) (alter g fi (functions m)) (globalStrings m)
           (nextId m).

Definition map_block (b : BlockRef) (g : list Instr -> list Instr)
    (m : Module) : Module :=
  map_function (fst b)
    (fun f =>
       mkFunction (fn_name f) (fn_returnType f) (fn_paramTypes f)
         (fn_isVarArg f)
         (alter (fun bb => mkBlock (bb_name bb) (g (instructions bb)))
                (snd b) (blocks f)))
    m.

(** [Function::Create(type, ExternalLinkage, name, module)]: the new
    function is the last of the module. *)
Definition createFunction (name : string) (ret : Ty) (params : list Ty)
    (isVarArg : bool) (m : Module) : nat * Module :=
  (length (functions m),
   mkModule (mod_name m)
     (functions m ++ [mkFunction name ret params isVarArg []])%list
     (globalStrings m) (nextId m)).

(** [BasicBlock::Create(context, name, func)]: the new block is the last
    of the function. *)
Definition createBlock (name : string) (fi : nat) (m : Module)
  : BlockRef * Module :=
  let n := match functions m !! fi with
           | Some f => length (blocks f)
           | None => 0
           end in
  ((fi, n),
   map_function fi
     (fun f =>
        mkFunction (fn_name f) (fn_returnType f) (fn_paramTypes f)
          (fn_isVarArg f) (blocks f ++ [mkBlock name []])%list)
     m).

Definition fresh (m : Module) : nat * Module :=
  (nextId m,
   mkModule (mod_name m) (functions m) (globalStrings m) (S (nextId m))).

Definition addGlobalString (text : string) (m : Module) : nat * Module :=
  (length (globalStrings m),
   mkModule (mod_name m) (functions m) (globalStrings m ++ [text])%list
     (nextId m)).

(** A block has exactly one terminator, and it is its last instruction. *)
Definition wellTerminated (bb : BasicBlock) : bool :=
  match reverse (instructions bb) with
  | [] => false
  | i :: before => isTerminator i && forallb (fun j => negb (isTerminator j)) before
  end.

Definition allBlocksWellTerminated (m : Module) : bool :=
  forallb (fun f => forallb wellTerminated (blocks f)) (functions m).

(** The function whose blocks hold the instruction that defines value
    [id], if any. *)
Definition definesId (id : nat) (i : Instr) : bool :=
  match i with
  | Alloca id' _ _ | Load id' _ _ | BinOp id' _ _ _ | UnOp id' _ _
  | Call id' _ _ => id' =? id
  | _ => false
  end.

Definition functionDefines (id : nat) (f : Function) : bool :=
  existsb (fun bb => existsb (definesId id) (instructions bb)) (blocks f).

End IR.

(* ===================================================================== *)
(** ** CodeGen.h / CodeGen.cpp *)
(* ===================================================================== *)

Module LLVMCodeGenerator.

Record t : Type := mk {
  module_ : IR.Module;
  builder_ : option IR.BlockRef;      (* the insertion block, if any *)
  currentValue_ : option IR.Value;
  currentFunction_ : option nat;
  variables_ : gmap string IR.Value;
  functions_ : gmap string nat;
  breakTargets_ : list IR.BlockRef;
  continueTargets_ : list IR.BlockRef;
  hasErrors_ : bool;
  errors_ : list string
}.

(** A visitor either returns, or dereferences a null pointer, or lets a
    standard-library exception escape ([std::stoll], [std::stod]). *)
Inductive result (A : Type) : Type :=
  | Ok (a : A) (g : t)
  | NullDereference
  | StdException (what : string).
Arguments Ok {A} a g.
Arguments NullDereference {A}.
Arguments StdException {A} what.

Definition M (A : Type) : Type := t -> result A.

Definition ret {A} (a : A) : M A := fun g => Ok a g.

Definition bind {A B} (m : M A) (f : A -> M B) : M B :=
  fun g =>
    match m g with
    | Ok a g' => f a g'
    | NullDereference => NullDereference
    | StdException w => StdException w
    end.

Notation "x <- m ;; k" := (bind m (fun x => k))
  (at level 100, m at level 99, k at level 200, right associativity).
Notation "m ;;; k" := (bind m (fun _ => k))
  (at level 100, k at level 200, right associativity).

Definition get {A} (proj : t -> A) : M A := fun g => Ok (proj g) g.
Definition modify (f : t -> t) : M unit := fun g => Ok tt (f g).
Definition nullDereference {A} : M A := fun _ => NullDereference.

Definition set_module (m : IR.Module) (g : t) : t :=
  mk m (builder_ g) (currentValue_ g) (currentFunction_ g) (variables_ g)
     (functions_ g) (breakTargets_ g) (continueTargets_ g) (hasErrors_ g)
     (errors_ g).

Definition SetInsertPoint (b : IR.BlockRef) : M unit :=
  modify (fun g =>
    mk (module_ g) (Some b) (currentValue_ g) (currentFunction_ g)
       (variables_ g) (functions_ g) (breakTargets_ g) (continueTargets_ g)
       (hasErrors_ g) (errors_ g)).

Definition set_currentValue (v : option IR.Value) : M unit :=
  modify (fun g =>
    mk (module_ g) (builder_ g) v (currentFunction_ g) (variables_ g)
       (functions_ g) (breakTargets_ g) (continueTargets_ g) (hasErrors_ g)
       (errors_ g)).

Definition set_currentFunction (f : option nat) : M unit :=
  modify (fun g =>
    mk (module_ g) (builder_ g) (currentValue_ g) f (variables_ g)
       (functions_ g) (breakTargets_ g) (continueTargets_ g) (hasErrors_ g)
       (errors_ g)).

Definition set_targets (brk cont : list IR.BlockRef) : M unit :=
  modify (fun g =>
    mk (module_ g) (builder_ g) (currentValue_ g) (currentFunction_ g)
       (variables_ g) (functions_ g) brk cont (hasErrors_ g) (errors_ g)).

(** [variables_[name] = value]. *)
Definition declareVariable (name : string) (v : IR.Value) : M unit :=
  modify (fun g =>
    mk (module_ g) (builder_ g) (currentValue_ g) (currentFunction_ g)
       (<[name := v]> (variables_ g)) (functions_ g) (breakTargets_ g)
       (continueTargets_ g) (hasErrors_ g) (errors_ g)).

Definition setVariable := declareVariable.

Definition getVariable (name : string) : M (option IR.Value) :=
  get (fun g => variables_ g !! name).

Definition register_function (name : string) (f : nat) : M unit :=
  modify (fun g =>
    mk (module_ g) (builder_ g) (currentValue_ g) (currentFunction_ g)
       (variables_ g) (<[name := f]> (functions_ g)) (breakTargets_ g)
       (continueTargets_ g) (hasErrors_ g) (errors_ g)).

Definition reportError (message : string) (l : SourceLocation) : M unit :=
  modify (fun g =>
    mk (module_ g) (builder_ g) (currentValue_ g) (currentFunction_ g)
       (variables_ g) (functions_ g) (breakTargets_ g) (continueTargets_ g)
       true (errors_ g ++ [format_diagnostic l message])%list).

(** Lifting of the module operations. *)
Definition on_module {A} (f : IR.Module -> A * IR.Module) : M A :=
  fun g => let '(a, m) := f (module_ g) in Ok a (set_module m g).

(** [builder_.GetInsertBlock()->...]: null when no insertion point is set. *)
Definition insertBlock : M IR.BlockRef :=
  fun g =>
    match builder_ g with
    | Some b => Ok b g
    | None => NullDereference
    end.

(** [builder_.GetInsertBlock()->getTerminator()]. *)
Definition currentTerminator : M (option IR.Instr) :=
  b <- insertBlock ;;
  m <- get module_ ;;
  match IR.getBlock m b with
  | Some bb => ret (IR.getTerminator bb)
  | None => nullDereference
  end.

(** Insertion of a created instruction at the builder's point. *)
Definition emit (i : IR.Instr) : M unit :=
  modify (fun g =>
    match builder_ g with
    | Some b => set_module (IR.map_block b (fun instrs => instrs ++ [i])%list
                                         (module_ g)) g
    | None => g
    end).

Definition getLLVMType (ty : DataType) : IR.Ty :=
  match ty with
  | VOID => IR.VoidTy
  | INT => IR.Int32Ty
  | FLOAT_T => IR.DoubleTy
  | BOOL => IR.Int1Ty
  | STRING_T => IR.Int8PtrTy
  | ARRAY => IR.Int8PtrTy
  | FUNCTION_T => IR.Int8PtrTy
  | UNKNOWN => IR.Int32Ty
  end.

(** [createAlloca]: a temporary builder placed at the beginning of the
    entry block of the function that holds the insertion block. *)
Definition createAlloca (ty : IR.Ty) (name : string) : M IR.Value :=
  b <- insertBlock ;;
  id <- on_module IR.fresh ;;
  on_module (fun m =>
    (tt, IR.map_block (fst b, 0) (fun instrs => IR.Alloca id ty name :: instrs) m)) ;;;
  ret (IR.Inst id IR.PointerTy).

Definition CreateLoad (ty : IR.Ty) (ptr : IR.Value) : M IR.Value :=
  id <- on_module IR.fresh ;;
  emit (IR.Load id ty ptr) ;;;
  ret (IR.Inst id ty).

Definition CreateStore (val ptr : IR.Value) : M unit :=
  emit (IR.Store val ptr).

Definition CreateBinOp (opc : IR.BinOpcode) (l r : IR.Value) : M IR.Value :=
  let ty := if IR.isCompare opc then IR.Int1Ty else IR.typeOf l in
  if IR.isConstant l && IR.isConstant r
  then ret (IR.ConstantBin opc l r ty)
  else
    id <- on_module IR.fresh ;;
    emit (IR.BinOp id opc l r) ;;;
    ret (IR.Inst id ty).

Definition CreateUnOp (opc : IR.UnOpcode) (v : IR.Value) : M IR.Value :=
  if IR.isConstant v
  then ret (IR.ConstantUn opc v (IR.typeOf v))
  else
    id <- on_module IR.fresh ;;
    emit (IR.UnOp id opc v) ;;;
    ret (IR.Inst id (IR.typeOf v)).

Definition CreateCall (callee : nat) (args : list IR.Value) : M IR.Value :=
  m <- get module_ ;;
  let ty := match IR.functions m !! callee with
            | Some f => IR.fn_returnType f
            | None => IR.VoidTy
            end in
  id <- on_module IR.fresh ;;
  emit (IR.Call id callee args) ;;;
  ret (IR.Inst id ty).

(** [CreateGlobalStringPtr] finds the module through the insertion
    block. *)
Definition CreateGlobalStringPtr (text : string) : M IR.Value :=
  insertBlock ;;;
  i <- on_module (IR.addGlobalString text) ;;
  ret (IR.GlobalStringPtr i).

(** [createBuiltinFunctions]: the declaration of variadic [printf]. *)
Definition createBuiltinFunctions (m : IR.Module) : IR.Module :=
  snd (IR.createFunction "printf" IR.Int32Ty [IR.Int8PtrTy] true m).

(** [LLVMCodeGenerator::LLVMCodeGenerator]. *)
Definition new : t :=
  mk (createBuiltinFunctions (IR.mkModule "scarlet_module" [] [] 0))
     None None None ∅ ∅ [] [] false [].

(** [std::stoll] on a lexeme of the lexer's INTEGER tokens (decimal
    digits): the value of the leading digits; [None] stands for the
    exception it throws when there is no leading digit or the value does
    not fit 64 signed bits. *)
Fixpoint digits_value (s : string) (acc : Z) : Z :=
  match s with
  | String c rest =>
      if isDigit c
      then digits_value rest (10 * acc + Z.of_nat (nat_of_ascii c - 48))%Z
      else acc
  | EmptyString => acc
  end.

Definition stoll (s : string) : option Z :=
  match s with
  | String c _ =>
      if isDigit c then
        let v := digits_value s 0 in
        if (v <? 2 ^ 63)%Z then Some v else None
      else None
  | EmptyString => None
  end.

(** The decimal digits at the head of [s] continue the numeral [acc]: the
    numeral read, the number of digits read and the rest of [s]. *)
Fixpoint read_digits (s : string) (acc : Z) (n : nat) : Z * nat * string :=
  match s with
  | String c rest =>
      if isDigit c
      then read_digits rest (10 * acc + Z.of_nat (nat_of_ascii c - 48))%Z
             (S n)
      else (acc, n, s)
  | EmptyString => (acc, n, s)
  end.

(** The range error of [strtod] on the value [numeral / 10 ^ digits], to a
    double rounded to nearest.  Overflow: the value rounds to infinity,
    which it does from [2^1024 - 2^970] on.  Underflow, which the C
    standard leaves to the implementation and glibc reports: the value is
    not zero, it is still below the least normal double [2^-1022] once
    rounded to 53 bits (it is below [2^-1022 - 2^-1076]), and it is no
    multiple of the least subnormal double [2^-1074]. *)
Definition strtod_range_error (numeral : Z) (digits : nat) : bool :=
  let scale := (10 ^ Z.of_nat digits)%Z in
  ((2 ^ 1024 - 2 ^ 970) * scale <=? numeral)%Z
  || (negb (numeral =? 0)%Z
      && (numeral * 2 ^ 1076 <? (2 ^ 54 - 1) * scale)%Z
      && negb ((numeral * 2 ^ 1074) mod scale =? 0)%Z).

(** [std::stod] on a lexeme of the lexer's FLOAT tokens (decimal digits, a
    point, decimal digits): the value, as a numeral and the number of its
    digits after the point; [None] stands for the exception it throws,
    [std::invalid_argument] when there is no leading digit and
    [std::out_of_range] when [strtod] reports a range error. *)
Definition stod (s : string) : option (Z * nat) :=
  match s with
  | String c _ =>
      if isDigit c then
        let '(whole, _, rest) := read_digits s 0 0 in
        let '(numeral, digits) :=
          match rest with
          | String "."%char fraction =>
              let '(numeral, digits, _) := read_digits fraction whole 0 in
              (numeral, digits)
          | _ => (whole, 0)
          end in
        if strtod_range_error numeral digits then None
        else Some (numeral, digits)
      else None
  | EmptyString => None
  end.

(** [ConstantInt::get(type, v)]: the value is cut to the width of the
    type. *)
Definition ConstantInt_get (ty : IR.Ty) (v : Z) : IR.Value :=
  match ty with
  | IR.Int1Ty => IR.ConstantInt ty (v mod 2)
  | _ => IR.ConstantInt ty (v mod 2 ^ 32)
  end.

Definition generateBinaryOperation (l : IR.Value) (op : OperatorType)
    (r : IR.Value) : M (option IR.Value) :=
  let ints := IR.isIntegerTy (IR.typeOf l) && IR.isIntegerTy (IR.typeOf r) in
  let pick (i f : IR.BinOpcode) : M (option IR.Value) :=
    v <- CreateBinOp (if ints then i else f) l r ;; ret (Some v) in
  match op with
  | OP_ADD => pick IR.Add IR.FAdd
  | OP_SUBTRACT => pick IR.Sub IR.FSub
  | OP_MULTIPLY => pick IR.Mul IR.FMul
  | OP_DIVIDE => pick IR.SDiv IR.FDiv
  | OP_EQUAL => pick IR.ICmpEQ IR.FCmpOEQ
  | OP_NOT_EQUAL => pick IR.ICmpNE IR.FCmpONE
  | OP_LESS => pick IR.ICmpSLT IR.FCmpOLT
  | OP_GREATER => pick IR.ICmpSGT IR.FCmpOGT
  | _ =>
      reportError "Unsupported binary operation" SourceLocation_default ;;;
      ret None
  end.

Definition generateUnaryOperation (op : OperatorType) (operand : IR.Value)
  : M (option IR.Value) :=
  match op with
  | OP_SUBTRACT =>
      v <- CreateUnOp (if IR.isIntegerTy (IR.typeOf operand)
                       then IR.Neg else IR.FNeg) operand ;;
      ret (Some v)
  | OP_NOT => v <- CreateUnOp IR.Not operand ;; ret (Some v)
  | _ =>
      reportError "Unsupported unary operation" SourceLocation_default ;;;
      ret None
  end.

Definition visitLiteralExpression (value : string) (ty : DataType)
    (l : SourceLocation) : M unit :=
  match ty with
  | INT =>
      match stoll value with
      | Some v => set_currentValue (Some (ConstantInt_get (getLLVMType ty) v))
      | None => fun _ => StdException "stoll"
      end
  | FLOAT_T =>
      match stod value with
      | Some _ => set_currentValue (Some (IR.ConstantFP value))
      | None => fun _ => StdException "stod"
      end
  | BOOL =>
      set_currentValue
        (Some (ConstantInt_get (getLLVMType ty)
                 (if String.eqb value "true" then 1 else 0)))
  | STRING_T =>
      v <- CreateGlobalStringPtr value ;; set_currentValue (Some v)
  | _ => reportError "Unsupported literal type" l
  end.

(** The expression visitors; [generateExpression(e)] is
    [e->accept( *this); return currentValue_;], so a visitor that returns
    early leaves the value of the previous expression in place. *)
Fixpoint visitExpression (e : Expression) : M unit :=
  let generateExpression (e' : Expression) (visit : M unit)
    : M (option IR.Value) := visit ;;; get currentValue_ in
  match e with
  | LiteralExpression value ty l => visitLiteralExpression value ty l
  | VariableExpression name l =>
      var <- getVariable name ;;
      match var with
      | None => reportError ("Undefined variable: " ++ name) l
      | Some var =>
          v <- CreateLoad (getLLVMType UNKNOWN) var ;;
          set_currentValue (Some v)
      end
  | BinaryExpression left_ op right_ l =>
      lv <- generateExpression left_ (visitExpression left_) ;;
      rv <- generateExpression right_ (visitExpression right_) ;;
      match lv, rv with
      | Some lv, Some rv =>
          v <- generateBinaryOperation lv op rv ;; set_currentValue v
      | _, _ =>
          reportError "Failed to generate operands for binary expression" l
      end
  | UnaryExpression op operand l =>
      ov <- generateExpression operand (visitExpression operand) ;;
      match ov with
      | Some ov => v <- generateUnaryOperation op ov ;; set_currentValue v
      | None =>
          reportError "Failed to generate operand for unary expression" l
      end
  | AssignmentExpression name value l =>
      v <- generateExpression value (visitExpression value) ;;
      match v with
      | None => reportError "Failed to generate value for assignment" l
      | Some v =>
          var <- getVariable name ;;
          match var with
          | None => reportError ("Undefined variable: " ++ name) l
          | Some var => CreateStore v var ;;; set_currentValue (Some v)
          end
      end
  | FunctionCallExpression name arguments l =>
      m <- get module_ ;;
      match IR.getFunction name m with
      | None => reportError ("Undefined function: " ++ name) l
      | Some func =>
          args <-
            (fix arguments_loop (es : list Expression) (args : list IR.Value)
               : M (option (list IR.Value)) :=
               match es with
               | [] => ret (Some args)
               | arg :: es' =>
                   argValue <- generateExpression arg (visitExpression arg) ;;
                   match argValue with
                   | None =>
                       reportError "Failed to generate function argument" l ;;;
                       ret None
                   | Some av => arguments_loop es' (args ++ [av])%list
                   end
               end) arguments [] ;;
          match args with
          | None => ret tt
          | Some args =>
              v <- CreateCall func args ;; set_currentValue (Some v)
          end
      end
  end.

Definition generateExpression (e : Expression) : M (option IR.Value) :=
  visitExpression e ;;; get currentValue_.

Definition visitVariableDeclaration (name : string) (ty : DataType)
    (initializer : option Expression) : M unit :=
  let varType := getLLVMType ty in
  var <- createAlloca varType name ;;
  declareVariable name var ;;;
  match initializer with
  | Some e =>
      initValue <- generateExpression e ;;
      match initValue with
      | Some v => CreateStore v var
      | None => ret tt
      end
  | None => ret tt
  end.

Definition visitReturnStatement (value : option Expression) : M unit :=
  match value with
  | Some e =>
      returnValue <- generateExpression e ;;
      match returnValue with
      | Some v => emit (IR.Ret v)
      | None => ret tt
      end
  | None => emit IR.RetVoid
  end.

(** [visitFunctionDeclaration] up to the point where the body is
    visited: the function and its entry block are created, and every
    parameter gets a slot, a store of the formal argument and an entry
    of [variables_]. *)
Fixpoint parameters_loop (func : nat) (i : nat)
    (parameters : list (string * DataType)) : M unit :=
  match parameters with
  | [] => ret tt
  | param :: rest =>
      let ty := getLLVMType (snd param) in
      paramVar <- createAlloca ty (fst param) ;;
      CreateStore (IR.Argument func i ty) paramVar ;;;
      declareVariable (fst param) paramVar ;;;
      parameters_loop func (S i) rest
  end.

Definition beginFunction (name : string) (returnType : DataType)
    (parameters : list (string * DataType)) : M nat :=
  let paramTypes := map (fun param => getLLVMType (snd param)) parameters in
  func <- on_module (IR.createFunction name (getLLVMType returnType)
                       paramTypes false) ;;
  register_function name func ;;;
  entry <- on_module (IR.createBlock "entry" func) ;;
  SetInsertPoint entry ;;;
  parameters_loop func 0 parameters ;;;
  set_currentFunction (Some func) ;;;
  ret func.

(** ... and after it: the implicit [ret void].  [llvm::verifyFunction]
    only prints; its verdict is not used. *)
Definition endFunction (returnType : DataType) : M unit :=
  set_currentFunction None ;;;
  if bool_decide (returnType = VOID) then
    term <- currentTerminator ;;
    match term with
    | None => emit IR.RetVoid
    | Some _ => ret tt
    end
  else ret tt.

(** The statement visitors. *)
Fixpoint visitStatement (s : Statement) : M unit :=
  match s with
  | BlockStatement statements _ =>
      (fix generateBlock (ss : list Statement) : M unit :=
         match ss with
         | [] => ret tt
         | s' :: ss' => visitStatement s' ;;; generateBlock ss'
         end) statements
  | VariableDeclaration name ty initializer _ =>
      visitVariableDeclaration name ty initializer
  | FunctionDeclaration name returnType parameters body _ =>
      beginFunction name returnType parameters ;;;
      visitStatement body ;;;
      endFunction returnType
  | IfStatement condition thenBranch elseBranch l =>
      cond <- generateExpression condition ;;
      match cond with
      | None => reportError "Failed to generate if condition" l
      | Some cond =>
          b <- insertBlock ;;
          let func := fst b in
          thenBB <- on_module (IR.createBlock "then" func) ;;
          elseBB <- on_module (IR.createBlock "else" func) ;;
          mergeBB <- on_module (IR.createBlock "ifcont" func) ;;
          emit (IR.CondBr cond (snd thenBB) (snd elseBB)) ;;;
          SetInsertPoint thenBB ;;;
          visitStatement thenBranch ;;;
          term <- currentTerminator ;;
          (match term with
           | None => emit (IR.Br (snd mergeBB))
           | Some _ => ret tt
           end) ;;;
          SetInsertPoint elseBB ;;;
          (match elseBranch with
           | Some s' => visitStatement s'
           | None => ret tt
           end) ;;;
          term <- currentTerminator ;;
          (match term with
           | None => emit (IR.Br (snd mergeBB))
           | Some _ => ret tt
           end) ;;;
          SetInsertPoint mergeBB
      end
  | WhileStatement condition body l =>
      b <- insertBlock ;;
      let func := fst b in
      loopBB <- on_module (IR.createBlock "loop" func) ;;
      bodyBB <- on_module (IR.createBlock "while_body" func) ;;
      afterBB <- on_module (IR.createBlock "while_cont" func) ;;
      brk <- get breakTargets_ ;;
      cont <- get continueTargets_ ;;
      set_targets (brk ++ [afterBB])%list (cont ++ [loopBB])%list ;;;
      emit (IR.Br (snd loopBB)) ;;;
      SetInsertPoint loopBB ;;;
      cond <- generateExpression condition ;;
      match cond with
      | None => reportError "Failed to generate while condition" l
      | Some cond =>
          emit (IR.CondBr cond (snd bodyBB) (snd afterBB)) ;;;
          SetInsertPoint bodyBB ;;;
          visitStatement body ;;;
          term <- currentTerminator ;;
          (match term with
           | None => emit (IR.Br (snd loopBB))
           | Some _ => ret tt
           end) ;;;
          SetInsertPoint afterBB ;;;
          brk <- get breakTargets_ ;;
          cont <- get continueTargets_ ;;
          set_targets (removelast brk) (removelast cont)
      end
  | ReturnStatement value _ => visitReturnStatement value
  | ExpressionStatement expression _ =>
      generateExpression expression ;;; ret tt
  end.

Fixpoint visitStatements (ss : list Statement) : M unit :=
  match ss with
  | [] => ret tt
  | s :: ss' => visitStatement s ;;; visitStatements ss'
  end.

Definition visitProgram (program : Program) : M unit :=
  visitStatements (Program_statements program).

(** [generate]: [program->accept( *this); return !hasErrors_;]. *)
Definition generate (program : Program) : M bool :=
  visitProgram program ;;; hasErrors <- get hasErrors_ ;; ret (negb hasErrors).

End LLVMCodeGenerator.

(* ===================================================================== *)
(** ** main.cpp: compileFile *)
(* ===================================================================== *)

(** How [compileFile] ends, for the source text it has read: which
    [return false] (or [catch]) it takes, or that it reaches
    [codegen.writeToFile] with the generated module.  The [-E] option
    ([preprocessOnly]) returns after parsing. *)
Inductive CompileOutcome : Type :=
  | LexicalError (message : string)
  | CompilationError (what : string)
  | UnexpectedError (what : string)
  | PreprocessedOnly
  | SemanticAnalysisFailed (errors : list string)
  | CodeGenerationFailed
  | Crashed
  | BudgetExceeded
  | Generated (g : LLVMCodeGenerator.t).

Definition isErrorToken (tok : Token) : bool := bool_decide (type tok = ERROR).

Definition compileFile (preprocessOnly : bool) (source : string)
  : CompileOutcome :=
  let tokens := tokenize source in
  match List.find isErrorToken tokens with
  | Some tok => LexicalError (value tok)
  | None =>
      match parse tokens with
      | Parser.Throw e _ => CompilationError (what e)
      | Parser.Undefined => Crashed
      | Parser.OutOfFuel => BudgetExceeded
      | Parser.Ok ast _ =>
          if preprocessOnly then PreprocessedOnly
          else
            let '(ok, analyzer) :=
              SemanticAnalyzer.analyze ast SemanticAnalyzer.new in
            if negb ok
            then SemanticAnalysisFailed (SemanticAnalyzer.getErrors analyzer)
            else
              match LLVMCodeGenerator.generate ast LLVMCodeGenerator.new with
              | LLVMCodeGenerator.NullDereference => Crashed
              | LLVMCodeGenerator.StdException w => UnexpectedError w
              | LLVMCodeGenerator.Ok ok g =>
                  if negb ok then CodeGenerationFailed else Generated g
              end
      end
  end.

(* ===================================================================== *)
(** ** Specification-side vocabulary *)
(* ===================================================================== *)

(** [p] holds of every character of [s]. *)
Fixpoint all_chars (p : ascii -> bool) (s : string) : bool :=
  match s with
  | EmptyString => true
  | String c rest => p c && all_chars p rest
  end.

(** [s] is empty or starts with a character on which [p] fails: a scanning
    loop that continues on [p] stops in front of [s]. *)
Definition stops (p : ascii -> bool) (s : string) : Prop :=
  match s with
  | EmptyString => True
  | String c _ => p c = false
  end.

(** The location after the characters of [s] have been read from [l]. *)
Fixpoint advance_string (l : SourceLocation) (s : string) : SourceLocation :=
  match s with
  | EmptyString => l
  | String c rest => advance_string (SourceLocation_advance l c) rest
  end.

(** The longest prefix of digits of [s], and what follows it. *)
Fixpoint digit_run (s : string) : string * string :=
  match s with
  | EmptyString => ("", "")
  | String c rest =>
      if isDigit c
      then let '(ds, rest') := digit_run rest in (String c ds, rest')
      else ("", s)
  end.

(** What [readNumber] makes of the text [s] at the cursor: the leading
    digit run; when a [.] follows it, that [.] and the digit run after it
    (empty or not) belong to the token, which is then a FLOAT. *)
Definition number_lexeme (s : string) : TokenType * string :=
  let '(ds1, rest1) := digit_run s in
  match rest1 with
  | String "."%char rest1' =>
      let '(ds2, _) := digit_run rest1' in (FLOAT, ds1 ++ "." ++ ds2)
  | _ => (INTEGER, ds1)
  end.

(** A literal integer of the source language: a non-empty run of digits. *)
Definition integer_literal (s : string) : bool :=
  match s with
  | EmptyString => false
  | String _ _ => all_chars isDigit s
  end.

(** An escaped text: every backslash starts one of the five sequences. *)
Definition escape_code (c : ascii) : bool :=
  Ascii.eqb c backslash || Ascii.eqb c dquote || Ascii.eqb c "n"
  || Ascii.eqb c "t" || Ascii.eqb c "r".

Fixpoint well_escaped (s : string) : bool :=
  match s with
  | EmptyString => true
  | String c rest =>
      if Ascii.eqb c backslash then
        match rest with
        | EmptyString => false
        | String d rest' => escape_code d && well_escaped rest'
        end
      else well_escaped rest
  end.

(** Sequences of scope operations, and the balanced ones: no [exitScope]
    without an [enterScope] of the sequence before it, and as many of one
    as of the other. *)
Inductive ScopeOp : Type := EnterScope | ExitScope.

Definition run_op (op : ScopeOp) (st : SymbolTable.t) : SymbolTable.t :=
  match op with
  | EnterScope => SymbolTable.enterScope st
  | ExitScope => SymbolTable.exitScope st
  end.

Definition run_ops (ops : list ScopeOp) (st : SymbolTable.t) : SymbolTable.t :=
  fold_left (fun st op => run_op op st) ops st.

Fixpoint balanced_from (depth : nat) (ops : list ScopeOp) : bool :=
  match ops with
  | [] => depth =? 0
  | EnterScope :: ops' => balanced_from (S depth) ops'
  | ExitScope :: ops' =>
      match depth with
      | O => false
      | S depth' => balanced_from depth' ops'
      end
  end.

Definition balanced (ops : list ScopeOp) : bool := balanced_from 0 ops.

(** The scanner [lx'] works on the same text as [lx] and its cursor is not
    behind that of [lx]. *)
Definition advanced (lx lx' : Lexer.t) : Prop :=
  Lexer.source_ lx' = Lexer.source_ lx
  /\ Lexer.current_ lx <= Lexer.current_ lx'.

(** The kind and lexeme of each token, without the locations. *)
Definition kinds (ts : list Token) : list (TokenType * string) :=
  map (fun t => (type t, value t)) ts.

(** What the loop of [readNumber] consumes of the text [s] at the cursor,
    and the flag it ends with. *)
Definition number_tail (s : string) : bool * string :=
  let '(ds1, rest1) := digit_run s in
  match rest1 with
  | String "."%char rest1' =>
      let '(ds2, _) := digit_run rest1' in (true, ds1 ++ "." ++ ds2)
  | _ => (false, ds1)
  end.

Definition continues_number (c : ascii) : bool :=
  isDigit c || Ascii.eqb c ".".

(** The text [a op1 b op2 c;] with single blanks around the operators. *)
Definition three_operands (a : string) (op1 : ascii) (b : string)
    (op2 : ascii) (c : string) : string :=
  a ++ String " " (String op1 (String " "
    (b ++ String " " (String op2 (String " " (c ++ ";")))))).

(** The operators of one level that the scanner has a token for, by their
    character: those of the loop of [parseTerm] and those of the loop of
    [parseFactor] ([/] is not among them: its token is DIVIDE, and the loop
    tests for SLASH). *)
Definition term_operator (c : ascii) : option OperatorType :=
  if Ascii.eqb c "+" then Some OP_ADD
  else if Ascii.eqb c "-" then Some OP_SUBTRACT
  else None.

Definition factor_operator (c : ascii) : option OperatorType :=
  if Ascii.eqb c "*" then Some OP_MULTIPLY
  else if Ascii.eqb c "%" then Some OP_MODULO
  else None.

(** Two operators of the same level. *)
Definition same_level (op1 op2 : ascii) (o1 o2 : OperatorType) : Prop :=
  (term_operator op1 = Some o1 /\ term_operator op2 = Some o2)
  \/ (factor_operator op1 = Some o1 /\ factor_operator op2 = Some o2).

(** Character classes exclude one another where the scanner relies on it. *)
Ltac ascii_cases c :=
  destruct c as [[] [] [] [] [] [] [] []]; vm_compute in *; congruence.

(** A token that [parsePrimary] turns into a literal or a variable. *)
Definition operand_token (tok : Token) : bool :=
  match type tok with
  | INTEGER | FLOAT | STRING | IDENTIFIER | TRUE | FALSE | NULL_LITERAL => true
  | _ => false
  end.

(** The token stream the parser is written for: the scanner's, with each
    ERROR token for [:] replaced by a COLON token. *)
Definition with_colon (tokens : list Token) : list Token :=
  map (fun tok =>
         if isErrorToken tok && String.eqb (value tok) "Unexpected character: :"
         then mkToken COLON ":" (location tok)
         else tok) tokens.

Definition analysis_of_tokens (tokens : list Token)
  : option (bool * SemanticAnalyzer.t) :=
  match parse tokens with
  | Parser.Ok ast _ => Some (SemanticAnalyzer.analyze ast SemanticAnalyzer.new)
  | _ => None
  end.

(** The module [compileFile] hands to [writeToFile], when it gets there. *)
Definition generated_module (source : string) : option IR.Module :=
  match compileFile false source with
  | Generated g => Some (LLVMCodeGenerator.module_ g)
  | _ => None
  end.

(** The blocks of the function at position [i] of that module (position 0
    is the declaration of [printf]). *)
Definition generated_blocks (source : string) (i : nat)
  : option (list IR.BasicBlock) :=
  match generated_module source with
  | Some m => IR.blocks <$> IR.functions m !! i
  | None => None
  end.

(** A table none of whose scopes binds anything. *)
Definition all_empty (st : SymbolTable.t) : Prop :=
  Forall (fun scope : gmap string Symbol.t => scope = ∅)
         (SymbolTable.scopes_ st).

(** Induction on expressions that reaches the arguments of a call. *)
Section ExpressionInduction.

Variable P : Expression -> Prop.
Hypothesis HLiteral : forall v ty l, P (LiteralExpression v ty l).
Hypothesis HVariable : forall n l, P (VariableExpression n l).
Hypothesis HBinary :
  forall e1 op e2 l, P e1 -> P e2 -> P (BinaryExpression e1 op e2 l).
Hypothesis HUnary : forall op e l, P e -> P (UnaryExpression op e l).
Hypothesis HAssignment :
  forall n e l, P e -> P (AssignmentExpression n e l).
Hypothesis HCall :
  forall n args l, Forall P args -> P (FunctionCallExpression n args l).

Fixpoint Expression_nested_ind (e : Expression) : P e :=
  match e with
  | LiteralExpression v ty l => HLiteral v ty l
  | VariableExpression n l => HVariable n l
  | BinaryExpression e1 op e2 l =>
      HBinary e1 op e2 l (Expression_nested_ind e1)
              (Expression_nested_ind e2)
  | UnaryExpression op e' l => HUnary op e' l (Expression_nested_ind e')
  | AssignmentExpression n e' l =>
      HAssignment n e' l (Expression_nested_ind e')
  | FunctionCallExpression n args l =>
      HCall n args l
        ((fix all (es : list Expression) : Forall P es :=
            match es with
            | [] => List.Forall_nil P
            | e' :: es' =>
                @List.Forall_cons _ P e' es' (Expression_nested_ind e')
                                  (all es')
            end) args)
  end.

End ExpressionInduction.

(** [a'] differs from [a] at most in the expression type and in
    diagnostics added at the end. *)
Definition extends (a a' : SemanticAnalyzer.t) : Prop :=
  SemanticAnalyzer.symbolTable_ a' = SemanticAnalyzer.symbolTable_ a
  /\ SemanticAnalyzer.inLoop_ a' = SemanticAnalyzer.inLoop_ a
  /\ SemanticAnalyzer.inFunction_ a' = SemanticAnalyzer.inFunction_ a
  /\ SemanticAnalyzer.currentFunctionReturnType_ a'
     = SemanticAnalyzer.currentFunctionReturnType_ a
  /\ exists extra,
       SemanticAnalyzer.getErrors a' = (SemanticAnalyzer.getErrors a ++ extra)%list.

(** The analyzer after the value of a [return] has been checked, and the
    type of that value (VOID for a bare [return]). *)
Definition checked_value (value : option Expression) (a : SemanticAnalyzer.t)
  : SemanticAnalyzer.t :=
  match value with
  | Some e => SemanticAnalyzer.visitExpression e a
  | None => a
  end.

Definition value_type (value : option Expression) (a : SemanticAnalyzer.t)
  : DataType :=
  match value with
  | Some e =>
      SemanticAnalyzer.currentExpressionType_
        (SemanticAnalyzer.visitExpression e a)
  | None => VOID
  end.

(** The claim of C7 for one return statement [return value;] at [l],
    analyzed in state [a]: a diagnostic is reported exactly when the
    statement is outside any function or its value type is incompatible
    with the declared return type. *)
Definition return_error_iff (value : option Expression) (l : SourceLocation)
    (a : SemanticAnalyzer.t) : Prop :=
  SemanticAnalyzer.getErrors (SemanticAnalyzer.visitReturnStatement value l a)
  <> SemanticAnalyzer.getErrors a
  <-> (SemanticAnalyzer.inFunction_ a = false
       \/ TypeChecker.isCompatible (value_type value a)
            (SemanticAnalyzer.currentFunctionReturnType_ a) = false).

(** The analyzer inside the body of a function declared to return INT. *)
Definition inside_int_function : SemanticAnalyzer.t :=
  SemanticAnalyzer.set_function true INT SemanticAnalyzer.new.

(** The slot [v] was allocated in function [func] of module [m]. *)
Definition slot_of_function (m : IR.Module) (func : nat) (v : IR.Value)
  : bool :=
  match v, IR.functions m !! func with
  | IR.Inst id _, Some f => IR.functionDefines id f
  | _, _ => false
  end.

(** The state a computation of the lowering ends in. *)
Definition state_of {A} (r : LLVMCodeGenerator.result A)
  : LLVMCodeGenerator.t :=
  match r with
  | LLVMCodeGenerator.Ok _ g => g
  | _ => LLVMCodeGenerator.new
  end.

(** The program [function f() { x; return; }], as the parser builds it:
    the body of [f] reads a variable that is not declared. *)
Definition undefined_x_in_f : Program :=
  mkProgram
    [FunctionDeclaration "f" VOID []
       (BlockStatement
          [ExpressionStatement (VariableExpression "x" (mkLoc 1 17 16))
             (mkLoc 1 18 17);
           ReturnStatement None (mkLoc 1 25 24)]
          (mkLoc 1 28 27))
       (mkLoc 1 11 10)].

(** The lowering of [function f() { var a = 1; ...] at the point where
    the next statement of the body of [f] is about to be lowered. *)
Definition inside_f : LLVMCodeGenerator.t :=
  state_of
    (LLVMCodeGenerator.bind
       (LLVMCodeGenerator.beginFunction "f" VOID [])
       (fun _ =>
          LLVMCodeGenerator.visitVariableDeclaration "a" UNKNOWN
            (Some (LiteralExpression "1" INT (mkLoc 1 25 24))))
       LLVMCodeGenerator.new).

(** *** The scanner at work *)

(** The token kinds that can stand inside a scanned stream: every kind but
    the end marker and the two kinds only the parser names. *)
Definition scanner_kind (ty : TokenType) : bool :=
  match ty with
  | END_OF_FILE | SLASH | COLON => false
  | _ => true
  end.

(** The dispatch at the end of [nextToken], on the character [c] just
    consumed. *)
Definition read_token (c : ascii) (lx : Lexer.t) : Token * Lexer.t :=
  if isAlpha c then Lexer.readIdentifier lx
  else if isDigit c then Lexer.readNumber lx
  else if Ascii.eqb c dquote then Lexer.readString lx
  else Lexer.readOperator lx.

(** The characters of the source a token stands for: its lexeme, for a
    string literal with the two quotes around it; nothing for an ERROR
    token, whose value is a message. *)
Definition source_text (tok : Token) : string :=
  match type tok with
  | STRING => String dquote (value tok ++ String dquote "")
  | ERROR => ""
  | _ => value tok
  end.

(** The scanner [lx] on the source [src]: [before] is the text in front of
    [start_], [text] the text from [start_] to the cursor, [after] the
    rest, and [location_] is the position after [before ++ text]. *)
Definition scanning (src : string) (lx : Lexer.t)
    (before text after : string) : Prop :=
  Lexer.source_ lx = src
  /\ src = before ++ text ++ after
  /\ Lexer.start_ lx = String.length before
  /\ Lexer.current_ lx = String.length before + String.length text
  /\ Lexer.location_ lx = advance_string (mkLoc 1 1 0) (before ++ text).

(** The scanner has read on from a state of [scanning src _ before text
    after]: some more of [after] has joined [text]. *)
Definition scanned_on (src : string) (before text after : string)
    (lx' : Lexer.t) : Prop :=
  exists more after',
    after = more ++ after' /\ scanning src lx' before (text ++ more) after'.

(** Where a token of the stream of [src] stands: its text occurs in [src]
    and its location is the position just after that text. *)
Definition token_position (src : string) (tok : Token) : Prop :=
  exists before after,
    src = before ++ source_text tok ++ after
    /\ location tok
       = advance_string (mkLoc 1 1 0) (before ++ source_text tok).

(** A character that may stand inside a string literal: any but the quote
    and the line end. *)
Definition string_char (c : ascii) : bool :=
  negb (Ascii.eqb c dquote) && negb (Ascii.eqb c newline).

(** A character that may stand inside a line comment. *)
Definition comment_char (c : ascii) : bool := negb (Ascii.eqb c newline).

(** The kind of a word: that of the keyword it is, IDENTIFIER otherwise. *)
Definition word_kind (word : string) : TokenType :=
  default IDENTIFIER (Lexer.keywords_ !! word).

(** The text [rest] after the character [c] does not turn [c] into the
    start of a two-character operator or of a comment. *)
Definition stands_alone (c : ascii) (rest : string) : Prop :=
  match rest with
  | EmptyString => True
  | String d _ =>
      Lexer.twoCharOperator (String c (String d "")) = None
      /\ (Ascii.eqb c "/" && Ascii.eqb d "/") = false
  end.

(** *** Escaped text *)

(** A character that does not break the line or the column grid. *)
Definition plain_char (c : ascii) : bool :=
  negb (Ascii.eqb c newline) && negb (Ascii.eqb c tab)
  && negb (Ascii.eqb c carriage_return).

(** No quote of [s] stands outside an escape sequence. *)
Fixpoint no_bare_quote (s : string) : bool :=
  match s with
  | EmptyString => true
  | String c rest =>
      if Ascii.eqb c backslash then
        match rest with
        | EmptyString => true
        | String _ rest' => no_bare_quote rest'
        end
      else negb (Ascii.eqb c dquote) && no_bare_quote rest
  end.

(** *** Statements and scopes *)

(** Induction on statements that reaches the statements of a block and
    the [else] branch. *)
Section StatementInduction.

Variable P : Statement -> Prop.
Hypothesis HBlock : forall ss l, Forall P ss -> P (BlockStatement ss l).
Hypothesis HVariableDeclaration :
  forall n ty init l, P (VariableDeclaration n ty init l).
Hypothesis HFunctionDeclaration :
  forall n ret params body l,
    P body -> P (FunctionDeclaration n ret params body l).
Hypothesis HIf :
  forall c s1 s2 l,
    P s1 -> match s2 with Some s => P s | None => True end ->
    P (IfStatement c s1 s2 l).
Hypothesis HWhile : forall c body l, P body -> P (WhileStatement c body l).
Hypothesis HReturn : forall v l, P (ReturnStatement v l).
Hypothesis HExpressionStatement : forall e l, P (ExpressionStatement e l).

Fixpoint Statement_nested_ind (s : Statement) : P s :=
  match s with
  | BlockStatement ss l =>
      HBlock ss l
        ((fix all (ss : list Statement) : Forall P ss :=
            match ss with
            | [] => List.Forall_nil P
            | s' :: ss' =>
                @List.Forall_cons _ P s' ss' (Statement_nested_ind s')
                                  (all ss')
            end) ss)
  | VariableDeclaration n ty init l => HVariableDeclaration n ty init l
  | FunctionDeclaration n ret params body l =>
      HFunctionDeclaration n ret params body l (Statement_nested_ind body)
  | IfStatement c s1 s2 l =>
      HIf c s1 s2 l (Statement_nested_ind s1)
        (match s2 with
         | Some s => Statement_nested_ind s
         | None => I
         end)
  | WhileStatement c body l => HWhile c body l (Statement_nested_ind body)
  | ReturnStatement v l => HReturn v l
  | ExpressionStatement e l => HExpressionStatement e l
  end.

End StatementInduction.

(** The table [st'] has the scopes of [st], the enclosing ones unchanged
    and the current one with the bindings it had and possibly more. *)
Definition same_outer_scopes (st st' : SymbolTable.t) : Prop :=
  exists outer cur cur',
    SymbolTable.scopes_ st = (outer ++ [cur])%list
    /\ SymbolTable.scopes_ st' = (outer ++ [cur'])%list
    /\ cur ⊆ cur'.

(** What a statement may change in the analyzer: it may declare names in
    the current scope and add diagnostics at the end; the enclosing
    scopes, the scope depth and the three context fields are as before. *)
Definition statement_frame (a a' : SemanticAnalyzer.t) : Prop :=
  same_outer_scopes (SemanticAnalyzer.symbolTable_ a)
                    (SemanticAnalyzer.symbolTable_ a')
  /\ SemanticAnalyzer.inLoop_ a' = SemanticAnalyzer.inLoop_ a
  /\ SemanticAnalyzer.inFunction_ a' = SemanticAnalyzer.inFunction_ a
  /\ SemanticAnalyzer.currentFunctionReturnType_ a'
     = SemanticAnalyzer.currentFunctionReturnType_ a
  /\ exists extra,
       SemanticAnalyzer.getErrors a'
       = (SemanticAnalyzer.getErrors a ++ extra)%list.

(** The analyzer has a scope to declare names in. *)
Definition has_scope (a : SemanticAnalyzer.t) : Prop :=
  SymbolTable.scopes_ (SemanticAnalyzer.symbolTable_ a) <> [].

(** The symbol [visitFunctionDeclaration] builds for a function. *)
Definition function_symbol (name : string) (returnType : DataType)
    (parameters : list (string * DataType)) (l : SourceLocation)
  : Symbol.t :=
  Symbol.set_parameterTypes (map snd parameters)
    (Symbol.set_returnType returnType (Symbol.new name returnType true l)).

(** The expressions whose type can be UNKNOWN without a diagnostic: the
    [null] literal, and a variable, an assignment or a call whose symbol
    was declared with that type. *)
Definition unknown_by_declaration (e : Expression) (st : SymbolTable.t)
  : Prop :=
  match e with
  | LiteralExpression _ ty _ => ty = UNKNOWN
  | VariableExpression name _ | AssignmentExpression name _ _ =>
      exists symbol,
        SymbolTable.lookup name st = Some symbol
        /\ Symbol.type symbol = UNKNOWN
  | FunctionCallExpression name _ _ =>
      exists symbol,
        SymbolTable.lookup name st = Some symbol
        /\ default UNKNOWN (Symbol.returnType symbol) = UNKNOWN
  | BinaryExpression _ _ _ _ | UnaryExpression _ _ _ => False
  end.

(** *** The parser on a stream *)

(** A token stream as the parser expects it: END_OF_FILE is its last
    token and occurs nowhere else. *)
Fixpoint well_formed_stream (tokens : list Token) : bool :=
  match tokens with
  | [] => false
  | [tok] => bool_decide (type tok = END_OF_FILE)
  | tok :: rest =>
      negb (bool_decide (type tok = END_OF_FILE)) && well_formed_stream rest
  end.

(** No token of the stream has the kind [ty]. *)
Definition kind_absent (ty : TokenType) (tokens : list Token) : bool :=
  forallb (fun tok => negb (bool_decide (type tok = ty))) tokens.

(** [match(a, b, ...)] with several kinds: the kinds are tried from left to
    right ([match(a) || match(b) || ...]). *)
Fixpoint match_any (tys : list TokenType) : Parser.M bool :=
  match tys with
  | [] => Parser.ret false
  | [ty] => Parser.match_ ty
  | ty :: tys' => Parser.orM (Parser.match_ ty) (match_any tys')
  end.

(** The expressions the parser can build: no call at all; a division only
    when SLASH tokens may occur ([slash_ok]). *)
Fixpoint Expression_plain (slash_ok : bool) (e : Expression) : bool :=
  match e with
  | LiteralExpression _ _ _ | VariableExpression _ _ => true
  | BinaryExpression left_ op right_ _ =>
      (slash_ok || negb (bool_decide (op = OP_DIVIDE)))
      && Expression_plain slash_ok left_ && Expression_plain slash_ok right_
  | UnaryExpression _ operand _ => Expression_plain slash_ok operand
  | AssignmentExpression _ value _ => Expression_plain slash_ok value
  | FunctionCallExpression _ _ _ => false
  end.

Definition option_plain {A} (plain : A -> bool) (o : option A) : bool :=
  match o with
  | Some x => plain x
  | None => true
  end.

(** The statements the parser can build: their expressions are plain, and
    unless COLON tokens may occur ([colon_ok]) no variable has a declared
    type and every function is declared without parameters and returns
    VOID. *)
Fixpoint Statement_plain (colon_ok slash_ok : bool) (s : Statement) : bool :=
  match s with
  | BlockStatement statements _ =>
      forallb (Statement_plain colon_ok slash_ok) statements
  | VariableDeclaration _ ty initializer _ =>
      (colon_ok || bool_decide (ty = UNKNOWN))
      && option_plain (Expression_plain slash_ok) initializer
  | FunctionDeclaration _ returnType parameters body _ =>
      (colon_ok
       || (bool_decide (returnType = VOID) && bool_decide (parameters = [])))
      && Statement_plain colon_ok slash_ok body
  | IfStatement condition thenBranch elseBranch _ =>
      Expression_plain slash_ok condition
      && Statement_plain colon_ok slash_ok thenBranch
      && option_plain (Statement_plain colon_ok slash_ok) elseBranch
  | WhileStatement condition body _ =>
      Expression_plain slash_ok condition
      && Statement_plain colon_ok slash_ok body
  | ReturnStatement value _ =>
      option_plain (Expression_plain slash_ok) value
  | ExpressionStatement expression _ => Expression_plain slash_ok expression
  end.

Definition Program_plain (colon_ok slash_ok : bool) (program : Program)
  : bool :=
  forallb (Statement_plain colon_ok slash_ok) (Program_statements program).

(** The parser [p] reads the stream [toks] and its cursor is on one of its
    tokens. *)
Definition parser_wf (toks : list Token) (p : Parser.t) : Prop :=
  Parser.tokens_ p = toks /\ Parser.current_ p < length toks.

(** [p'] is [p] with the cursor at least [k] tokens further. *)
Definition stepped (toks : list Token) (k : nat) (p p' : Parser.t) : Prop :=
  parser_wf toks p'
  /\ Parser.current_ p + k <= Parser.current_ p'
  /\ Parser.hadError_ p' = Parser.hadError_ p
  /\ Parser.panicMode_ p' = Parser.panicMode_ p.

(** The computation [m], run from [p], returns a value and a state that
    satisfy [returned] or throws an exception that satisfies [raised]; it
    neither reads [tokens_] out of range nor uses up its budget. *)
Definition parser_wp {A} (m : Parser.M A) (returned : A -> Parser.t -> Prop)
    (raised : CompilerError -> Parser.t -> Prop) (p : Parser.t) : Prop :=
  match m p with
  | Parser.Ok a p' => returned a p'
  | Parser.Throw e p' => raised e p'
  | Parser.Undefined => False
  | Parser.OutOfFuel => False
  end.

(** What the parser throws: a [CompilerError] built from a message and a
    location. *)
Definition thrown (toks : list Token) (e : CompilerError) (p' : Parser.t)
  : Prop :=
  parser_wf toks p' /\ exists message l, e = CompilerError_new message l.

(** [m] parses: it returns a value satisfying [Q] with the cursor at least
    [k] tokens further, or throws. *)
Definition parses (toks : list Token) {A} (k : nat) (Q : A -> Prop)
    (m : Parser.M A) (p : Parser.t) : Prop :=
  parser_wp m (fun a p' => Q a /\ stepped toks k p p') (thrown toks) p.

(** The budget [fuel] covers sixteen calls for each token from the cursor
    on, and [d] more. *)
Definition fuel_for (toks : list Token) (d fuel : nat) (p : Parser.t)
  : Prop :=
  16 * (length toks - Parser.current_ p) + d <= fuel.

(** What [match] returns: true with the cursor one token further, past a
    token of one of the kinds [tys]; or false with the parser unchanged. *)
Definition matched (toks : list Token) (tys : list TokenType)
    (p : Parser.t) (b : bool) (p' : Parser.t) : Prop :=
  if b then
    stepped toks 1 p p'
    /\ Parser.current_ p' = S (Parser.current_ p)
    /\ exists tok, toks !! Parser.current_ p = Some tok /\ In (type tok) tys
  else p' = p.

(** What the functions of the expression grammar do with the budget
    [fuel]: each of them parses, the loops possibly without consuming a
    token, and the expressions they return are plain. *)
Definition expression_parsers (toks : list Token) (slash_ok : bool)
    (fuel : nat) : Prop :=
  let Q := fun e => Expression_plain slash_ok e = true in
  let level := fun (d : nat) (m : Parser.M Expression) =>
    forall p, parser_wf toks p -> fuel_for toks d fuel p ->
              parses toks 1 Q m p in
  let loop := fun (m : Expression -> Parser.M Expression) =>
    forall e p, Q e -> parser_wf toks p -> fuel_for toks 1 fuel p ->
                parses toks 0 Q (m e) p in
  level 10 (Parser.parseExpression fuel)
  /\ level 9 (Parser.parseAssignment fuel)
  /\ level 8 (Parser.parseLogicalOr fuel)
  /\ loop (Parser.parseLogicalOr_loop fuel)
  /\ level 7 (Parser.parseLogicalAnd fuel)
  /\ loop (Parser.parseLogicalAnd_loop fuel)
  /\ level 6 (Parser.parseEquality fuel)
  /\ loop (Parser.parseEquality_loop fuel)
  /\ level 5 (Parser.parseComparison fuel)
  /\ loop (Parser.parseComparison_loop fuel)
  /\ level 4 (Parser.parseTerm fuel)
  /\ loop (Parser.parseTerm_loop fuel)
  /\ level 3 (Parser.parseFactor fuel)
  /\ loop (Parser.parseFactor_loop fuel)
  /\ level 2 (Parser.parseUnary fuel)
  /\ level 1 (Parser.parsePrimary fuel).

(** The same for the functions of the statement grammar. *)
Definition statement_parsers (toks : list Token) (colon_ok slash_ok : bool)
    (fuel : nat) : Prop :=
  let Q := fun s => Statement_plain colon_ok slash_ok s = true in
  let Qs := fun ss => forallb (Statement_plain colon_ok slash_ok) ss = true in
  (forall p, parser_wf toks p -> fuel_for toks 11 fuel p ->
             parses toks 1 Q (Parser.parseStatement fuel) p)
  /\ (forall p, parser_wf toks p -> fuel_for toks 13 fuel p ->
                parses toks 1 Q (Parser.parseBlockStatement fuel) p)
  /\ (forall ss p, Qs ss -> parser_wf toks p -> fuel_for toks 12 fuel p ->
                   parses toks 0 Qs (Parser.parseBlockStatement_loop fuel ss) p)
  /\ (forall p, parser_wf toks p -> fuel_for toks 1 fuel p ->
                parses toks 1 Q (Parser.parseIfStatement fuel) p)
  /\ (forall p, parser_wf toks p -> fuel_for toks 1 fuel p ->
                parses toks 1 Q (Parser.parseWhileStatement fuel) p)
  /\ (forall p, parser_wf toks p -> fuel_for toks 1 fuel p ->
                parses toks 1 Q (Parser.parseFunctionDeclaration fuel) p).

(** How [parse] ends on the stream [toks]: with a plain program, the
    cursor on the END_OF_FILE token and the flags as they were; or by an
    exception made from the message of the first syntax error, to which
    the location has been prefixed twice, with both flags set. *)
Definition parsed (toks : list Token) (colon_ok slash_ok : bool)
    (p : Parser.t) (r : Parser.result Program) : Prop :=
  match r with
  | Parser.Ok program p' =>
      Program_plain colon_ok slash_ok program = true
      /\ Parser.tokens_ p' = toks
      /\ S (Parser.current_ p') = length toks
      /\ Parser.hadError_ p' = Parser.hadError_ p
      /\ Parser.panicMode_ p' = Parser.panicMode_ p
  | Parser.Throw e p' =>
      Parser.tokens_ p' = toks
      /\ Parser.hadError_ p' = true
      /\ Parser.panicMode_ p' = true
      /\ exists message l1 l2,
           what e = format_diagnostic l1 (format_diagnostic l2 message)
  | Parser.Undefined => False
  | Parser.OutOfFuel => False
  end.

(** *** The tables of the code generator *)

(** What lowering may change in the generator's own tables: names are
    added to [variables_] and [functions_], never removed; diagnostics are
    added at the end of [errors_]; and [hasErrors_] keeps telling whether
    [errors_] is non-empty. *)
Definition lowering_grows (g g' : LLVMCodeGenerator.t) : Prop :=
  (forall name,
     is_Some (LLVMCodeGenerator.variables_ g !! name) ->
     is_Some (LLVMCodeGenerator.variables_ g' !! name))
  /\ (forall name,
        is_Some (LLVMCodeGenerator.functions_ g !! name) ->
        is_Some (LLVMCodeGenerator.functions_ g' !! name))
  /\ (exists extra,
        LLVMCodeGenerator.errors_ g'
        = (LLVMCodeGenerator.errors_ g ++ extra)%list)
  /\ (LLVMCodeGenerator.hasErrors_ g
      = negb (bool_decide (LLVMCodeGenerator.errors_ g = [])) ->
      LLVMCodeGenerator.hasErrors_ g'
      = negb (bool_decide (LLVMCodeGenerator.errors_ g' = []))).

(** Every run of [m] that returns has only grown the tables. *)
Definition grows_only {A} (m : LLVMCodeGenerator.M A) : Prop :=
  forall g,
    match m g with
    | LLVMCodeGenerator.Ok _ g' => lowering_grows g g'
    | _ => True
    end.

(* ===================================================================== *)
(** ** Utils.cpp: the escape helpers *)
(* ===================================================================== *)

Lemma unescape_escapeChar (c : ascii) (rest : string) :
  unescapeString (escapeChar c ++ rest) = String c (unescapeString rest).
Proof.
  unfold escapeChar.
  destruct (Ascii.eqb_spec c backslash) as [->|Hb]; [reflexivity|].
  destruct (Ascii.eqb_spec c dquote) as [->|Hq]; [reflexivity|].
  destruct (Ascii.eqb_spec c newline) as [->|Hn]; [reflexivity|].
  destruct (Ascii.eqb_spec c tab) as [->|Ht]; [reflexivity|].
  destruct (Ascii.eqb_spec c carriage_return) as [->|Hr]; [reflexivity|].
  simpl. apply Ascii.eqb_neq in Hb. now rewrite Hb.
Qed.

Lemma well_escaped_escapeChar (c : ascii) (rest : string) :
  well_escaped (escapeChar c ++ rest) = well_escaped rest.
Proof.
  unfold escapeChar.
  destruct (Ascii.eqb_spec c backslash) as [->|Hb]; [reflexivity|].
  destruct (Ascii.eqb_spec c dquote) as [->|Hq]; [reflexivity|].
  destruct (Ascii.eqb_spec c newline) as [->|Hn]; [reflexivity|].
  destruct (Ascii.eqb_spec c tab) as [->|Ht]; [reflexivity|].
  destruct (Ascii.eqb_spec c carriage_return) as [->|Hr]; [reflexivity|].
  simpl. apply Ascii.eqb_neq in Hb. now rewrite Hb.
Qed.

(** C10. [unescapeString] undoes [escapeString] on every string, and the
    output of [escapeString] is well escaped: each backslash in it starts
    one of the five sequences that [unescapeString] decodes. *)
Theorem C10_unescape_escape (s : string) :
  unescapeString (escapeString s) = s
  /\ well_escaped (escapeString s) = true.
Proof.
  induction s as [|c s [IH1 IH2]]; [split; reflexivity|].
  simpl. rewrite unescape_escapeChar, well_escaped_escapeChar, IH1.
  split; [reflexivity | exact IH2].
Qed.

(* ===================================================================== *)
(** ** Semantic.cpp: type compatibility *)
(* ===================================================================== *)

Lemma isCompatible_spec (from to : DataType) :
  TypeChecker.isCompatible from to = true
  <-> (from = to \/ from = UNKNOWN \/ to = UNKNOWN
       \/ (from = INT /\ to = FLOAT_T) \/ (from = FLOAT_T /\ to = INT)).
Proof.
  split.
  - destruct from, to; simpl; intros H; try discriminate H; tauto.
  - intros [->|[->|[->|[[-> ->]|[-> ->]]]]];
      try reflexivity; try (destruct from; reflexivity);
      destruct to; reflexivity.
Qed.

(* ===================================================================== *)
(** ** Semantic.cpp: the scope stack *)
(* ===================================================================== *)

Lemma removelast_snoc {A} (l : list A) (x : A) : removelast (l ++ [x]) = l.
Proof. apply removelast_last. Qed.

Lemma exitScope_snoc (base : list (gmap string Symbol.t))
    (scope : gmap string Symbol.t) :
  base <> [] ->
  SymbolTable.exitScope (SymbolTable.mk (base ++ [scope]))
  = SymbolTable.mk base.
Proof.
  intros Hne. unfold SymbolTable.exitScope. cbn [SymbolTable.scopes_].
  assert ((1 <? length (base ++ [scope])) = true) as ->.
  { apply Nat.ltb_lt. rewrite length_app.
    destruct base; [congruence|]. simpl. lia. }
  now rewrite removelast_last.
Qed.

(** From a table with at least one scope, a sequence that closes the
    [depth] scopes [extra] on top of [base] and is otherwise balanced ends
    in [base]. *)
Lemma run_ops_balanced_from (ops : list ScopeOp) :
  forall (extra base : list (gmap string Symbol.t)),
    base <> [] ->
    balanced_from (length extra) ops = true ->
    run_ops ops (SymbolTable.mk (base ++ extra)) = SymbolTable.mk base.
Proof.
  induction ops as [|op ops IH]; intros extra base Hne Hbal.
  - simpl in Hbal. apply Nat.eqb_eq in Hbal.
    destruct extra; [|discriminate]. now rewrite app_nil_r.
  - destruct op; simpl in *.
    + unfold SymbolTable.enterScope. simpl. rewrite <- app_assoc.
      apply IH; [exact Hne|]. rewrite length_app. simpl.
      now replace (length extra + 1) with (S (length extra)) by lia.
    + destruct (length extra) as [|d] eqn:Hlen; [discriminate|].
      destruct (exists_last (l := extra)) as [extra' [x ->]].
      { intros ->. discriminate. }
      rewrite length_app in Hlen. simpl in Hlen.
      rewrite app_assoc, exitScope_snoc.
      * apply IH; [exact Hne|]. now replace (length extra') with d by lia.
      * intros Heq. apply app_eq_nil in Heq. tauto.
Qed.

Lemma run_ops_balanced_id (ops : list ScopeOp) (st : SymbolTable.t) :
  SymbolTable.scopes_ st <> [] ->
  balanced ops = true ->
  run_ops ops st = st.
Proof.
  intros Hne Hbal. destruct st as [scopes]. simpl in Hne.
  rewrite <- (app_nil_r scopes) at 1.
  now apply run_ops_balanced_from.
Qed.

Lemma all_empty_run_op (op : ScopeOp) (st : SymbolTable.t) :
  all_empty st -> all_empty (run_op op st).
Proof.
  unfold all_empty. intros H. destruct op; simpl.
  - apply Forall_app. split; [exact H | repeat constructor].
  - unfold SymbolTable.exitScope.
    destruct (1 <? length (SymbolTable.scopes_ st)); [|exact H]. simpl.
    destruct st as [scopes]. simpl in *.
    induction H as [|x l Hx Hl IH]; [constructor|].
    destruct l; [constructor|]. simpl. constructor; [exact Hx | exact IH].
Qed.

Lemma all_empty_run_ops (ops : list ScopeOp) :
  forall st, all_empty st -> all_empty (run_ops ops st).
Proof.
  induction ops as [|op ops IH]; intros st H; [exact H|].
  simpl. apply IH. now apply all_empty_run_op.
Qed.

Lemma all_empty_lookup (name : string) (st : SymbolTable.t) :
  all_empty st -> SymbolTable.lookup name st = None.
Proof.
  unfold all_empty, SymbolTable.lookup. intros H.
  apply Forall_rev in H. induction H as [|x l Hx Hl IH]; [reflexivity|].
  simpl. subst x. now rewrite lookup_empty.
Qed.

(** C9. After any balanced sequence of [enterScope]/[exitScope] calls,
    from any table, [lookup] finds for every name exactly what it found
    before the sequence. *)
Theorem C9_scope_round_trip (ops : list ScopeOp) (st : SymbolTable.t)
    (name : string) :
  balanced ops = true ->
  SymbolTable.lookup name (run_ops ops st) = SymbolTable.lookup name st.
Proof.
  intros Hbal. destruct st as [[|scope scopes]].
  - rewrite !all_empty_lookup; [reflexivity | constructor |].
    apply all_empty_run_ops. constructor.
  - now rewrite run_ops_balanced_id.
Qed.

Lemma C9_scope_round_trip_witness :
  SymbolTable.lookup "print"
    (run_ops [EnterScope; EnterScope; ExitScope; EnterScope; ExitScope;
              ExitScope]
       (BuiltinFunctions.registerBuiltins SymbolTable.new))
  = SymbolTable.lookup "print"
      (BuiltinFunctions.registerBuiltins SymbolTable.new).
Proof. apply C9_scope_round_trip. reflexivity. Defined.

(* ===================================================================== *)
(** ** Lexer.cpp: strings and the cursor *)
(* ===================================================================== *)

(** stdpp keeps [simpl] from unfolding string concatenation; the proofs
    about the scanner compute with it. *)
#[local] Arguments String.append !_ _ : simpl nomatch.

Section StringFacts.

Lemma string_length_app (s1 s2 : string) :
  String.length (s1 ++ s2) = String.length s1 + String.length s2.
Proof. induction s1 as [|c s1 IH]; simpl; [reflexivity | now rewrite IH]. Qed.

Lemma string_app_assoc (s1 s2 s3 : string) :
  (s1 ++ s2) ++ s3 = s1 ++ s2 ++ s3.
Proof. induction s1 as [|c s1 IH]; simpl; [reflexivity | now rewrite IH]. Qed.

Lemma string_app_nil_r (s : string) : s ++ "" = s.
Proof. induction s as [|c s IH]; simpl; [reflexivity | now rewrite IH]. Qed.

Lemma string_snoc_app (pre : string) (c : ascii) (s : string) :
  pre ++ String c s = (pre ++ String c "") ++ s.
Proof. now rewrite string_app_assoc. Qed.

Lemma string_length_snoc (pre : string) (c : ascii) :
  String.length (pre ++ String c "") = S (String.length pre).
Proof. rewrite string_length_app. simpl. lia. Qed.

Lemma get_app_r (pre s : string) (i : nat) :
  String.get (String.length pre + i) (pre ++ s) = String.get i s.
Proof. induction pre as [|c pre IH]; simpl; [reflexivity | exact IH]. Qed.

Lemma get_app_here (pre : string) (c : ascii) (s : string) :
  String.get (String.length pre) (pre ++ String c s) = Some c.
Proof.
  rewrite <- (Nat.add_0_r (String.length pre)). now rewrite get_app_r.
Qed.

Lemma substring_prefix (mid post : string) :
  String.substring 0 (String.length mid) (mid ++ post) = mid.
Proof.
  induction mid as [|c mid IH]; simpl.
  - now destruct post.
  - now rewrite IH.
Qed.

Lemma substring_app (pre mid post : string) :
  String.substring (String.length pre) (String.length mid)
                   (pre ++ mid ++ post) = mid.
Proof.
  induction pre as [|c pre IH]; simpl; [apply substring_prefix | exact IH].
Qed.

End StringFacts.

Lemma digit_not_whitespace (c : ascii) :
  isDigit c = true -> isWhitespace c = false.
Proof. intros H. ascii_cases c. Qed.

Lemma digit_not_alpha (c : ascii) : isDigit c = true -> isAlpha c = false.
Proof. intros H. ascii_cases c. Qed.

Lemma digit_not_slash (c : ascii) :
  isDigit c = true -> Ascii.eqb c "/" = false.
Proof. intros H. ascii_cases c. Qed.

Lemma digit_not_dot (c : ascii) : isDigit c = true -> Ascii.eqb c "." = false.
Proof. intros H. ascii_cases c. Qed.

Lemma digit_not_newline (c : ascii) :
  isDigit c = true -> Ascii.eqb c newline = false.
Proof. intros H. ascii_cases c. Qed.

Lemma advance_digit (l : SourceLocation) (c : ascii) :
  isDigit c = true ->
  SourceLocation_advance l c = mkLoc (line l) (S (column l)) (S (offset l)).
Proof.
  intros H. unfold SourceLocation_advance.
  now rewrite (digit_not_newline c H).
Qed.

Section Cursor.

Variables (pre : string) (st : nat) (loc : SourceLocation).

Lemma isAtEnd_mid (c : ascii) (rest : string) :
  Lexer.isAtEnd (Lexer.mk (pre ++ String c rest) (String.length pre) st loc)
  = false.
Proof.
  unfold Lexer.isAtEnd. simpl. apply Nat.leb_gt.
  rewrite string_length_app. simpl. lia.
Qed.

Lemma isAtEnd_end :
  Lexer.isAtEnd (Lexer.mk pre (String.length pre) st loc) = true.
Proof. unfold Lexer.isAtEnd. simpl. apply Nat.leb_le. lia. Qed.

Lemma at_mid (cur : nat) (c : ascii) (rest : string) :
  Lexer.at_ (Lexer.mk (pre ++ String c rest) cur st loc)
            (String.length pre) = c.
Proof. unfold Lexer.at_. simpl. now rewrite get_app_here. Qed.

Lemma peek_mid (c : ascii) (rest : string) :
  Lexer.peek (Lexer.mk (pre ++ String c rest) (String.length pre) st loc) 0
  = c.
Proof.
  unfold Lexer.peek. simpl. rewrite Nat.add_0_r.
  replace (String.length (pre ++ String c rest) <=? String.length pre)
    with false.
  - unfold Lexer.at_. simpl. now rewrite get_app_here.
  - symmetry. apply Nat.leb_gt. rewrite string_length_app. simpl. lia.
Qed.

Lemma advance_mid (c : ascii) (rest : string) :
  Lexer.advance (Lexer.mk (pre ++ String c rest) (String.length pre) st loc)
  = (c, Lexer.mk (pre ++ String c rest) (S (String.length pre)) st
                 (SourceLocation_advance loc c)).
Proof.
  unfold Lexer.advance. rewrite isAtEnd_mid. cbn [Lexer.current_
    Lexer.source_ Lexer.start_ Lexer.location_].
  now rewrite at_mid.
Qed.

End Cursor.

(** The cursor one character further, with that character moved into the
    text before the cursor. *)
Lemma cursor_shift (pre : string) (c : ascii) (rest : string) (st : nat)
    (loc : SourceLocation) :
  Lexer.mk (pre ++ String c rest) (S (String.length pre)) st loc
  = Lexer.mk ((pre ++ String c "") ++ rest)
             (String.length (pre ++ String c "")) st loc.
Proof. now rewrite <- string_snoc_app, string_length_snoc. Qed.

Lemma skipWhitespace_loop_run (ws : string) :
  forall (pre post : string) (n st : nat) (loc : SourceLocation),
    all_chars isWhitespace ws = true ->
    stops isWhitespace post ->
    String.length (ws ++ post) <= n ->
    Lexer.skipWhitespace_loop n
      (Lexer.mk (pre ++ ws ++ post) (String.length pre) st loc)
    = Lexer.mk (pre ++ ws ++ post) (String.length pre + String.length ws) st
               (advance_string loc ws).
Proof.
  induction ws as [|c ws IH]; intros pre post n st loc Hws Hstop Hn.
  - simpl. rewrite Nat.add_0_r. destruct n as [|n]; [reflexivity|].
    destruct post as [|d post]; simpl.
    + now rewrite string_app_nil_r, isAtEnd_end.
    + rewrite isAtEnd_mid, peek_mid. simpl in Hstop. now rewrite Hstop.
  - simpl in Hws. apply andb_true_iff in Hws as [Hc Hws].
    destruct n as [|n]; [simpl in Hn; lia|].
    cbn [Lexer.skipWhitespace_loop append].
    rewrite isAtEnd_mid, peek_mid, Hc, advance_mid. cbn [negb andb snd].
    rewrite cursor_shift, IH; [|exact Hws|exact Hstop|simpl in Hn; lia].
    rewrite <- string_snoc_app, string_length_snoc. simpl.
    f_equal. lia.
Qed.

(** The digits in front of the cursor are consumed, whatever follows. *)
Lemma readNumber_loop_digits (ds : string) :
  forall (pre post : string) (n : nat) (hasDecimal : bool) (st : nat)
         (loc : SourceLocation),
    all_chars isDigit ds = true ->
    String.length ds <= n ->
    Lexer.readNumber_loop n hasDecimal
      (Lexer.mk (pre ++ ds ++ post) (String.length pre) st loc)
    = Lexer.readNumber_loop (n - String.length ds) hasDecimal
        (Lexer.mk (pre ++ ds ++ post) (String.length pre + String.length ds) st
                  (advance_string loc ds)).
Proof.
  induction ds as [|c ds IH]; intros pre post n hd st loc Hds Hn.
  - simpl. now rewrite Nat.add_0_r, Nat.sub_0_r.
  - simpl in Hds. apply andb_true_iff in Hds as [Hc Hds].
    destruct n as [|n]; [simpl in Hn; lia|].
    cbn [Lexer.readNumber_loop append].
    rewrite isAtEnd_mid, peek_mid, Hc, (digit_not_dot c Hc), advance_mid.
    cbn [negb andb orb snd].
    rewrite cursor_shift, IH; [|exact Hds|simpl in Hn; lia].
    rewrite <- string_snoc_app, string_length_snoc. simpl.
    do 2 f_equal. lia.
Qed.

Lemma readNumber_loop_digits_at (src : string) (cur : nat)
    (pre ds post : string) (n : nat) (hasDecimal : bool) (st : nat)
    (loc : SourceLocation) :
  src = pre ++ ds ++ post ->
  cur = String.length pre ->
  all_chars isDigit ds = true ->
  String.length ds <= n ->
  Lexer.readNumber_loop n hasDecimal (Lexer.mk src cur st loc)
  = Lexer.readNumber_loop (n - String.length ds) hasDecimal
      (Lexer.mk src (cur + String.length ds) st (advance_string loc ds)).
Proof. intros -> ->. apply readNumber_loop_digits. Qed.

(** A decimal point at the cursor is consumed when none was seen before. *)
Lemma readNumber_loop_dot (src : string) (cur : nat) (pre rest : string)
    (n st : nat) (loc : SourceLocation) :
  src = pre ++ String "." rest ->
  cur = String.length pre ->
  Lexer.readNumber_loop (S n) false (Lexer.mk src cur st loc)
  = Lexer.readNumber_loop n true
      (Lexer.mk src (S cur) st (SourceLocation_advance loc ".")).
Proof.
  intros -> ->. cbn [Lexer.readNumber_loop].
  now rewrite isAtEnd_mid, peek_mid, advance_mid.
Qed.

(** In front of a text that does not continue the number the loop stops. *)
Lemma readNumber_loop_stop (src : string) (cur : nat) (pre post : string)
    (n : nat) (hasDecimal : bool) (st : nat) (loc : SourceLocation) :
  src = pre ++ post ->
  cur = String.length pre ->
  stops (fun c => isDigit c || (negb hasDecimal && Ascii.eqb c ".")) post ->
  Lexer.readNumber_loop n hasDecimal (Lexer.mk src cur st loc)
  = (hasDecimal, Lexer.mk src cur st loc).
Proof.
  intros -> -> Hstop. destruct n as [|n]; [reflexivity|].
  destruct post as [|c post]; simpl.
  - now rewrite string_app_nil_r, isAtEnd_end.
  - rewrite isAtEnd_mid, peek_mid. simpl in Hstop. now rewrite Hstop.
Qed.

Lemma digit_run_spec (s : string) :
  s = fst (digit_run s) ++ snd (digit_run s)
  /\ all_chars isDigit (fst (digit_run s)) = true
  /\ stops isDigit (snd (digit_run s)).
Proof.
  induction s as [|c s (IH1 & IH2 & IH3)]; [simpl; auto|].
  simpl. destruct (isDigit c) eqn:Hc.
  - destruct (digit_run s) as [ds rest]. simpl in *.
    rewrite Hc, IH2. repeat split; [now f_equal | exact IH3].
  - simpl. auto.
Qed.

Lemma number_lexeme_cons (c : ascii) (s : string) :
  isDigit c = true ->
  number_lexeme (String c s)
  = (if fst (number_tail s) then FLOAT else INTEGER,
     String c (snd (number_tail s))).
Proof.
  intros Hc. unfold number_lexeme, number_tail. simpl. rewrite Hc.
  destruct (digit_run s) as [ds1 rest1].
  destruct rest1 as [|d rest1]; [reflexivity|].
  destruct (Ascii.eqb_spec d ".") as [->|Hd].
  - now destruct (digit_run rest1).
  - destruct d as [[] [] [] [] [] [] [] []]; try reflexivity; congruence.
Qed.

Lemma advance_string_app (s1 s2 : string) (loc : SourceLocation) :
  advance_string loc (s1 ++ s2) = advance_string (advance_string loc s1) s2.
Proof.
  revert loc. induction s1 as [|c s1 IH]; intros loc; [reflexivity|].
  simpl. apply IH.
Qed.

Lemma readNumber_loop_spec (s pre : string) (st : nat) (loc : SourceLocation)
    (n : nat) :
  String.length s <= n ->
  Lexer.readNumber_loop n false
    (Lexer.mk (pre ++ s) (String.length pre) st loc)
  = (fst (number_tail s),
     Lexer.mk (pre ++ s)
       (String.length pre + String.length (snd (number_tail s))) st
       (advance_string loc (snd (number_tail s)))).
Proof.
  intros Hn. unfold number_tail.
  destruct (digit_run_spec s) as (Hs & Hds & Hstop).
  destruct (digit_run s) as [ds1 rest1]. simpl in Hs, Hds, Hstop.
  subst s. rewrite string_length_app in Hn.
  rewrite (readNumber_loop_digits_at _ _ pre ds1 rest1);
    [|reflexivity|reflexivity|exact Hds|lia].
  destruct rest1 as [|d rest1].
  - apply readNumber_loop_stop with (pre := pre ++ ds1) (post := "").
    + now rewrite string_app_assoc.
    + now rewrite string_length_app.
    + exact I.
  - destruct (Ascii.eqb_spec d ".") as [->|Hd].
    + (* the decimal point is consumed, then the digits after it *)
      destruct (digit_run_spec rest1) as (Hr & Hds2 & Hstop2).
      destruct (digit_run rest1) as [ds2 rest2]. simpl in Hr, Hds2, Hstop2.
      subst rest1. simpl in Hn. rewrite string_length_app in Hn.
      destruct (n - String.length ds1) as [|m] eqn:Hm; [lia|].
      rewrite (readNumber_loop_dot _ _ (pre ++ ds1) (ds2 ++ rest2));
        [|now rewrite string_app_assoc|now rewrite string_length_app].
      rewrite (readNumber_loop_digits_at _ _ ((pre ++ ds1) ++ ".") ds2 rest2);
        [| now rewrite !string_app_assoc
         | rewrite !string_length_app; simpl; lia
         | exact Hds2 | lia].
      rewrite (readNumber_loop_stop _ _ (((pre ++ ds1) ++ ".") ++ ds2) rest2).
      * simpl. f_equal. f_equal.
        -- rewrite !string_length_app. simpl. lia.
        -- rewrite advance_string_app. reflexivity.
      * now rewrite !string_app_assoc.
      * rewrite !string_length_app. simpl. lia.
      * destruct rest2; [exact I|]. simpl in *. now rewrite Hstop2.
    + rewrite (readNumber_loop_stop _ _ (pre ++ ds1) (String d rest1)).
      * destruct d as [[] [] [] [] [] [] [] []]; try reflexivity; congruence.
      * now rewrite string_app_assoc.
      * now rewrite string_length_app.
      * simpl in *. rewrite Hstop. simpl. now apply Ascii.eqb_neq.
Qed.

(** [readNumber], entered with the first digit [c] already consumed. *)
Lemma readNumber_spec (pre : string) (c : ascii) (s : string)
    (loc : SourceLocation) :
  isDigit c = true ->
  Lexer.readNumber
    (Lexer.mk (pre ++ String c s) (S (String.length pre)) (String.length pre)
              loc)
  = (mkToken (fst (number_lexeme (String c s)))
             (snd (number_lexeme (String c s)))
             (advance_string loc (snd (number_tail s))),
     Lexer.mk (pre ++ String c s)
       (String.length pre + String.length (snd (number_lexeme (String c s))))
       (String.length pre)
       (advance_string loc (snd (number_tail s)))).
Proof.
  intros Hc. rewrite (number_lexeme_cons c s Hc). cbn [fst snd].
  unfold Lexer.readNumber, Lexer.remaining.
  cbn [Lexer.source_ Lexer.current_].
  rewrite cursor_shift.
  rewrite readNumber_loop_spec
    by (rewrite !string_length_app; simpl; lia).
  cbn [Lexer.source_ Lexer.current_ Lexer.start_ Lexer.location_].
  rewrite <- string_snoc_app, string_length_snoc.
  destruct (digit_run_spec s) as (Hs & _ & _).
  assert (Htail : exists rest, s = snd (number_tail s) ++ rest).
  { unfold number_tail. destruct (digit_run s) as [ds1 rest1].
    simpl in Hs. destruct rest1 as [|d rest1]; [now exists ""|].
    destruct (Ascii.eqb_spec d ".") as [->|Hd].
    - destruct (digit_run_spec rest1) as (Hr & _ & _).
      destruct (digit_run rest1) as [ds2 rest2]. simpl in Hr.
      exists rest2. simpl. rewrite Hs, Hr at 1.
      now rewrite !string_app_assoc.
    - exists (String d rest1).
      destruct d as [[] [] [] [] [] [] [] []]; try exact Hs; congruence. }
  destruct Htail as [rest Hrest].
  set (tl := snd (number_tail s)) in *.
  replace (S (String.length pre) + String.length tl - String.length pre)
    with (String.length (String c tl)) by (simpl; lia).
  assert (Hsub : String.substring (String.length pre)
                   (String.length (String c tl)) (pre ++ String c s)
                 = String c tl).
  { rewrite Hrest at 1.
    change (String c (tl ++ rest)) with (String c tl ++ rest).
    apply substring_app. }
  rewrite Hsub. destruct (fst (number_tail s)); simpl;
    do 2 f_equal; lia.
Qed.

(* ===================================================================== *)
(** ** Lexer.cpp: one token at a time *)
(* ===================================================================== *)

Lemma skipWhitespace_run (src : string) (cur : nat) (pre ws post : string)
    (st : nat) (loc : SourceLocation) :
  src = pre ++ ws ++ post ->
  cur = String.length pre ->
  all_chars isWhitespace ws = true ->
  stops isWhitespace post ->
  Lexer.skipWhitespace (Lexer.mk src cur st loc)
  = Lexer.mk src (cur + String.length ws) st (advance_string loc ws).
Proof.
  intros -> -> Hws Hstop. unfold Lexer.skipWhitespace, Lexer.remaining.
  apply skipWhitespace_loop_run; [exact Hws | exact Hstop |].
  simpl. rewrite !string_length_app. lia.
Qed.

Lemma skipWhitespace_none (src : string) (cur : nat) (pre post : string)
    (st : nat) (loc : SourceLocation) :
  src = pre ++ post ->
  cur = String.length pre ->
  stops isWhitespace post ->
  Lexer.skipWhitespace (Lexer.mk src cur st loc) = Lexer.mk src cur st loc.
Proof.
  intros Hsrc Hcur Hstop.
  rewrite (skipWhitespace_run src cur pre "" post); auto.
  simpl. now rewrite Nat.add_0_r.
Qed.

Lemma nextToken_rec_unfold (n : nat) (lx : Lexer.t) :
  Lexer.nextToken_rec n lx
  = let lx := Lexer.skipWhitespace lx in
    if Lexer.isAtEnd lx then (None, lx)
    else
      let lx := Lexer.set_start lx in
      let '(c, lx) := Lexer.advance lx in
      let '(isComment, lx) :=
        if Ascii.eqb c "/" then Lexer.match_ "/" lx else (false, lx) in
      if isComment then
        let lx := Lexer.skipComment lx in
        match n with
        | O => (None, lx)
        | S n' => Lexer.nextToken_rec n' lx
        end
      else if isAlpha c then
        let '(tok, lx) := Lexer.readIdentifier lx in (Some tok, lx)
      else if isDigit c then
        let '(tok, lx) := Lexer.readNumber lx in (Some tok, lx)
      else if Ascii.eqb c dquote then
        let '(tok, lx) := Lexer.readString lx in (Some tok, lx)
      else
        let '(tok, lx) := Lexer.readOperator lx in (Some tok, lx).
Proof. destruct n; reflexivity. Qed.

(** White space in front of a token is skipped. *)
Lemma nextToken_rec_whitespace (n : nat) (src : string) (cur : nat)
    (pre ws post : string) (st : nat) (loc : SourceLocation) :
  src = pre ++ ws ++ post ->
  cur = String.length pre ->
  all_chars isWhitespace ws = true ->
  stops isWhitespace post ->
  Lexer.nextToken_rec n (Lexer.mk src cur st loc)
  = Lexer.nextToken_rec n
      (Lexer.mk src (cur + String.length ws) st (advance_string loc ws)).
Proof.
  intros Hsrc Hcur Hws Hstop. rewrite !nextToken_rec_unfold.
  rewrite (skipWhitespace_run src cur pre ws post) by assumption.
  rewrite (skipWhitespace_none src (cur + String.length ws) (pre ++ ws) post);
    [reflexivity | now rewrite string_app_assoc
     | rewrite string_length_app; lia | exact Hstop].
Qed.

(** A token that starts with a digit. *)
Lemma nextToken_rec_number (n : nat) (pre : string) (c : ascii) (s : string)
    (st : nat) (loc : SourceLocation) :
  isDigit c = true ->
  Lexer.nextToken_rec n
    (Lexer.mk (pre ++ String c s) (String.length pre) st loc)
  = (Some (mkToken (fst (number_lexeme (String c s)))
                   (snd (number_lexeme (String c s)))
                   (advance_string loc (snd (number_lexeme (String c s))))),
     Lexer.mk (pre ++ String c s)
       (String.length pre + String.length (snd (number_lexeme (String c s))))
       (String.length pre)
       (advance_string loc (snd (number_lexeme (String c s))))).
Proof.
  intros Hc. rewrite nextToken_rec_unfold.
  rewrite (skipWhitespace_none _ _ pre (String c s));
    [|reflexivity|reflexivity|exact (digit_not_whitespace c Hc)].
  cbv zeta. rewrite isAtEnd_mid. unfold Lexer.set_start.
  cbn [Lexer.source_ Lexer.current_ Lexer.location_].
  rewrite advance_mid, (digit_not_slash c Hc), (digit_not_alpha c Hc), Hc.
  rewrite (readNumber_spec pre c s _ Hc).
  rewrite (number_lexeme_cons c s Hc). reflexivity.
Qed.

(** A token that is a one-character operator or delimiter other than [/],
    when the character after it does not complete a two-character
    operator. *)
Lemma nextToken_rec_operator (n : nat) (pre : string) (c : ascii)
    (rest : string) (st : nat) (loc : SourceLocation) (ty : TokenType) :
  Lexer.singleCharOperator c = Some ty ->
  Ascii.eqb c "/" = false ->
  match rest with
  | EmptyString => True
  | String d _ => Lexer.twoCharOperator (String c (String d "")) = None
  end ->
  Lexer.nextToken_rec n
    (Lexer.mk (pre ++ String c rest) (String.length pre) st loc)
  = (Some (mkToken ty (String c "") (SourceLocation_advance loc c)),
     Lexer.mk (pre ++ String c rest) (S (String.length pre))
              (String.length pre) (SourceLocation_advance loc c)).
Proof.
  intros Hop Hslash Htwo.
  assert (Hclass : isWhitespace c = false /\ isAlpha c = false
                   /\ isDigit c = false /\ Ascii.eqb c dquote = false).
  { clear -Hop. destruct c as [[] [] [] [] [] [] [] []];
      vm_compute in Hop; try discriminate Hop; repeat split. }
  destruct Hclass as (Hws & Ha & Hd & Hq).
  rewrite nextToken_rec_unfold.
  rewrite (skipWhitespace_none _ _ pre (String c rest));
    [|reflexivity|reflexivity|exact Hws].
  cbv zeta. rewrite isAtEnd_mid. unfold Lexer.set_start.
  cbn [Lexer.source_ Lexer.current_ Lexer.location_].
  rewrite advance_mid, Hslash, Ha, Hd, Hq.
  unfold Lexer.readOperator.
  cbn [Lexer.source_ Lexer.current_ Lexer.location_].
  replace (S (String.length pre) - 1) with (String.length pre) by lia.
  rewrite at_mid.
  destruct rest as [|d rest].
  - rewrite cursor_shift, string_app_nil_r, isAtEnd_end.
    unfold Lexer.readOperator_single. rewrite Hop.
    cbn [negb Lexer.location_].
    now rewrite string_length_snoc.
  - rewrite cursor_shift, isAtEnd_mid, peek_mid. cbn [negb]. rewrite Htwo.
    unfold Lexer.readOperator_single. rewrite Hop.
    cbn [Lexer.location_].
    now rewrite <- string_snoc_app, string_length_snoc.
Qed.

Lemma tokenize_loop_end (n : nat) (src : string) (st : nat)
    (loc : SourceLocation) (tokens : list Token) :
  Lexer.tokenize_loop n (Lexer.mk src (String.length src) st loc) tokens
  = (tokens, Lexer.mk src (String.length src) st loc).
Proof.
  destruct n; [reflexivity|]. cbn [Lexer.tokenize_loop].
  now rewrite isAtEnd_end.
Qed.

(** C5 (as amended).  A token that starts with a digit is the greedy digit
    run, and it is a FLOAT exactly when a [.] follows that run: the [.] and
    the (possibly empty) digit run after it then belong to the token, and
    nothing beyond it does, so a second [.] ends the number.  Otherwise it
    is an INTEGER.  [number_lexeme] spells this out. *)
Theorem C5_number_token (pre : string) (c : ascii) (s : string) (st : nat)
    (loc : SourceLocation) :
  isDigit c = true ->
  Lexer.nextToken (Lexer.mk (pre ++ String c s) (String.length pre) st loc)
  = (Some (mkToken (fst (number_lexeme (String c s)))
                   (snd (number_lexeme (String c s)))
                   (advance_string loc (snd (number_lexeme (String c s))))),
     Lexer.mk (pre ++ String c s)
       (String.length pre + String.length (snd (number_lexeme (String c s))))
       (String.length pre)
       (advance_string loc (snd (number_lexeme (String c s))))).
Proof. intros Hc. unfold Lexer.nextToken. now apply nextToken_rec_number. Qed.

Lemma C5_number_token_witness :
  Lexer.nextToken (Lexer.mk ("x = " ++ "1.2.3;") 4 0 (mkLoc 1 5 4))
  = (Some (mkToken FLOAT "1.2" (mkLoc 1 8 7)),
     Lexer.mk "x = 1.2.3;" 7 4 (mkLoc 1 8 7)).
Proof. apply (C5_number_token "x = " "1" ".2.3;" 0 (mkLoc 1 5 4)). reflexivity. Defined.

(** The claim of C5 as the specification words it fails: [1.] followed by
    a character that is not a digit is a FLOAT token [1.], not an INTEGER
    token [1]. *)
Lemma C5_counterexample :
  kinds (tokenize "1.;") = [(FLOAT, "1."); (SEMICOLON, ";"); (END_OF_FILE, "")]
  /\ head (kinds (tokenize "1.;")) <> Some (INTEGER, "1").
Proof. split; [reflexivity | discriminate]. Qed.

(** A second decimal point ends the number. *)
Example second_point_ends_number :
  kinds (tokenize "1.2.3")
  = [(FLOAT, "1.2"); (DOT, "."); (INTEGER, "3"); (END_OF_FILE, "")].
Proof. reflexivity. Qed.

(* ===================================================================== *)
(** ** Lexer.cpp: the scanner reads the whole input *)
(* ===================================================================== *)

Lemma advanced_refl (lx : Lexer.t) : advanced lx lx.
Proof. split; [reflexivity | lia]. Qed.

Lemma advanced_trans (lx1 lx2 lx3 : Lexer.t) :
  advanced lx1 lx2 -> advanced lx2 lx3 -> advanced lx1 lx3.
Proof. intros [H1 H2] [K1 K2]. split; [congruence | lia]. Qed.

Lemma advance_advanced (lx : Lexer.t) : advanced lx (snd (Lexer.advance lx)).
Proof.
  unfold Lexer.advance. destruct (Lexer.isAtEnd lx); simpl.
  - apply advanced_refl.
  - split; simpl; [reflexivity | lia].
Qed.

Lemma advance_progress (lx : Lexer.t) :
  Lexer.isAtEnd lx = false ->
  Lexer.current_ (snd (Lexer.advance lx)) = S (Lexer.current_ lx).
Proof. intros H. unfold Lexer.advance. now rewrite H. Qed.

Lemma match_advanced (c : ascii) (lx : Lexer.t) :
  advanced lx (snd (Lexer.match_ c lx)).
Proof.
  unfold Lexer.match_. destruct (Lexer.isAtEnd lx); simpl.
  - apply advanced_refl.
  - destruct (negb _); simpl; [apply advanced_refl|].
    split; simpl; [reflexivity | lia].
Qed.

Lemma skipWhitespace_advanced (lx : Lexer.t) :
  advanced lx (Lexer.skipWhitespace lx).
Proof.
  unfold Lexer.skipWhitespace. generalize (Lexer.remaining lx) as n.
  intros n. revert lx. induction n as [|n IH]; intros lx; simpl.
  - apply advanced_refl.
  - destruct (_ && _); [|apply advanced_refl].
    eapply advanced_trans; [apply advance_advanced | apply IH].
Qed.

Lemma skipComment_advanced (lx : Lexer.t) :
  advanced lx (Lexer.skipComment lx).
Proof.
  unfold Lexer.skipComment. generalize (Lexer.remaining lx) as n.
  intros n. revert lx. induction n as [|n IH]; intros lx; simpl.
  - apply advanced_refl.
  - destruct (_ && _); [|apply advanced_refl].
    eapply advanced_trans; [apply advance_advanced | apply IH].
Qed.

Lemma readIdentifier_advanced (lx : Lexer.t) :
  advanced lx (snd (Lexer.readIdentifier lx)).
Proof.
  unfold Lexer.readIdentifier.
  assert (H : advanced lx (Lexer.readIdentifier_loop (Lexer.remaining lx) lx)).
  { generalize (Lexer.remaining lx) as n. intros n. revert lx.
    induction n as [|n IH]; intros lx; simpl.
    - apply advanced_refl.
    - destruct (_ && _); [|apply advanced_refl].
      eapply advanced_trans; [apply advance_advanced | apply IH]. }
  now destruct (Lexer.keywords_ !! _).
Qed.

Lemma readNumber_advanced (lx : Lexer.t) :
  advanced lx (snd (Lexer.readNumber lx)).
Proof.
  unfold Lexer.readNumber.
  assert (H : forall n hd lx,
             advanced lx (snd (Lexer.readNumber_loop n hd lx))).
  { clear lx. induction n as [|n IH]; intros hd lx; simpl.
    - apply advanced_refl.
    - destruct (_ && _); [|apply advanced_refl].
      eapply advanced_trans; [apply advance_advanced | apply IH]. }
  specialize (H (Lexer.remaining lx) false lx).
  now destruct (Lexer.readNumber_loop _ _ _).
Qed.

Lemma readString_advanced (lx : Lexer.t) :
  advanced lx (snd (Lexer.readString lx)).
Proof.
  unfold Lexer.readString.
  assert (H : forall n lx,
             match Lexer.readString_loop n lx with
             | inl r => advanced lx (snd r)
             | inr lx' => advanced lx lx'
             end).
  { clear lx. induction n as [|n IH]; intros lx; simpl.
    - apply advanced_refl.
    - destruct (_ && _); [|apply advanced_refl].
      destruct (Ascii.eqb _ _); [apply advanced_refl|].
      specialize (IH (snd (Lexer.advance lx))).
      destruct (Lexer.readString_loop n _);
        (eapply advanced_trans; [apply advance_advanced | exact IH]). }
  specialize (H (Lexer.remaining lx) lx).
  destruct (Lexer.readString_loop _ _) as [r|lx']; [exact H|].
  destruct (Lexer.isAtEnd lx'); simpl; [exact H|].
  eapply advanced_trans; [exact H | apply advance_advanced].
Qed.

Lemma readOperator_advanced (lx : Lexer.t) :
  advanced lx (snd (Lexer.readOperator lx)).
Proof.
  unfold Lexer.readOperator, Lexer.readOperator_single.
  destruct (negb _).
  - destruct (Lexer.twoCharOperator _); simpl.
    + apply advance_advanced.
    + destruct (Lexer.singleCharOperator _); apply advanced_refl.
  - destruct (Lexer.singleCharOperator _); apply advanced_refl.
Qed.

(** A call of [nextToken] that does not start at the end of the input
    moves the cursor. *)
Lemma nextToken_rec_progress (n : nat) :
  forall lx,
    Lexer.isAtEnd lx = false ->
    Lexer.source_ (snd (Lexer.nextToken_rec n lx)) = Lexer.source_ lx
    /\ Lexer.current_ lx < Lexer.current_ (snd (Lexer.nextToken_rec n lx)).
Proof.
  assert (Hend : forall lx lx', advanced lx lx' -> Lexer.isAtEnd lx = false ->
                   Lexer.isAtEnd lx' = true ->
                   Lexer.current_ lx < Lexer.current_ lx').
  { intros lx lx' [Hs Hc] H1 H2. unfold Lexer.isAtEnd in *.
    rewrite Hs in H2. apply Nat.leb_gt in H1. apply Nat.leb_le in H2. lia. }
  assert (Hstep : forall lx lx' lx'', advanced lx lx' ->
                    Lexer.isAtEnd lx' = false ->
                    advanced (snd (Lexer.advance (Lexer.set_start lx'))) lx'' ->
                    Lexer.source_ lx'' = Lexer.source_ lx
                    /\ Lexer.current_ lx < Lexer.current_ lx'').
  { intros lx lx' lx'' [Hs Hc] Hne [Ks Kc].
    assert (Hne' : Lexer.isAtEnd (Lexer.set_start lx') = false) by exact Hne.
    pose proof (advance_progress _ Hne') as Hp.
    pose proof (advance_advanced (Lexer.set_start lx')) as [Hs' _].
    simpl in Hp, Hs'. split; [congruence | lia]. }
  induction n as [|n IH]; intros lx Hne; rewrite nextToken_rec_unfold;
    cbv zeta;
    pose proof (skipWhitespace_advanced lx) as Hws;
    destruct (Lexer.isAtEnd (Lexer.skipWhitespace lx)) eqn:Hat.
  1, 3: (split; [apply Hws | now apply Hend]).
  all: destruct (Lexer.advance (Lexer.set_start (Lexer.skipWhitespace lx)))
         as [c lx1] eqn:Hadv;
       assert (Hlx1 : lx1 = snd (Lexer.advance
                                   (Lexer.set_start (Lexer.skipWhitespace lx))))
         by now rewrite Hadv.
  all: destruct (if Ascii.eqb c "/" then Lexer.match_ "/" lx1 else (false, lx1))
         as [isComment lx2] eqn:Hcomment;
       assert (Hlx2 : advanced lx1 lx2)
         by (destruct (Ascii.eqb c "/");
             [ replace lx2 with (snd (Lexer.match_ "/" lx1))
                 by (now rewrite Hcomment);
               apply match_advanced
             | injection Hcomment as _ <-; apply advanced_refl ]).
  all: destruct isComment.
  - apply (Hstep lx _ _ Hws Hat). rewrite <- Hlx1.
    eapply advanced_trans; [exact Hlx2 | apply skipComment_advanced].
  - apply (Hstep lx _ _ Hws Hat). rewrite <- Hlx1.
    destruct (isAlpha c).
    { pose proof (readIdentifier_advanced lx2) as H.
      destruct (Lexer.readIdentifier lx2).
      eapply advanced_trans; [exact Hlx2 | exact H]. }
    destruct (isDigit c).
    { pose proof (readNumber_advanced lx2) as H.
      destruct (Lexer.readNumber lx2).
      eapply advanced_trans; [exact Hlx2 | exact H]. }
    destruct (Ascii.eqb c dquote).
    { pose proof (readString_advanced lx2) as H.
      destruct (Lexer.readString lx2).
      eapply advanced_trans; [exact Hlx2 | exact H]. }
    pose proof (readOperator_advanced lx2) as H.
    destruct (Lexer.readOperator lx2).
    eapply advanced_trans; [exact Hlx2 | exact H].
  - pose proof (skipComment_advanced lx2) as Hsc.
    assert (Hbase : Lexer.source_ (Lexer.skipComment lx2) = Lexer.source_ lx
                    /\ Lexer.current_ lx < Lexer.current_ (Lexer.skipComment lx2)).
    { apply (Hstep lx _ _ Hws Hat). rewrite <- Hlx1.
      eapply advanced_trans; [exact Hlx2 | exact Hsc]. }
    destruct (Lexer.isAtEnd (Lexer.skipComment lx2)) eqn:Hat2.
    + rewrite nextToken_rec_unfold. cbv zeta.
      pose proof (skipWhitespace_advanced (Lexer.skipComment lx2)) as [Ws Wc].
      assert (Hat3 : Lexer.isAtEnd
                       (Lexer.skipWhitespace (Lexer.skipComment lx2)) = true).
      { unfold Lexer.isAtEnd in *. rewrite Ws.
        apply Nat.leb_le in Hat2. apply Nat.leb_le. lia. }
      rewrite Hat3. simpl. destruct Hbase. split; [congruence | lia].
    + destruct (IH _ Hat2) as [Is Ic]. destruct Hbase.
      split; [congruence | lia].
  - apply (Hstep lx _ _ Hws Hat). rewrite <- Hlx1.
    destruct (isAlpha c).
    { pose proof (readIdentifier_advanced lx2) as H.
      destruct (Lexer.readIdentifier lx2).
      eapply advanced_trans; [exact Hlx2 | exact H]. }
    destruct (isDigit c).
    { pose proof (readNumber_advanced lx2) as H.
      destruct (Lexer.readNumber lx2).
      eapply advanced_trans; [exact Hlx2 | exact H]. }
    destruct (Ascii.eqb c dquote).
    { pose proof (readString_advanced lx2) as H.
      destruct (Lexer.readString lx2).
      eapply advanced_trans; [exact Hlx2 | exact H]. }
    pose proof (readOperator_advanced lx2) as H.
    destruct (Lexer.readOperator lx2).
    eapply advanced_trans; [exact Hlx2 | exact H].
Qed.

(** The loop of [tokenize] leaves by its condition: with the iterations
    the model grants it, it ends at the end of the input. *)
Lemma tokenize_loop_reaches_end (n : nat) :
  forall lx tokens,
    Lexer.remaining lx < n ->
    Lexer.isAtEnd (snd (Lexer.tokenize_loop n lx tokens)) = true.
Proof.
  induction n as [|n IH]; intros lx tokens Hn; [lia|].
  cbn [Lexer.tokenize_loop].
  destruct (Lexer.isAtEnd lx) eqn:Hat; [exact Hat|]. cbn [negb].
  assert (Hat' : Lexer.isAtEnd (Lexer.set_start lx) = false) by exact Hat.
  destruct (nextToken_rec_progress
              (Lexer.remaining (Lexer.set_start lx)) _ Hat') as [Hs Hc].
  unfold Lexer.nextToken.
  destruct (Lexer.nextToken_rec _ _) as [tok lx'].
  apply IH. simpl in Hs, Hc. unfold Lexer.isAtEnd in Hat.
  apply Nat.leb_gt in Hat. unfold Lexer.remaining in *. rewrite Hs. lia.
Qed.

(** X1.  [tokenize] stops because [isAtEnd()] holds, never because the bound of
    the model is used up. *)
Theorem tokenize_reads_whole_input (source : string) :
  Lexer.isAtEnd (snd (Lexer.tokenize (Lexer.new source))) = true.
Proof.
  unfold Lexer.tokenize.
  pose proof (tokenize_loop_reaches_end
                (S (Lexer.remaining (Lexer.new source)))
                (Lexer.new source) [] ltac:(lia)) as H.
  now destruct (Lexer.tokenize_loop _ _ _).
Qed.

(** The recursion of [nextToken] after a comment: the characters left
    bound its depth, so the result does not depend on the bound. *)
Lemma nextToken_rec_bound (n : nat) :
  forall lx m,
    Lexer.remaining lx <= n ->
    Lexer.remaining lx <= m ->
    Lexer.nextToken_rec n lx = Lexer.nextToken_rec m lx.
Proof.
  induction n as [|n IH]; intros lx m Hn Hm;
    rewrite (nextToken_rec_unfold _ lx), (nextToken_rec_unfold m lx);
    cbv zeta;
    pose proof (skipWhitespace_advanced lx) as [Ws Wc];
    (destruct (Lexer.isAtEnd (Lexer.skipWhitespace lx)) eqn:Hat;
       [reflexivity|]);
    (destruct (Lexer.advance (Lexer.set_start (Lexer.skipWhitespace lx)))
       as [c lx1] eqn:Hadv);
    (destruct (if Ascii.eqb c "/" then Lexer.match_ "/" lx1 else (false, lx1))
       as [isComment lx2] eqn:Hcomment);
    (destruct isComment; [|reflexivity]);
    assert (Hlt : Lexer.remaining (Lexer.skipComment lx2)
                  < Lexer.remaining lx).
  1, 3:
    (assert (Hat' : Lexer.isAtEnd
                      (Lexer.set_start (Lexer.skipWhitespace lx)) = false)
       by exact Hat;
     pose proof (advance_progress _ Hat') as Hp;
     pose proof (advance_advanced
                   (Lexer.set_start (Lexer.skipWhitespace lx))) as [As _];
     rewrite Hadv in Hp, As; simpl in Hp, As;
     assert (Hm2 : advanced lx1 lx2)
       by (destruct (Ascii.eqb c "/");
           [ replace lx2 with (snd (Lexer.match_ "/" lx1))
               by (now rewrite Hcomment);
             apply match_advanced
           | injection Hcomment as _ <-; apply advanced_refl ]);
     destruct Hm2 as [Ms Mc];
     pose proof (skipComment_advanced lx2) as [Cs Cc];
     unfold Lexer.isAtEnd in Hat; apply Nat.leb_gt in Hat;
     unfold Lexer.remaining; rewrite Cs, Ms, As, Ws in *; lia).
  - lia.
  - destruct m as [|m]; [lia|]. apply IH; lia.
Qed.

Lemma nextToken_bound (n : nat) (lx : Lexer.t) :
  Lexer.remaining lx <= n ->
  Lexer.nextToken lx = Lexer.nextToken_rec n lx.
Proof.
  intros Hn. unfold Lexer.nextToken. now apply nextToken_rec_bound.
Qed.

(* ===================================================================== *)
(** ** Lexer.cpp: integer literals and operators in a row *)
(* ===================================================================== *)

Lemma digit_run_app (ds post : string) :
  all_chars isDigit ds = true ->
  stops isDigit post ->
  digit_run (ds ++ post) = (ds, post).
Proof.
  intros Hds Hstop. induction ds as [|c ds IH]; simpl.
  - destruct post as [|d post]; [reflexivity|].
    simpl in *. now rewrite Hstop.
  - simpl in Hds. apply andb_true_iff in Hds as [Hc Hds].
    now rewrite Hc, IH.
Qed.

Lemma number_lexeme_integer (ds post : string) :
  all_chars isDigit ds = true ->
  stops continues_number post ->
  number_lexeme (ds ++ post) = (INTEGER, ds).
Proof.
  intros Hds Hstop. unfold number_lexeme.
  rewrite digit_run_app; [|exact Hds|].
  - destruct post as [|d post]; [reflexivity|].
    simpl in Hstop. apply orb_false_iff in Hstop as [_ Hdot].
    destruct d as [[] [] [] [] [] [] [] []]; try reflexivity; discriminate.
  - destruct post as [|d post]; [exact I|].
    simpl in *. now apply orb_false_iff in Hstop as [Hd _].
Qed.

(** An integer literal, after white space. *)
Lemma nextToken_rec_integer (m : nat) (src : string) (cur : nat)
    (pre ws ds post : string) (st : nat) (loc : SourceLocation) :
  src = pre ++ ws ++ ds ++ post ->
  cur = String.length pre ->
  all_chars isWhitespace ws = true ->
  integer_literal ds = true ->
  stops continues_number post ->
  Lexer.nextToken_rec m (Lexer.mk src cur st loc)
  = (Some (mkToken INTEGER ds (advance_string (advance_string loc ws) ds)),
     Lexer.mk src (cur + String.length ws + String.length ds)
              (cur + String.length ws)
              (advance_string (advance_string loc ws) ds)).
Proof.
  intros Hsrc Hcur Hws Hds Hstop.
  destruct ds as [|c ds]; [discriminate|]. simpl in Hds.
  pose proof Hds as Hall. apply andb_true_iff in Hds as [Hc Hds].
  rewrite (nextToken_rec_whitespace m src cur pre ws (String c ds ++ post));
    [|exact Hsrc|exact Hcur|exact Hws
     |simpl; exact (digit_not_whitespace c Hc)].
  subst src cur. rewrite <- string_app_assoc, <- string_length_app.
  change (String c ds ++ post) with (String c (ds ++ post)).
  rewrite (nextToken_rec_number m (pre ++ ws) c (ds ++ post) _ _ Hc).
  change (String c (ds ++ post)) with (String c ds ++ post).
  now rewrite (number_lexeme_integer (String c ds) post Hall Hstop).
Qed.

(** A one-character operator or delimiter, after white space. *)
Lemma nextToken_rec_ws_operator (m : nat) (src : string) (cur : nat)
    (pre ws : string) (c : ascii) (rest : string) (st : nat)
    (loc : SourceLocation) (ty : TokenType) :
  src = pre ++ ws ++ String c rest ->
  cur = String.length pre ->
  all_chars isWhitespace ws = true ->
  Lexer.singleCharOperator c = Some ty ->
  Ascii.eqb c "/" = false ->
  match rest with
  | EmptyString => True
  | String d _ => Lexer.twoCharOperator (String c (String d "")) = None
  end ->
  Lexer.nextToken_rec m (Lexer.mk src cur st loc)
  = (Some (mkToken ty (String c "")
             (SourceLocation_advance (advance_string loc ws) c)),
     Lexer.mk src (S (cur + String.length ws)) (cur + String.length ws)
              (SourceLocation_advance (advance_string loc ws) c)).
Proof.
  intros Hsrc Hcur Hws Hop Hslash Htwo.
  assert (Hnws : isWhitespace c = false).
  { clear -Hop. destruct c as [[] [] [] [] [] [] [] []];
      vm_compute in Hop; try discriminate Hop; reflexivity. }
  rewrite (nextToken_rec_whitespace m src cur pre ws (String c rest));
    [|exact Hsrc|exact Hcur|exact Hws|exact Hnws].
  subst src cur. rewrite <- string_app_assoc, <- string_length_app.
  now apply nextToken_rec_operator.
Qed.

Lemma tokenize_loop_next (n : nat) (src : string) (cur st : nat)
    (loc : SourceLocation) (tok : Token) (lx' : Lexer.t)
    (tokens : list Token) :
  cur < String.length src ->
  (forall m, Lexer.nextToken_rec m (Lexer.mk src cur cur loc)
             = (Some tok, lx')) ->
  Lexer.tokenize_loop (S n) (Lexer.mk src cur st loc) tokens
  = Lexer.tokenize_loop n lx' (tokens ++ [tok])%list.
Proof.
  intros Hlt Hnext. cbn [Lexer.tokenize_loop].
  unfold Lexer.isAtEnd at 1. cbn [Lexer.source_ Lexer.current_].
  replace (String.length src <=? cur) with false
    by (symmetry; apply Nat.leb_gt; exact Hlt).
  cbn [negb]. unfold Lexer.nextToken, Lexer.set_start.
  cbn [Lexer.source_ Lexer.current_ Lexer.location_].
  now rewrite Hnext.
Qed.

Lemma tokenize_loop_done (n : nat) (src : string) (cur st : nat)
    (loc : SourceLocation) (tokens : list Token) :
  cur = String.length src ->
  Lexer.tokenize_loop n (Lexer.mk src cur st loc) tokens
  = (tokens, Lexer.mk src cur st loc).
Proof. intros ->. apply tokenize_loop_end. Qed.

Ltac solve_split :=
  unfold three_operands;
  repeat first [rewrite string_app_assoc | progress simpl]; reflexivity.

Ltac solve_length :=
  unfold three_operands;
  repeat first [rewrite string_length_app | progress simpl]; lia.

Lemma tokenize_three_operands (a b c : string) (op1 op2 : ascii)
    (ty1 ty2 : TokenType) :
  integer_literal a = true ->
  integer_literal b = true ->
  integer_literal c = true ->
  Lexer.singleCharOperator op1 = Some ty1 -> Ascii.eqb op1 "/" = false ->
  Lexer.twoCharOperator (String op1 " ") = None ->
  Lexer.singleCharOperator op2 = Some ty2 -> Ascii.eqb op2 "/" = false ->
  Lexer.twoCharOperator (String op2 " ") = None ->
  exists la l1 lb l2 lc lsemi,
    tokenize (three_operands a op1 b op2 c)
    = [mkToken INTEGER a la; mkToken ty1 (String op1 "") l1;
       mkToken INTEGER b lb; mkToken ty2 (String op2 "") l2;
       mkToken INTEGER c lc; mkToken SEMICOLON ";" lsemi;
       mkToken END_OF_FILE "" lsemi].
Proof.
  intros Ha Hb Hc Hop1 Hs1 Ht1 Hop2 Hs2 Ht2.
  do 6 eexists.
  unfold tokenize, Lexer.tokenize, Lexer.new, Lexer.remaining.
  cbn [Lexer.source_ Lexer.current_].
  set (src := three_operands a op1 b op2 c).
  assert (Hlen : String.length src - 0
                 = 6 + (String.length a + String.length b + String.length c
                        + 1)) by (subst src; solve_length).
  rewrite Hlen. cbn [Nat.add].
  erewrite tokenize_loop_next; cycle 1.
  { subst src. solve_length. }
  { intros m.
    apply (nextToken_rec_integer m src 0 "" "" a
             (String " " (String op1 (String " "
                (b ++ String " " (String op2 (String " " (c ++ ";")))))))).
    - reflexivity.
    - reflexivity.
    - reflexivity.
    - exact Ha.
    - reflexivity. }
  erewrite tokenize_loop_next; cycle 1.
  { subst src. solve_length. }
  { intros m.
    apply (nextToken_rec_ws_operator m src _ a " " op1
             (String " " (b ++ String " " (String op2 (String " " (c ++ ";")))))).
    - reflexivity.
    - simpl. lia.
    - reflexivity.
    - exact Hop1.
    - exact Hs1.
    - exact Ht1. }
  erewrite tokenize_loop_next; cycle 1.
  { subst src. solve_length. }
  { intros m.
    apply (nextToken_rec_integer m src _
             (a ++ String " " (String op1 "")) " " b
             (String " " (String op2 (String " " (c ++ ";"))))).
    - subst src. solve_split.
    - solve_length.
    - reflexivity.
    - exact Hb.
    - reflexivity. }
  erewrite tokenize_loop_next; cycle 1.
  { subst src. solve_length. }
  { intros m.
    apply (nextToken_rec_ws_operator m src _
             (a ++ String " " (String op1 (String " " b))) " " op2
             (String " " (c ++ ";"))).
    - subst src. solve_split.
    - solve_length.
    - reflexivity.
    - exact Hop2.
    - exact Hs2.
    - exact Ht2. }
  erewrite tokenize_loop_next; cycle 1.
  { subst src. solve_length. }
  { intros m.
    apply (nextToken_rec_integer m src _
             (a ++ String " " (String op1 (String " "
                (b ++ String " " (String op2 ""))))) " " c ";").
    - subst src. solve_split.
    - solve_length.
    - reflexivity.
    - exact Hc.
    - reflexivity. }
  erewrite tokenize_loop_next; cycle 1.
  { subst src. solve_length. }
  { intros m.
    apply (nextToken_rec_ws_operator m src _
             (a ++ String " " (String op1 (String " "
                (b ++ String " " (String op2 (String " " c)))))) "" ";" "").
    - subst src. solve_split.
    - solve_length.
    - reflexivity.
    - reflexivity.
    - reflexivity.
    - exact I. }
  rewrite tokenize_loop_done by (subst src; solve_length).
  reflexivity.
Qed.

(* ===================================================================== *)
(** ** Parser.cpp: precedence of [+] and [*] *)
(* ===================================================================== *)

Section ParserOnTokens.

Variables (a b c : string).
Variables (la l1 lb l2 lc lsemi leof : SourceLocation).

Lemma parse_sum_of_product :
  parse [mkToken INTEGER a la; mkToken PLUS "+" l1; mkToken INTEGER b lb;
         mkToken MULTIPLY "*" l2; mkToken INTEGER c lc;
         mkToken SEMICOLON ";" lsemi; mkToken END_OF_FILE "" leof]
  = Parser.Ok
      (mkProgram
         [ExpressionStatement
            (BinaryExpression (LiteralExpression a INT la) OP_ADD
               (BinaryExpression (LiteralExpression b INT lb) OP_MULTIPLY
                  (LiteralExpression c INT lc) l2) l1) lsemi])
      (Parser.mk
         [mkToken INTEGER a la; mkToken PLUS "+" l1; mkToken INTEGER b lb;
          mkToken MULTIPLY "*" l2; mkToken INTEGER c lc;
          mkToken SEMICOLON ";" lsemi; mkToken END_OF_FILE "" leof]
         6 false false).
Proof. vm_compute. reflexivity. Qed.

Lemma parse_product_plus :
  parse [mkToken INTEGER a la; mkToken MULTIPLY "*" l1; mkToken INTEGER b lb;
         mkToken PLUS "+" l2; mkToken INTEGER c lc;
         mkToken SEMICOLON ";" lsemi; mkToken END_OF_FILE "" leof]
  = Parser.Ok
      (mkProgram
         [ExpressionStatement
            (BinaryExpression
               (BinaryExpression (LiteralExpression a INT la) OP_MULTIPLY
                  (LiteralExpression b INT lb) l1)
               OP_ADD (LiteralExpression c INT lc) l2) lsemi])
      (Parser.mk
         [mkToken INTEGER a la; mkToken MULTIPLY "*" l1; mkToken INTEGER b lb;
          mkToken PLUS "+" l2; mkToken INTEGER c lc;
          mkToken SEMICOLON ";" lsemi; mkToken END_OF_FILE "" leof]
         6 false false).
Proof. vm_compute. reflexivity. Qed.

(** Two operators of one level, as tokens: the earlier one is applied
    first. *)
Lemma parse_same_level (ty1 ty2 : TokenType) (s1 s2 : string)
    (o1 o2 : OperatorType) :
  (((ty1 = PLUS /\ o1 = OP_ADD) \/ (ty1 = MINUS /\ o1 = OP_SUBTRACT))
   /\ ((ty2 = PLUS /\ o2 = OP_ADD) \/ (ty2 = MINUS /\ o2 = OP_SUBTRACT)))
  \/ (((ty1 = MULTIPLY /\ o1 = OP_MULTIPLY) \/ (ty1 = MODULO /\ o1 = OP_MODULO))
      /\ ((ty2 = MULTIPLY /\ o2 = OP_MULTIPLY)
          \/ (ty2 = MODULO /\ o2 = OP_MODULO))) ->
  parse [mkToken INTEGER a la; mkToken ty1 s1 l1; mkToken INTEGER b lb;
         mkToken ty2 s2 l2; mkToken INTEGER c lc;
         mkToken SEMICOLON ";" lsemi; mkToken END_OF_FILE "" leof]
  = Parser.Ok
      (mkProgram
         [ExpressionStatement
            (BinaryExpression
               (BinaryExpression (LiteralExpression a INT la) o1
                  (LiteralExpression b INT lb) l1)
               o2 (LiteralExpression c INT lc) l2) lsemi])
      (Parser.mk
         [mkToken INTEGER a la; mkToken ty1 s1 l1; mkToken INTEGER b lb;
          mkToken ty2 s2 l2; mkToken INTEGER c lc;
          mkToken SEMICOLON ";" lsemi; mkToken END_OF_FILE "" leof]
         6 false false).
Proof.
  intros [[[[-> ->] | [-> ->]] [[-> ->] | [-> ->]]]
         | [[[-> ->] | [-> ->]] [[-> ->] | [-> ->]]]];
    vm_compute; reflexivity.
Qed.

End ParserOnTokens.

Lemma term_operator_cases (op : ascii) (o : OperatorType) :
  term_operator op = Some o ->
  (op = "+"%char /\ o = OP_ADD) \/ (op = "-"%char /\ o = OP_SUBTRACT).
Proof.
  unfold term_operator.
  destruct (Ascii.eqb_spec op "+") as [-> | _]; [intros [= <-]; now left |].
  destruct (Ascii.eqb_spec op "-") as [-> | _]; [intros [= <-]; now right |].
  discriminate.
Qed.

Lemma factor_operator_cases (op : ascii) (o : OperatorType) :
  factor_operator op = Some o ->
  (op = "*"%char /\ o = OP_MULTIPLY) \/ (op = "%"%char /\ o = OP_MODULO).
Proof.
  unfold factor_operator.
  destruct (Ascii.eqb_spec op "*") as [-> | _]; [intros [= <-]; now left |].
  destruct (Ascii.eqb_spec op "%") as [-> | _]; [intros [= <-]; now right |].
  discriminate.
Qed.

(** The scanned text [a op1 b op2 c;] with two operators of one level. *)
Lemma parse_tokenize_same_level (a b c : string) (op1 op2 : ascii)
    (o1 o2 : OperatorType) :
  integer_literal a = true ->
  integer_literal b = true ->
  integer_literal c = true ->
  same_level op1 op2 o1 o2 ->
  exists la l1 lb l2 lc lstmt p,
    parse (tokenize (three_operands a op1 b op2 c))
    = Parser.Ok
        (mkProgram
           [ExpressionStatement
              (BinaryExpression
                 (BinaryExpression (LiteralExpression a INT la) o1
                    (LiteralExpression b INT lb) l1)
                 o2 (LiteralExpression c INT lc) l2) lstmt]) p.
Proof.
  intros Ha Hb Hc Hops.
  assert (Htys : exists ty1 ty2,
             Lexer.singleCharOperator op1 = Some ty1
             /\ Ascii.eqb op1 "/" = false
             /\ Lexer.twoCharOperator (String op1 " ") = None
             /\ Lexer.singleCharOperator op2 = Some ty2
             /\ Ascii.eqb op2 "/" = false
             /\ Lexer.twoCharOperator (String op2 " ") = None
             /\ ((((ty1 = PLUS /\ o1 = OP_ADD)
                   \/ (ty1 = MINUS /\ o1 = OP_SUBTRACT))
                  /\ ((ty2 = PLUS /\ o2 = OP_ADD)
                      \/ (ty2 = MINUS /\ o2 = OP_SUBTRACT)))
                 \/ (((ty1 = MULTIPLY /\ o1 = OP_MULTIPLY)
                      \/ (ty1 = MODULO /\ o1 = OP_MODULO))
                     /\ ((ty2 = MULTIPLY /\ o2 = OP_MULTIPLY)
                         \/ (ty2 = MODULO /\ o2 = OP_MODULO))))).
  { destruct Hops as [[H1 H2] | [H1 H2]].
    - apply term_operator_cases in H1, H2.
      destruct H1 as [[-> ->] | [-> ->]], H2 as [[-> ->] | [-> ->]];
        do 2 eexists; repeat (split; [reflexivity |]); left; split; tauto.
    - apply factor_operator_cases in H1, H2.
      destruct H1 as [[-> ->] | [-> ->]], H2 as [[-> ->] | [-> ->]];
        do 2 eexists; repeat (split; [reflexivity |]); right; split; tauto. }
  destruct Htys as (ty1 & ty2 & Hs1 & Hn1 & Ht1 & Hs2 & Hn2 & Ht2 & Hlevel).
  destruct (tokenize_three_operands a b c op1 op2 ty1 ty2 Ha Hb Hc
              Hs1 Hn1 Ht1 Hs2 Hn2 Ht2)
    as (la & l1 & lb & l2 & lc & ls & Htok).
  rewrite Htok. exists la, l1, lb, l2, lc, ls.
  eexists. now apply parse_same_level.
Qed.

(** C8. For integer literals [a], [b], [c] (non-empty digit strings), the
    text [a + b * c;] is parsed, without a diagnostic, to the expression
    statement of Binary(a, +, Binary(b, *, c)), and [a * b + c;] to that of
    Binary(Binary(a, *, b), +, c); and two operators of the same level
    associate to the left: for [op1], [op2] both among [+], [-], or both
    among [*], [%], the text [a op1 b op2 c;] is parsed to the expression
    statement of Binary(Binary(a, op1, b), op2, c).  The locations of the
    nodes are whatever the scanner assigned. *)
Theorem C8_precedence (a b c : string) :
  integer_literal a = true ->
  integer_literal b = true ->
  integer_literal c = true ->
  (exists la l1 lb l2 lc lstmt p,
     parse (tokenize (a ++ " + " ++ b ++ " * " ++ c ++ ";"))
     = Parser.Ok
         (mkProgram
            [ExpressionStatement
               (BinaryExpression (LiteralExpression a INT la) OP_ADD
                  (BinaryExpression (LiteralExpression b INT lb) OP_MULTIPLY
                     (LiteralExpression c INT lc) l2) l1) lstmt]) p)
  /\ (exists la l1 lb l2 lc lstmt p,
        parse (tokenize (a ++ " * " ++ b ++ " + " ++ c ++ ";"))
        = Parser.Ok
            (mkProgram
               [ExpressionStatement
                  (BinaryExpression
                     (BinaryExpression (LiteralExpression a INT la)
                        OP_MULTIPLY (LiteralExpression b INT lb) l1)
                     OP_ADD (LiteralExpression c INT lc) l2) lstmt]) p)
  /\ (forall (op1 op2 : ascii) (o1 o2 : OperatorType),
        same_level op1 op2 o1 o2 ->
        exists la l1 lb l2 lc lstmt p,
          parse (tokenize (three_operands a op1 b op2 c))
          = Parser.Ok
              (mkProgram
                 [ExpressionStatement
                    (BinaryExpression
                       (BinaryExpression (LiteralExpression a INT la) o1
                          (LiteralExpression b INT lb) l1)
                       o2 (LiteralExpression c INT lc) l2) lstmt]) p).
Proof.
  intros Ha Hb Hc. split; [| split].
  - destruct (tokenize_three_operands a b c "+" "*" PLUS MULTIPLY Ha Hb Hc)
      as (la & l1 & lb & l2 & lc & ls & Htok); try reflexivity.
    change (a ++ " + " ++ b ++ " * " ++ c ++ ";")
      with (three_operands a "+" b "*" c).
    rewrite Htok. exists la, l1, lb, l2, lc, ls.
    eexists. apply parse_sum_of_product.
  - destruct (tokenize_three_operands a b c "*" "+" MULTIPLY PLUS Ha Hb Hc)
      as (la & l1 & lb & l2 & lc & ls & Htok); try reflexivity.
    change (a ++ " * " ++ b ++ " + " ++ c ++ ";")
      with (three_operands a "*" b "+" c).
    rewrite Htok. exists la, l1, lb, l2, lc, ls.
    eexists. apply parse_product_plus.
  - intros op1 op2 o1 o2. now apply parse_tokenize_same_level.
Qed.

Lemma C8_precedence_witness :
  (exists la l1 lb l2 lc lstmt p,
     parse (tokenize "12 + 3 * 45;")
     = Parser.Ok
         (mkProgram
            [ExpressionStatement
               (BinaryExpression (LiteralExpression "12" INT la) OP_ADD
                  (BinaryExpression (LiteralExpression "3" INT lb) OP_MULTIPLY
                     (LiteralExpression "45" INT lc) l2) l1) lstmt]) p)
  /\ (exists la l1 lb l2 lc lstmt p,
        parse (tokenize "12 * 3 + 45;")
        = Parser.Ok
            (mkProgram
               [ExpressionStatement
                  (BinaryExpression
                     (BinaryExpression (LiteralExpression "12" INT la)
                        OP_MULTIPLY (LiteralExpression "3" INT lb) l1)
                     OP_ADD (LiteralExpression "45" INT lc) l2) lstmt]) p)
  /\ (exists la l1 lb l2 lc lstmt p,
        parse (tokenize "12 - 3 - 45;")
        = Parser.Ok
            (mkProgram
               [ExpressionStatement
                  (BinaryExpression
                     (BinaryExpression (LiteralExpression "12" INT la)
                        OP_SUBTRACT (LiteralExpression "3" INT lb) l1)
                     OP_SUBTRACT (LiteralExpression "45" INT lc) l2) lstmt])
            p)
  /\ (exists la l1 lb l2 lc lstmt p,
        parse (tokenize "12 * 3 % 45;")
        = Parser.Ok
            (mkProgram
               [ExpressionStatement
                  (BinaryExpression
                     (BinaryExpression (LiteralExpression "12" INT la)
                        OP_MULTIPLY (LiteralExpression "3" INT lb) l1)
                     OP_MODULO (LiteralExpression "45" INT lc) l2) lstmt]) p).
Proof.
  destruct (C8_precedence "12" "3" "45" eq_refl eq_refl eq_refl)
    as (Hsum & Hproduct & Hlevel).
  split; [exact Hsum | split; [exact Hproduct | split]].
  - exact (Hlevel "-"%char "-"%char OP_SUBTRACT OP_SUBTRACT
             (or_introl (conj eq_refl eq_refl))).
  - exact (Hlevel "*"%char "%"%char OP_MULTIPLY OP_MODULO
             (or_intror (conj eq_refl eq_refl))).
Defined.

(* ===================================================================== *)
(** ** Parser.cpp against Lexer.cpp: [/] and [:] *)
(* ===================================================================== *)

(** The scanner's token for [/] is DIVIDE; [parseFactor] tests for SLASH.
    On [a / b ;] the factor loop therefore ends after [a], and
    [parseExpressionStatement] does not find its semicolon. *)
Lemma parse_divide_tokens (ta tb : Token) (ldiv lsemi leof : SourceLocation) :
  operand_token ta = true ->
  exists p,
    parse [ta; mkToken DIVIDE "/" ldiv; tb; mkToken SEMICOLON ";" lsemi;
           mkToken END_OF_FILE "" leof]
    = Parser.Throw
        (CompilerError_new
           (what (CompilerError_new "Expect ';' after expression." ldiv))
           ldiv) p.
Proof.
  destruct ta as [ty v l]. unfold operand_token. simpl.
  destruct ty; intros H; try discriminate H; eexists; vm_compute; reflexivity.
Qed.

(** With a SLASH token in that place the parser builds the division. *)
Lemma parse_slash_tokens (a b : string)
    (la lslash lb lsemi leof : SourceLocation) :
  exists p,
    parse [mkToken IDENTIFIER a la; mkToken SLASH "/" lslash;
           mkToken IDENTIFIER b lb; mkToken SEMICOLON ";" lsemi;
           mkToken END_OF_FILE "" leof]
    = Parser.Ok
        (mkProgram
           [ExpressionStatement
              (BinaryExpression (VariableExpression a la) OP_DIVIDE
                 (VariableExpression b lb) lslash) lsemi]) p.
Proof. eexists. vm_compute. reflexivity. Qed.

(** C2 (the code departs from the claim).  The scanner turns [a / b;] into
    IDENTIFIER DIVIDE IDENTIFIER SEMICOLON, and the compilation ends in the
    parser's diagnostic instead of Binary(a, DIVIDE, b). *)
Theorem C2_division_is_not_parsed :
  kinds (tokenize "a / b;")
  = [(IDENTIFIER, "a"); (DIVIDE, "/"); (IDENTIFIER, "b"); (SEMICOLON, ";");
     (END_OF_FILE, "")]
  /\ compileFile false "a / b;"
     = CompilationError "1:4: 1:4: Expect ';' after expression."
  /\ compileFile false "1 / 2;"
     = CompilationError "1:4: 1:4: Expect ';' after expression.".
Proof. repeat split; vm_compute; reflexivity. Qed.

(** What the later stages make of [var x: int = 42;] when they are given
    the COLON token: no diagnostic, and [x] bound with type INT. *)
Lemma var_x_int_with_colon_token :
  (fun r => (fst r,
             Symbol.type <$>
               SymbolTable.lookup "x" (SemanticAnalyzer.symbolTable_ (snd r))))
    <$> analysis_of_tokens (with_colon (tokenize "var x: int = 42;"))
  = Some (true, Some INT).
Proof. vm_compute. reflexivity. Qed.

(** C1 (the code departs from the claim).  The scanner has no case for
    [:]: on [var x: int = 42;] it produces an ERROR token, and
    [compileFile] stops at its check for lexical errors, before parsing. *)
Theorem C1_colon_is_a_lexical_error :
  kinds (tokenize "var x: int = 42;")
  = [(VAR, "var"); (IDENTIFIER, "x"); (ERROR, "Unexpected character: :");
     (IDENTIFIER, "int"); (ASSIGN, "="); (INTEGER, "42"); (SEMICOLON, ";");
     (END_OF_FILE, "")]
  /\ compileFile false "var x: int = 42;"
     = LexicalError "Unexpected character: :".
Proof. split; vm_compute; reflexivity. Qed.

(* ===================================================================== *)
(** ** CodeGen.cpp: terminators *)
(* ===================================================================== *)

(** C3 (the code departs from the claim).  [function f() { return; return; }]
    passes every stage; [visitReturnStatement] emits its [ret] without
    looking at the block, so the entry block of [f] holds two terminators. *)
Theorem C3_two_returns_in_one_block :
  generated_blocks "function f() { return; return; }" 1
  = Some [IR.mkBlock "entry" [IR.RetVoid; IR.RetVoid]]
  /\ IR.allBlocksWellTerminated
       <$> generated_module "function f() { return; return; }"
     = Some false.
Proof. split; vm_compute; reflexivity. Qed.

(** Another shape of the same defect: a statement lowered after a
    [return] lands behind the terminator, and the block then gets a second
    one. *)
Example code_after_return :
  generated_blocks "function f() { var a = 1; return; a = 2; }" 1
  = Some [IR.mkBlock "entry"
            [IR.Alloca 0 IR.Int32Ty "a";
             IR.Store (IR.ConstantInt IR.Int32Ty 1) (IR.Inst 0 IR.PointerTy);
             IR.RetVoid;
             IR.Store (IR.ConstantInt IR.Int32Ty 2) (IR.Inst 0 IR.PointerTy);
             IR.RetVoid]].
Proof. vm_compute. reflexivity. Qed.

(* ===================================================================== *)
(** ** Semantic.cpp: what checking an expression leaves alone *)
(* ===================================================================== *)

Lemma extends_refl (a : SemanticAnalyzer.t) : extends a a.
Proof. repeat split. exists []. now rewrite app_nil_r. Qed.

Lemma extends_trans (a b c : SemanticAnalyzer.t) :
  extends a b -> extends b c -> extends a c.
Proof.
  intros (H1 & H2 & H3 & H4 & e1 & H5) (K1 & K2 & K3 & K4 & e2 & K5).
  repeat split; try congruence.
  exists (e1 ++ e2)%list. now rewrite K5, H5, app_assoc.
Qed.

Lemma extends_reportError (m : string) (l : SourceLocation)
    (a : SemanticAnalyzer.t) :
  extends a (SemanticAnalyzer.reportError m l a).
Proof. repeat split. now exists [format_diagnostic l m]. Qed.

Lemma extends_set_type (ty : DataType) (a : SemanticAnalyzer.t) :
  extends a (SemanticAnalyzer.set_currentExpressionType ty a).
Proof. repeat split. exists []. simpl. now rewrite app_nil_r. Qed.

Lemma checkArguments_extends (visit : Expression -> SemanticAnalyzer.t
                                       -> SemanticAnalyzer.t)
    (parameterTypes : list DataType) (l : SourceLocation)
    (arguments : list Expression) :
  Forall (fun e => forall a, extends a (visit e a)) arguments ->
  forall i a,
    extends a (SemanticAnalyzer.checkArguments visit parameterTypes l
                 arguments i a).
Proof.
  induction 1 as [|arg args Harg Hargs IHloop]; intros i a.
  - apply extends_refl.
  - simpl. eapply extends_trans; [|apply IHloop].
    destruct (negb _).
    + eapply extends_trans; [apply Harg|apply extends_reportError].
    + apply Harg.
Qed.

Lemma visitExpression_extends (e : Expression) :
  forall a, extends a (SemanticAnalyzer.visitExpression e a).
Proof.
  induction e as [v ty l | n l | e1 op e2 l IH1 IH2 | op e l IH | n e l IH
                 | n args l IHargs] using Expression_nested_ind; intros a.
  - apply extends_set_type.
  - simpl. destruct (SymbolTable.lookup n _).
    + apply extends_set_type.
    + unfold SemanticAnalyzer.undefinedVariable.
      eapply extends_trans; [apply extends_reportError|apply extends_set_type].
  - simpl.
    assert (H : extends a (SemanticAnalyzer.visitExpression e2
                             (SemanticAnalyzer.visitExpression e1 a)))
      by (eapply extends_trans; [apply IH1 | apply IH2]).
    destruct (bool_decide _).
    + eapply extends_trans; [exact H|].
      eapply extends_trans; [apply extends_set_type|apply extends_reportError].
    + eapply extends_trans; [exact H|apply extends_set_type].
  - simpl. destruct (bool_decide _).
    + eapply extends_trans; [apply IH|].
      eapply extends_trans; [apply extends_set_type|apply extends_reportError].
    + eapply extends_trans; [apply IH|apply extends_set_type].
  - simpl. destruct (SymbolTable.lookup n _).
    + destruct (negb _).
      * eapply extends_trans; [apply IH|].
        eapply extends_trans; [apply extends_reportError|apply extends_set_type].
      * eapply extends_trans; [apply IH|apply extends_set_type].
    + unfold SemanticAnalyzer.undefinedVariable.
      eapply extends_trans; [apply IH|].
      eapply extends_trans; [apply extends_reportError|apply extends_set_type].
  - simpl.
    assert (Hundef : forall m,
               extends a (SemanticAnalyzer.set_currentExpressionType UNKNOWN
                            (SemanticAnalyzer.reportError m l a)))
      by (intros m; eapply extends_trans;
          [apply extends_reportError|apply extends_set_type]).
    destruct (SymbolTable.lookup n _) as [symbol|]; [|apply Hundef].
    destruct (negb (Symbol.isFunction symbol)); [apply Hundef|].
    destruct (negb _); [apply Hundef|].
    eapply extends_trans; [|apply extends_set_type].
    now apply checkArguments_extends.
Qed.

Lemma snoc_neq {A} (l : list A) (x : A) : (l ++ [x])%list <> l.
Proof.
  intros H. apply (f_equal (@length A)) in H.
  rewrite length_app in H. simpl in H. lia.
Qed.

(** C6. [isCompatible from to] holds exactly when the types are equal, one
    of them is UNKNOWN, or they are INT and FLOAT in either order; and an
    assignment to a declared variable whose value has a type that is not
    compatible with the variable's adds the diagnostic "Cannot assign ..."
    to the diagnostics of its value expression. *)
Theorem C6_compatibility :
  (forall from to : DataType,
      TypeChecker.isCompatible from to = true
      <-> (from = to \/ from = UNKNOWN \/ to = UNKNOWN
           \/ (from = INT /\ to = FLOAT_T) \/ (from = FLOAT_T /\ to = INT)))
  /\ (forall (name : string) (value : Expression) (l : SourceLocation)
             (a : SemanticAnalyzer.t) (symbol : Symbol.t),
         SymbolTable.lookup name (SemanticAnalyzer.symbolTable_ a)
         = Some symbol ->
         let a1 := SemanticAnalyzer.visitExpression value a in
         let valueType := SemanticAnalyzer.currentExpressionType_ a1 in
         TypeChecker.isCompatible valueType (Symbol.type symbol) = false ->
         SemanticAnalyzer.getErrors
           (SemanticAnalyzer.visitExpression
              (AssignmentExpression name value l) a)
         = (SemanticAnalyzer.getErrors a1
            ++ [format_diagnostic l
                  ("Cannot assign " ++ dataTypeToString valueType
                   ++ " to variable of type "
                   ++ dataTypeToString (Symbol.type symbol))])%list
         /\ SemanticAnalyzer.getErrors
              (SemanticAnalyzer.visitExpression
                 (AssignmentExpression name value l) a)
            <> SemanticAnalyzer.getErrors a1).
Proof.
  split; [exact isCompatible_spec|].
  intros name value l a symbol Hlookup a1 valueType Hincompatible.
  assert (Heq : SemanticAnalyzer.getErrors
                  (SemanticAnalyzer.visitExpression
                     (AssignmentExpression name value l) a)
                = (SemanticAnalyzer.getErrors a1
                   ++ [format_diagnostic l
                         ("Cannot assign " ++ dataTypeToString valueType
                          ++ " to variable of type "
                          ++ dataTypeToString (Symbol.type symbol))])%list).
  { simpl. fold a1.
    destruct (visitExpression_extends value a) as (Hst & _). fold a1 in Hst.
    rewrite Hst, Hlookup. fold valueType. rewrite Hincompatible.
    reflexivity. }
  split; [exact Heq|]. rewrite Heq. apply snoc_neq.
Qed.

Lemma C6_compatibility_witness :
  SemanticAnalyzer.getErrors
    (SemanticAnalyzer.visitExpression
       (AssignmentExpression "print"
          (LiteralExpression "1" INT (mkLoc 1 10 9)) (mkLoc 1 8 7))
       SemanticAnalyzer.new)
  = ["1:8: Cannot assign int to variable of type function"].
Proof.
  exact (proj1 (proj2 C6_compatibility "print"
                  (LiteralExpression "1" INT (mkLoc 1 10 9)) (mkLoc 1 8 7)
                  SemanticAnalyzer.new
                  (Symbol.mk "print" FUNCTION_T true false
                     SourceLocation_default [STRING_T] (Some VOID))
                  ltac:(vm_compute; reflexivity)
                  ltac:(vm_compute; reflexivity))).
Defined.

(* ===================================================================== *)
(** ** Semantic.cpp: return statements *)
(* ===================================================================== *)

(** The claim of C7 as worded fails: [return y;] with [y] undeclared,
    inside a function, reports "Undefined variable: y" although the
    statement is inside a function and the type of its value, UNKNOWN, is
    compatible with the declared return type.  First on a source text
    (return type VOID), then on the visitor itself (return type INT). *)
Lemma C7_counterexample :
  compileFile false "function f() { return y; }"
  = SemanticAnalysisFailed ["1:24: Undefined variable: y"]
  /\ ~ return_error_iff (Some (VariableExpression "y" (mkLoc 1 8 7)))
        (mkLoc 1 1 0) inside_int_function.
Proof.
  split; [vm_compute; reflexivity|].
  unfold return_error_iff. intros [Hreport _].
  destruct Hreport as [H|H]; [|discriminate H|discriminate H].
  vm_compute. discriminate.
Qed.

Lemma visitReturnStatement_errors (value : option Expression)
    (l : SourceLocation) (a : SemanticAnalyzer.t) :
  SemanticAnalyzer.getErrors (SemanticAnalyzer.visitReturnStatement value l a)
  = if negb (SemanticAnalyzer.inFunction_ a)
    then (SemanticAnalyzer.getErrors a
          ++ [format_diagnostic l "Return statement outside function"])%list
    else if TypeChecker.isCompatible (value_type value a)
              (SemanticAnalyzer.currentFunctionReturnType_ a)
    then SemanticAnalyzer.getErrors (checked_value value a)
    else (SemanticAnalyzer.getErrors (checked_value value a)
          ++ [format_diagnostic l "Return type mismatch"])%list.
Proof.
  unfold SemanticAnalyzer.visitReturnStatement.
  destruct (SemanticAnalyzer.inFunction_ a); [|reflexivity]. cbn [negb].
  destruct value as [e|]; cbn [value_type checked_value].
  - unfold SemanticAnalyzer.checkExpression.
    destruct (visitExpression_extends e a) as (_ & _ & _ & Hret & _).
    rewrite Hret.
    now destruct (TypeChecker.isCompatible _ _).
  - now destruct (TypeChecker.isCompatible _ _).
Qed.

(** C7 (as amended).  A return statement adds one diagnostic of its own,
    after those of its value expression: "Return statement outside
    function" when it is outside any function (the value is then not
    checked), "Return type mismatch" when it is inside one and the type of
    its value (VOID for a bare [return]) is incompatible with the declared
    return type, and none otherwise.  So when checking the value reports
    nothing, a diagnostic is reported exactly in those two cases.  In
    particular the syntax tree of [function f(): int { return; }] gets
    "Return type mismatch". *)
Theorem C7_return_statement :
  (forall (value : option Expression) (l : SourceLocation)
          (a : SemanticAnalyzer.t),
      SemanticAnalyzer.getErrors
        (SemanticAnalyzer.visitReturnStatement value l a)
      = (if negb (SemanticAnalyzer.inFunction_ a)
         then (SemanticAnalyzer.getErrors a
               ++ [format_diagnostic l "Return statement outside function"])%list
         else if TypeChecker.isCompatible (value_type value a)
                   (SemanticAnalyzer.currentFunctionReturnType_ a)
         then SemanticAnalyzer.getErrors (checked_value value a)
         else (SemanticAnalyzer.getErrors (checked_value value a)
               ++ [format_diagnostic l "Return type mismatch"])%list)
      /\ (SemanticAnalyzer.getErrors (checked_value value a)
          = SemanticAnalyzer.getErrors a ->
          return_error_iff value l a))
  /\ (fun r => (fst r, SemanticAnalyzer.getErrors (snd r)))
       <$> analysis_of_tokens
             (with_colon (tokenize "function f(): int { return; }"))
     = Some (false, ["1:27: Return type mismatch"]).
Proof.
  split; [|vm_compute; reflexivity].
  intros value l a. split; [apply visitReturnStatement_errors|].
  intros Hquiet. unfold return_error_iff.
  rewrite visitReturnStatement_errors, Hquiet.
  destruct (SemanticAnalyzer.inFunction_ a); cbn [negb].
  - destruct (TypeChecker.isCompatible _ _); split.
    + intros H. now contradiction H.
    + intros [H|H]; discriminate H.
    + intros _. now right.
    + intros _. apply snoc_neq.
  - split; [intros _; now left | intros _; apply snoc_neq].
Qed.

Lemma C7_return_statement_witness :
  return_error_iff None (mkLoc 1 27 26) inside_int_function.
Proof.
  apply (proj2 (proj1 C7_return_statement None (mkLoc 1 27 26)
                  inside_int_function)).
  reflexivity.
Defined.

(* ===================================================================== *)
(** ** CodeGen.cpp: the map from names to slots *)
(* ===================================================================== *)

(** The claim of C4 fails.  In
    [function f() { var a = 1; function g() { a = 2; } }], which every
    stage accepts, the name [a] still resolves, inside the body of [g], to
    the slot allocated in [f]: the store of [g] goes to value 0, the
    [alloca] in the entry block of [f], and [g] has no slot of its own. *)
Lemma C4_counterexample :
  generated_blocks "function f() { var a = 1; function g() { a = 2; } }" 1
  = Some [IR.mkBlock "entry"
            [IR.Alloca 0 IR.Int32Ty "a";
             IR.Store (IR.ConstantInt IR.Int32Ty 1) (IR.Inst 0 IR.PointerTy)]]
  /\ generated_blocks "function f() { var a = 1; function g() { a = 2; } }" 2
     = Some [IR.mkBlock "entry"
               [IR.Store (IR.ConstantInt IR.Int32Ty 2) (IR.Inst 0 IR.PointerTy);
                IR.RetVoid]]
  /\ (let g := state_of (LLVMCodeGenerator.beginFunction "g" VOID [] inside_f) in
      LLVMCodeGenerator.variables_ g !! "a" = Some (IR.Inst 0 IR.PointerTy)
      /\ slot_of_function (LLVMCodeGenerator.module_ g) 1
           (IR.Inst 0 IR.PointerTy) = true
      /\ slot_of_function (LLVMCodeGenerator.module_ g) 2
           (IR.Inst 0 IR.PointerTy) = false).
Proof. repeat split; vm_compute; reflexivity. Qed.

Lemma parameters_loop_variables (parameters : list (string * DataType)) :
  forall (func i : nat) (g g' : LLVMCodeGenerator.t) (n : string),
    LLVMCodeGenerator.parameters_loop func i parameters g
    = LLVMCodeGenerator.Ok tt g' ->
    ~ In n (map fst parameters) ->
    LLVMCodeGenerator.variables_ g' !! n = LLVMCodeGenerator.variables_ g !! n.
Proof.
  induction parameters as [|[name ty] parameters IH];
    intros func i g g' n Hrun Hn.
  - injection Hrun as <-. reflexivity.
  - destruct g as [m [b|] cv cf vars fns brk cont he errs];
      [|discriminate Hrun].
    cbn in Hrun. apply IH with (n := n) in Hrun.
    + rewrite Hrun. cbn. apply lookup_insert_ne.
      intros ->. apply Hn. now left.
    + intros Hin. apply Hn. now right.
Qed.

(** C4 (as amended).  The map from names to slots is one flat map that is
    not cleared when the lowering of a function declaration begins: at the
    start of the body, every name that is not a parameter of the new
    function resolves exactly as it did before the declaration (to the slot
    of an earlier or enclosing function, if it had one); only the entries
    of the parameter names are written. *)
Theorem C4_slots_survive_function_entry (name : string)
    (returnType : DataType) (parameters : list (string * DataType))
    (g g' : LLVMCodeGenerator.t) (func : nat) (n : string) :
  LLVMCodeGenerator.beginFunction name returnType parameters g
  = LLVMCodeGenerator.Ok func g' ->
  ~ In n (map fst parameters) ->
  LLVMCodeGenerator.variables_ g' !! n = LLVMCodeGenerator.variables_ g !! n.
Proof.
  intros Hrun Hn. unfold LLVMCodeGenerator.beginFunction in Hrun.
  cbn in Hrun. unfold LLVMCodeGenerator.bind at 1 in Hrun.
  match type of Hrun with
  | context [LLVMCodeGenerator.parameters_loop ?f ?i ?ps ?st] =>
      destruct (LLVMCodeGenerator.parameters_loop f i ps st) as [[] g1| |]
        eqn:Hloop; try discriminate Hrun
  end.
  apply parameters_loop_variables with (n := n) in Hloop; [|exact Hn].
  cbn in Hrun. injection Hrun as _ <-. cbn. rewrite Hloop. reflexivity.
Qed.

Lemma C4_slots_survive_function_entry_witness :
  LLVMCodeGenerator.variables_
    (state_of (LLVMCodeGenerator.beginFunction "g" VOID [("b", INT)] inside_f))
    !! "a"
  = LLVMCodeGenerator.variables_ inside_f !! "a".
Proof.
  apply (C4_slots_survive_function_entry "g" VOID [("b", INT)] inside_f _ 2).
  - vm_compute. reflexivity.
  - simpl. intros [H|[]]. discriminate H.
Defined.

(* ===================================================================== *)
(** ** Lexer.cpp: the kinds of the scanned stream *)
(* ===================================================================== *)

Lemma match_false (c : ascii) (lx : Lexer.t) :
  fst (Lexer.match_ c lx) = false -> snd (Lexer.match_ c lx) = lx.
Proof.
  unfold Lexer.match_. destruct (Lexer.isAtEnd lx); [reflexivity|].
  destruct (negb _); [reflexivity | discriminate].
Qed.

(** [nextToken] in one equation: the end of the input, a comment, or the
    dispatch on the first character. *)
Lemma nextToken_rec_dispatch (n : nat) (lx : Lexer.t) :
  Lexer.nextToken_rec n lx
  = let lx0 := Lexer.skipWhitespace lx in
    let c := fst (Lexer.advance (Lexer.set_start lx0)) in
    let lx1 := snd (Lexer.advance (Lexer.set_start lx0)) in
    if Lexer.isAtEnd lx0 then (None, lx0)
    else if Ascii.eqb c "/" && fst (Lexer.match_ "/" lx1) then
      match n with
      | O => (None, Lexer.skipComment (snd (Lexer.match_ "/" lx1)))
      | S n' =>
          Lexer.nextToken_rec n' (Lexer.skipComment (snd (Lexer.match_ "/" lx1)))
      end
    else let '(tok, lx') := read_token c lx1 in (Some tok, lx').
Proof.
  rewrite nextToken_rec_unfold. cbv zeta.
  destruct (Lexer.isAtEnd _); [reflexivity|].
  destruct (Lexer.advance _) as [c lx1]. cbn [fst snd].
  unfold read_token.
  destruct (Ascii.eqb c "/"); cbn [andb].
  - pose proof (match_false "/" lx1) as Hm.
    destruct (Lexer.match_ "/" lx1) as [[] lx2]; cbn [fst snd] in *;
      [reflexivity|].
    rewrite Hm by reflexivity.
    destruct (isAlpha c); [reflexivity|].
    destruct (isDigit c); [reflexivity|].
    destruct (Ascii.eqb c dquote); reflexivity.
  - destruct (isAlpha c); [reflexivity|].
    destruct (isDigit c); [reflexivity|].
    destruct (Ascii.eqb c dquote); reflexivity.
Qed.

Lemma keywords_cases (text : string) (ty : TokenType) :
  Lexer.keywords_ !! text = Some ty ->
  In ty [NULL_LITERAL; FALSE; TRUE; CONST; LET; VAR; FUNCTION; RETURN; FOR;
         WHILE; ELSE; IF].
Proof.
  revert text ty.
  change (map_Forall
            (fun _ ty =>
               In ty [NULL_LITERAL; FALSE; TRUE; CONST; LET; VAR; FUNCTION;
                      RETURN; FOR; WHILE; ELSE; IF]) Lexer.keywords_).
  unfold Lexer.keywords_.
  repeat (apply map_Forall_insert_2; [simpl; tauto|]).
  apply map_Forall_empty.
Qed.

Lemma keywords_scanner_kind (text : string) (ty : TokenType) :
  Lexer.keywords_ !! text = Some ty -> scanner_kind ty = true.
Proof.
  intros H. apply keywords_cases in H. simpl in H.
  repeat (destruct H as [<-|H]; [reflexivity|]). destruct H.
Qed.

Lemma readString_loop_kind (n : nat) :
  forall lx r, Lexer.readString_loop n lx = inl r -> type (fst r) = ERROR.
Proof.
  induction n as [|n IH]; intros lx r; simpl; [discriminate|].
  destruct (_ && _); [|discriminate].
  destruct (Ascii.eqb _ _); [|apply IH].
  now intros [= <-].
Qed.

Lemma read_token_kind (c : ascii) (lx : Lexer.t) :
  scanner_kind (type (fst (read_token c lx))) = true.
Proof.
  unfold read_token.
  destruct (isAlpha c).
  { unfold Lexer.readIdentifier.
    destruct (Lexer.keywords_ !! _) as [ty|] eqn:Hk; [|reflexivity].
    exact (keywords_scanner_kind _ _ Hk). }
  destruct (isDigit c).
  { unfold Lexer.readNumber.
    destruct (Lexer.readNumber_loop _ _ _) as [[] lx']; reflexivity. }
  destruct (Ascii.eqb c dquote).
  { unfold Lexer.readString.
    pose proof (readString_loop_kind (Lexer.remaining lx) lx) as H.
    destruct (Lexer.readString_loop _ _) as [r|lx'].
    - now rewrite (H r eq_refl).
    - destruct (Lexer.isAtEnd lx'); reflexivity. }
  unfold Lexer.readOperator, Lexer.readOperator_single.
  assert (H1 : forall s ty, Lexer.twoCharOperator s = Some ty ->
                            scanner_kind ty = true).
  { intros s ty. unfold Lexer.twoCharOperator.
    repeat (destruct (String.eqb s _); [now intros [= <-]|]). discriminate. }
  assert (H2 : forall d ty, Lexer.singleCharOperator d = Some ty ->
                            scanner_kind ty = true).
  { intros d ty. unfold Lexer.singleCharOperator.
    repeat (destruct (Ascii.eqb d _); [now intros [= <-]|]). discriminate. }
  destruct (negb _).
  - destruct (Lexer.twoCharOperator _) as [ty|] eqn:E1; cbn [fst type].
    + exact (H1 _ _ E1).
    + destruct (Lexer.singleCharOperator _) as [ty|] eqn:E2; cbn [fst type];
        [exact (H2 _ _ E2) | reflexivity].
  - destruct (Lexer.singleCharOperator _) as [ty|] eqn:E2; cbn [fst type];
      [exact (H2 _ _ E2) | reflexivity].
Qed.

Lemma nextToken_rec_kind (n : nat) :
  forall lx tok,
    fst (Lexer.nextToken_rec n lx) = Some tok ->
    scanner_kind (type tok) = true.
Proof.
  induction n as [|n IH]; intros lx tok; rewrite nextToken_rec_dispatch;
    cbv zeta.
  all: destruct (Lexer.isAtEnd _); [discriminate|].
  all: destruct (_ && _); [|].
  all: try discriminate.
  2: apply IH.
  all: pose proof (read_token_kind
         (fst (Lexer.advance (Lexer.set_start (Lexer.skipWhitespace lx))))
         (snd (Lexer.advance (Lexer.set_start (Lexer.skipWhitespace lx)))))
         as H;
       destruct (read_token _ _) as [t lx']; cbn [fst] in *;
       now intros [= <-].
Qed.

Lemma tokenize_loop_kinds (n : nat) :
  forall lx tokens,
    Forall (fun tok => scanner_kind (type tok) = true) tokens ->
    Forall (fun tok => scanner_kind (type tok) = true)
           (fst (Lexer.tokenize_loop n lx tokens)).
Proof.
  induction n as [|n IH]; intros lx tokens Hall; cbn [Lexer.tokenize_loop];
    [exact Hall|].
  destruct (negb _); [|exact Hall].
  unfold Lexer.nextToken.
  pose proof (nextToken_rec_kind
                (Lexer.remaining (Lexer.set_start lx)) (Lexer.set_start lx))
    as H.
  destruct (Lexer.nextToken_rec _ _) as [[tok|] lx']; apply IH;
    [|exact Hall].
  apply Forall_app. split; [exact Hall|].
  apply Forall_cons. split; [now apply H | apply Forall_nil; exact I].
Qed.

Lemma tokenize_stream (source : string) :
  exists tokens l,
    tokenize source = (tokens ++ [mkToken END_OF_FILE "" l])%list
    /\ Forall (fun tok => scanner_kind (type tok) = true) tokens.
Proof.
  unfold tokenize, Lexer.tokenize.
  pose proof (tokenize_loop_kinds
                (S (Lexer.remaining (Lexer.new source)))
                (Lexer.new source) [] ltac:(constructor)) as H.
  destruct (Lexer.tokenize_loop _ _ _) as [tokens lx].
  exists tokens, (Lexer.location_ lx). split; [reflexivity | exact H].
Qed.

(** X2.  The stream [tokenize] returns is a run of tokens of the kinds the
    scanner knows, none of them END_OF_FILE, SLASH or COLON, followed by
    one END_OF_FILE token with an empty lexeme. *)
Theorem tokenize_stream_shape (source : string) :
  exists tokens l,
    tokenize source = (tokens ++ [mkToken END_OF_FILE "" l])%list
    /\ Forall (fun tok => scanner_kind (type tok) = true) tokens.
Proof. apply tokenize_stream. Qed.

(* ===================================================================== *)
(** ** Lexer.cpp: where the tokens stand *)
(* ===================================================================== *)

Section Scanning.

Variable src : string.

Lemma scanning_mk (lx : Lexer.t) (b t a : string) :
  scanning src lx b t a ->
  lx = Lexer.mk ((b ++ t) ++ a) (String.length (b ++ t)) (String.length b)
                (advance_string (mkLoc 1 1 0) (b ++ t))
  /\ src = (b ++ t) ++ a.
Proof.
  intros (Hs & Hsrc & Hst & Hcur & Hloc). destruct lx as [s cur st loc].
  simpl in *. subst. rewrite string_app_assoc, string_length_app.
  split; reflexivity.
Qed.

Lemma mk_scanning (b t a : string) :
  src = (b ++ t) ++ a ->
  scanning src
    (Lexer.mk ((b ++ t) ++ a) (String.length (b ++ t)) (String.length b)
              (advance_string (mkLoc 1 1 0) (b ++ t))) b t a.
Proof.
  intros ->. repeat split; simpl.
  - now rewrite string_app_assoc.
  - now rewrite string_length_app.
Qed.

Lemma scanning_set_start (lx : Lexer.t) (b t a : string) :
  scanning src lx b t a -> scanning src (Lexer.set_start lx) (b ++ t) "" a.
Proof.
  intros H. destruct (scanning_mk _ _ _ _ H) as [-> Hsrc].
  unfold Lexer.set_start. simpl. repeat split; simpl.
  - now symmetry.
  - exact Hsrc.
  - lia.
  - now rewrite string_app_nil_r.
Qed.

Lemma scanning_end (lx : Lexer.t) (b t : string) :
  scanning src lx b t "" -> Lexer.isAtEnd lx = true.
Proof.
  intros H. destruct (scanning_mk _ _ _ _ H) as [-> _].
  rewrite string_app_nil_r. apply isAtEnd_end.
Qed.

Lemma scanning_mid (lx : Lexer.t) (b t : string) (c : ascii) (a : string) :
  scanning src lx b t (String c a) ->
  Lexer.isAtEnd lx = false
  /\ Lexer.peek lx 0 = c
  /\ Lexer.at_ lx (Lexer.current_ lx) = c
  /\ fst (Lexer.advance lx) = c
  /\ scanning src (snd (Lexer.advance lx)) b (t ++ String c "") a.
Proof.
  intros H. destruct (scanning_mk _ _ _ _ H) as [-> Hsrc].
  rewrite isAtEnd_mid, peek_mid, advance_mid.
  cbn [Lexer.current_ fst snd]. rewrite at_mid.
  repeat split; simpl.
  - now symmetry.
  - rewrite Hsrc, !string_app_assoc. reflexivity.
  - rewrite !string_length_app. simpl. lia.
  - rewrite <- string_app_assoc.
    now rewrite (advance_string_app (b ++ t) (String c "")).
Qed.

Lemma scanned_on_refl (lx : Lexer.t) (b t a : string) :
  scanning src lx b t a -> scanned_on src b t a lx.
Proof.
  intros H. exists "", a. split; [reflexivity|]. now rewrite string_app_nil_r.
Qed.

Lemma scanned_on_cons (lx' : Lexer.t) (b t : string) (c : ascii) (a : string) :
  scanned_on src b (t ++ String c "") a lx' ->
  scanned_on src b t (String c a) lx'.
Proof.
  intros (more & a' & -> & H). exists (String c more), a'.
  split; [reflexivity|]. now rewrite string_snoc_app.
Qed.

Lemma scanned_on_trans (lx' lx'' : Lexer.t) (b t a : string) :
  scanned_on src b t a lx' ->
  (forall t' a', scanning src lx' b t' a' -> scanned_on src b t' a' lx'') ->
  scanned_on src b t a lx''.
Proof.
  intros (more & a' & -> & H) K.
  destruct (K _ _ H) as (more' & a'' & -> & H').
  exists (more ++ more'), a''. split.
  - now rewrite string_app_assoc.
  - now rewrite <- string_app_assoc.
Qed.

Lemma advance_scanned_on (lx : Lexer.t) (b t a : string) :
  scanning src lx b t a -> scanned_on src b t a (snd (Lexer.advance lx)).
Proof.
  intros H. destruct a as [|c a].
  - unfold Lexer.advance. rewrite (scanning_end _ _ _ H).
    now apply scanned_on_refl.
  - apply scanned_on_cons, scanned_on_refl.
    now destruct (scanning_mid _ _ _ _ _ H) as (_ & _ & _ & _ & K).
Qed.

Lemma match_scanned_on (e : ascii) (lx : Lexer.t) (b t a : string) :
  scanning src lx b t a -> scanned_on src b t a (snd (Lexer.match_ e lx)).
Proof.
  intros H. destruct a as [|c a].
  - unfold Lexer.match_. rewrite (scanning_end _ _ _ H).
    now apply scanned_on_refl.
  - destruct (scanning_mid _ _ _ _ _ H) as (Hat & _ & Hc & Hadv & K).
    unfold Lexer.match_. rewrite Hat, Hc.
    destruct (Ascii.eqb c e) eqn:He; cbn [negb snd].
    + apply Ascii.eqb_eq in He. subst e.
      apply scanned_on_cons, scanned_on_refl.
      unfold Lexer.advance in K. rewrite Hat, Hc in K. exact K.
    + now apply scanned_on_refl.
Qed.

Lemma skipWhitespace_scanned_on (lx : Lexer.t) (b t a : string) :
  scanning src lx b t a -> scanned_on src b t a (Lexer.skipWhitespace lx).
Proof.
  unfold Lexer.skipWhitespace. generalize (Lexer.remaining lx) as n.
  intros n. revert lx t a.
  induction n as [|n IH]; intros lx t a H; simpl;
    [now apply scanned_on_refl|].
  destruct a as [|c a].
  - rewrite (scanning_end _ _ _ H). now apply scanned_on_refl.
  - destruct (scanning_mid _ _ _ _ _ H) as (-> & -> & _ & _ & K).
    cbn [negb andb]. destruct (isWhitespace c); [|now apply scanned_on_refl].
    apply scanned_on_cons, IH, K.
Qed.

Lemma skipComment_scanned_on (lx : Lexer.t) (b t a : string) :
  scanning src lx b t a -> scanned_on src b t a (Lexer.skipComment lx).
Proof.
  unfold Lexer.skipComment. generalize (Lexer.remaining lx) as n.
  intros n. revert lx t a.
  induction n as [|n IH]; intros lx t a H; simpl;
    [now apply scanned_on_refl|].
  destruct a as [|c a].
  - rewrite (scanning_end _ _ _ H). now apply scanned_on_refl.
  - destruct (scanning_mid _ _ _ _ _ H) as (-> & -> & _ & _ & K).
    cbn [negb andb]. destruct (negb _); [|now apply scanned_on_refl].
    apply scanned_on_cons, IH, K.
Qed.

Lemma readIdentifier_loop_scanned_on (n : nat) :
  forall lx b t a,
    scanning src lx b t a ->
    scanned_on src b t a (Lexer.readIdentifier_loop n lx).
Proof.
  induction n as [|n IH]; intros lx b t a H; simpl;
    [now apply scanned_on_refl|].
  destruct a as [|c a].
  - rewrite (scanning_end _ _ _ H). now apply scanned_on_refl.
  - destruct (scanning_mid _ _ _ _ _ H) as (-> & -> & _ & _ & K).
    cbn [negb andb]. destruct (isAlphaNumeric c);
      [|now apply scanned_on_refl].
    apply scanned_on_cons, IH, K.
Qed.

Lemma readNumber_loop_scanned_on (n : nat) :
  forall hd lx b t a,
    scanning src lx b t a ->
    scanned_on src b t a (snd (Lexer.readNumber_loop n hd lx)).
Proof.
  induction n as [|n IH]; intros hd lx b t a H; simpl;
    [now apply scanned_on_refl|].
  destruct a as [|c a].
  - rewrite (scanning_end _ _ _ H). now apply scanned_on_refl.
  - destruct (scanning_mid _ _ _ _ _ H) as (-> & -> & _ & _ & K).
    cbn [negb andb]. destruct (_ || _); [|now apply scanned_on_refl].
    apply scanned_on_cons, IH, K.
Qed.

(** The loop of [readString]: it leaves with an ERROR token in front of a
    line end, or it stops at the end of the input or in front of a
    quote. *)
Lemma readString_loop_scanned_on (n : nat) :
  forall lx b t a,
    scanning src lx b t a ->
    String.length a <= n ->
    match Lexer.readString_loop n lx with
    | inl (tok, lx') =>
        type tok = ERROR /\ location tok = Lexer.location_ lx'
        /\ scanned_on src b t a lx'
    | inr lx' =>
        exists more a',
          a = more ++ a' /\ scanning src lx' b (t ++ more) a'
          /\ match a' with
             | EmptyString => True
             | String q _ => q = dquote
             end
    end.
Proof.
  induction n as [|n IH]; intros lx b t a H Hn.
  - destruct a; [|simpl in Hn; lia]. simpl.
    exists "", "". rewrite (string_app_nil_r t). auto.
  - simpl. destruct a as [|c a].
    + rewrite (scanning_end _ _ _ H). simpl.
      exists "", "". rewrite (string_app_nil_r t). auto.
    + destruct (scanning_mid _ _ _ _ _ H) as (-> & -> & _ & _ & K).
      cbn [negb andb]. destruct (Ascii.eqb c dquote) eqn:Hq; cbn [negb].
      * apply Ascii.eqb_eq in Hq. exists "", (String c a).
        rewrite (string_app_nil_r t). auto.
      * destruct (Ascii.eqb c newline).
        { repeat split. now apply scanned_on_refl. }
        simpl in Hn. specialize (IH _ _ _ _ K ltac:(lia)).
        destruct (Lexer.readString_loop n _) as [[tok lx']|lx'].
        { destruct IH as (? & ? & ?). repeat split; auto.
          now apply scanned_on_cons. }
        destruct IH as (more & a' & -> & K' & Hq').
        exists (String c more), a'. split; [reflexivity|].
        split; [|exact Hq']. now rewrite string_snoc_app.
Qed.

Lemma scanning_remaining (lx : Lexer.t) (b t a : string) :
  scanning src lx b t a -> Lexer.remaining lx = String.length a.
Proof.
  intros H. destruct (scanning_mk _ _ _ _ H) as [-> _].
  unfold Lexer.remaining. simpl. rewrite !string_length_app. lia.
Qed.

Lemma scanning_lexeme (lx : Lexer.t) (b t a : string) :
  scanning src lx b t a ->
  String.substring (Lexer.start_ lx) (Lexer.current_ lx - Lexer.start_ lx)
                   (Lexer.source_ lx) = t.
Proof.
  intros H. destruct (scanning_mk _ _ _ _ H) as [-> _]. simpl.
  rewrite string_length_app, string_app_assoc.
  replace (String.length b + String.length t - String.length b)
    with (String.length t) by lia.
  apply substring_app.
Qed.

(** What the dispatch of [nextToken] returns after the first character
    [c] of a token has been consumed: the scanner has read on, the token
    carries the location the scanner is left at, and unless it is an
    ERROR token it stands for the text between [start_] and the cursor. *)
Lemma read_token_position (lx : Lexer.t) (b : string) (c : ascii)
    (a : string) :
  scanning src lx b (String c "") a ->
  exists more a',
    a = more ++ a'
    /\ scanning src (snd (read_token c lx)) b (String c more) a'
    /\ location (fst (read_token c lx))
       = Lexer.location_ (snd (read_token c lx))
    /\ (type (fst (read_token c lx)) <> ERROR ->
        source_text (fst (read_token c lx)) = String c more).
Proof.
  intros H. unfold read_token.
  destruct (isAlpha c).
  { unfold Lexer.readIdentifier.
    destruct (readIdentifier_loop_scanned_on (Lexer.remaining lx) _ _ _ _ H)
      as (more & a' & -> & K).
    exists more, a'. split; [reflexivity|].
    pose proof (scanning_lexeme _ _ _ _ K) as Hlex.
    set (lx' := Lexer.readIdentifier_loop _ _) in *.
    rewrite Hlex. simpl in K.
    destruct (Lexer.keywords_ !! _) as [ty|] eqn:Hk; cbn [fst snd].
    - repeat split; try apply K. apply keywords_cases in Hk. simpl in Hk.
      repeat (destruct Hk as [<-|Hk]; [reflexivity|]). destruct Hk.
    - repeat split; apply K. }
  destruct (isDigit c).
  { unfold Lexer.readNumber.
    pose proof (readNumber_loop_scanned_on (Lexer.remaining lx) false
                  _ _ _ _ H) as (more & a' & -> & K).
    destruct (Lexer.readNumber_loop _ _ _) as [hd lx']. cbn [fst snd] in *.
    exists more, a'. split; [reflexivity|].
    rewrite (scanning_lexeme _ _ _ _ K). simpl in K.
    repeat split; try apply K. now destruct hd. }
  destruct (Ascii.eqb c dquote) eqn:Hq.
  { apply Ascii.eqb_eq in Hq. subst c. unfold Lexer.readString.
    assert (Hrem : String.length a <= Lexer.remaining lx)
      by (rewrite (scanning_remaining _ _ _ _ H); lia).
    pose proof (readString_loop_scanned_on (Lexer.remaining lx) _ _ _ _ H
                  Hrem) as Hloop.
    destruct (Lexer.readString_loop _ _) as [[tok lx']|lx'].
    - destruct Hloop as (Hty & Hloc & more & a' & -> & K).
      exists more, a'. cbn [fst snd]. simpl in K.
      repeat split; try apply K; [exact Hloc | now rewrite Hty].
    - destruct Hloop as (more & a' & -> & K & Hq).
      destruct a' as [|q a'].
      + rewrite (scanning_end _ _ _ K). cbn [fst snd].
        exists more, "". simpl in K.
        repeat split; try apply K. intros Hne. now elim Hne.
      + subst q. destruct (scanning_mid _ _ _ _ _ K)
          as (-> & _ & _ & _ & K').
        cbn [fst snd]. exists (more ++ String dquote ""), a'.
        split; [now rewrite string_app_assoc|].
        simpl in K'. split; [exact K'|]. split; [reflexivity|].
        intros _. unfold source_text. cbn [type value]. f_equal. f_equal.
        destruct (scanning_mk _ _ _ _ K') as [-> _].
        cbn [Lexer.start_ Lexer.current_ Lexer.source_].
        rewrite string_length_app. cbn [String.length].
        rewrite string_length_app. cbn [String.length].
        replace (String.length b + S (String.length more + 1)
                 - String.length b - 2) with (String.length more) by lia.
        replace (S (String.length b))
          with (String.length (b ++ String dquote "")).
        2: { rewrite string_length_app. simpl. lia. }
        replace ((b ++ String dquote (more ++ String dquote "")) ++ a')
          with ((b ++ String dquote "") ++ more ++ String dquote a').
        2: { rewrite !string_app_assoc. simpl.
             now rewrite string_app_assoc. }
        apply substring_app. }
  clear Hq. destruct (scanning_mk _ _ _ _ H) as [Elx Hsrc].
  assert (Hc : Lexer.at_ lx (Lexer.current_ lx - 1) = c).
  { rewrite Elx. cbn [Lexer.current_]. rewrite string_length_app.
    simpl. replace (String.length b + 1 - 1) with (String.length b) by lia.
    rewrite string_app_assoc. simpl. apply at_mid. }
  unfold Lexer.readOperator. rewrite Hc.
  assert (Hsingle :
    forall a0, a = a0 ->
      exists more a',
        a0 = more ++ a'
        /\ scanning src (snd (Lexer.readOperator_single c lx)) b
             (String c more) a'
        /\ location (fst (Lexer.readOperator_single c lx))
           = Lexer.location_ (snd (Lexer.readOperator_single c lx))
        /\ (type (fst (Lexer.readOperator_single c lx)) <> ERROR ->
            source_text (fst (Lexer.readOperator_single c lx))
            = String c more)).
  { intros a0 <-. exists "", a. split; [reflexivity|].
    unfold Lexer.readOperator_single.
    destruct (Lexer.singleCharOperator c) as [ty|] eqn:Hop; cbn [fst snd].
    - repeat split; try apply H.
      intros _. revert Hop. unfold Lexer.singleCharOperator.
      repeat (destruct (Ascii.eqb c _); [intros [= <-]; reflexivity|]).
      discriminate.
    - repeat split; try apply H. intros Hne. now elim Hne. }
  destruct a as [|d a].
  - rewrite (scanning_end _ _ _ H). cbn [negb]. now apply Hsingle.
  - destruct (scanning_mid _ _ _ _ _ H) as (-> & -> & _ & _ & K).
    cbn [negb].
    destruct (Lexer.twoCharOperator _) as [ty|] eqn:Htwo;
      [|now apply Hsingle].
    cbn [fst snd]. exists (String d ""), a. simpl in K.
    repeat split; try apply K.
    intros _. revert Htwo. unfold Lexer.twoCharOperator.
    repeat (destruct (String.eqb _ _); [intros [= <-]; reflexivity|]).
    discriminate.
Qed.

(** [nextToken] keeps the scanner on the source, and a token it returns
    carries the location the scanner is left at and, unless it is an ERROR
    token, stands for the text between [start_] and the cursor. *)
Lemma nextToken_rec_position (n : nat) :
  forall lx b t a,
    scanning src lx b t a ->
    exists b' t' a',
      scanning src (snd (Lexer.nextToken_rec n lx)) b' t' a'
      /\ forall tok,
           fst (Lexer.nextToken_rec n lx) = Some tok ->
           location tok = Lexer.location_ (snd (Lexer.nextToken_rec n lx))
           /\ (type tok <> ERROR -> source_text tok = t').
Proof.
  induction n as [|n IH]; intros lx b t a H;
    rewrite nextToken_rec_dispatch; cbv zeta;
    destruct (skipWhitespace_scanned_on _ _ _ _ H) as (ws & a1 & -> & H0);
    set (lx0 := Lexer.skipWhitespace lx) in *.
  all: destruct a1 as [|c a1];
    [ rewrite (scanning_end _ _ _ H0); exists b, (t ++ ws), "";
      split; [exact H0 | intros tok; discriminate] |].
  all: destruct (scanning_mid _ _ _ _ _ H0) as (-> & _ & _ & _ & _).
  all: pose proof (scanning_set_start _ _ _ _ H0) as H1.
  all: destruct (scanning_mid _ _ _ _ _ H1) as (_ & _ & _ & -> & H2).
  all: set (lx1 := snd (Lexer.advance (Lexer.set_start lx0))) in *.
  all: simpl in H2.
  all: destruct (Ascii.eqb c "/" && fst (Lexer.match_ "/" lx1)).
  1, 3: pose proof (scanned_on_trans _ _ _ _ _
          (match_scanned_on "/" _ _ _ _ H2)
          (skipComment_scanned_on _ _)) as (more & a' & _ & H3).
  - eexists _, _, _. split; [exact H3 | intros tok; discriminate].
  - exact (IH _ _ _ _ H3).
  - destruct (read_token_position _ _ _ _ H2) as (more & a' & _ & K & L & T).
    destruct (read_token c lx1) as [tok lx']. cbn [fst snd] in *.
    exists (b ++ t ++ ws), (String c more), a'. split; [exact K|].
    intros tok' [= <-]. split; assumption.
  - destruct (read_token_position _ _ _ _ H2) as (more & a' & _ & K & L & T).
    destruct (read_token c lx1) as [tok lx']. cbn [fst snd] in *.
    exists (b ++ t ++ ws), (String c more), a'. split; [exact K|].
    intros tok' [= <-]. split; assumption.
Qed.

Lemma scanning_token_position (lx : Lexer.t) (b t a : string) (tok : Token) :
  scanning src lx b t a ->
  location tok = Lexer.location_ lx ->
  (type tok <> ERROR -> source_text tok = t) ->
  token_position src tok.
Proof.
  intros (_ & Hsrc & _ & _ & Hloc) Hl Ht.
  destruct (decide (type tok = ERROR)) as [He|Hne].
  - exists (b ++ t), a. unfold source_text. rewrite He. simpl.
    rewrite string_app_nil_r. split; [now rewrite string_app_assoc|].
    congruence.
  - exists b, a. rewrite (Ht Hne). split; [exact Hsrc | congruence].
Qed.

Lemma tokenize_loop_positions (n : nat) :
  forall lx tokens b t a,
    scanning src lx b t a ->
    Forall (token_position src) tokens ->
    Forall (token_position src) (fst (Lexer.tokenize_loop n lx tokens))
    /\ exists b' t' a',
         scanning src (snd (Lexer.tokenize_loop n lx tokens)) b' t' a'.
Proof.
  induction n as [|n IH]; intros lx tokens b t a H Hall;
    cbn [Lexer.tokenize_loop]; [split; [exact Hall | eauto]|].
  destruct (negb _); [|split; [exact Hall | eauto]].
  unfold Lexer.nextToken.
  destruct (nextToken_rec_position
              (Lexer.remaining (Lexer.set_start lx)) _ _ _ _
              (scanning_set_start _ _ _ _ H)) as (b' & t' & a' & K & T).
  destruct (Lexer.nextToken_rec _ _) as [[tok|] lx']; cbn [fst snd] in *.
  - apply (IH _ _ _ _ _ K). apply Forall_app. split; [exact Hall|].
    apply Forall_cons. split; [|apply Forall_nil; exact I].
    destruct (T tok eq_refl) as [Hl Ht].
    exact (scanning_token_position _ _ _ _ _ K Hl Ht).
  - exact (IH _ _ _ _ _ K Hall).
Qed.

End Scanning.

(** X3.  Every token of the stream stands for text of the source, and the
    location it carries is the position just after that text (line and
    column counted from 1, the offset counted from 0): the lexeme of a
    token, with its quotes for a string literal, occurs in the source, and
    the location is that of the first character after it.  An ERROR token
    and the END_OF_FILE token carry a position of the source, that after
    some prefix of it. *)
Theorem token_locations_follow_lexemes (source : string) :
  Forall (token_position source) (tokenize source).
Proof.
  unfold tokenize, Lexer.tokenize.
  assert (H0 : scanning source (Lexer.new source) "" "" source).
  { repeat split. }
  destruct (tokenize_loop_positions source
              (S (Lexer.remaining (Lexer.new source)))
              (Lexer.new source) [] "" "" source H0 ltac:(constructor))
    as (Hall & b & t & a & K).
  destruct (Lexer.tokenize_loop _ _ _) as [tokens lx]. cbn [fst snd] in *.
  apply Forall_app. split; [exact Hall|].
  apply Forall_cons. split; [|apply Forall_nil; exact I].
  destruct K as (_ & Hsrc & _ & _ & Hloc).
  exists (b ++ t), a. unfold source_text. simpl.
  rewrite string_app_nil_r. split; [now rewrite string_app_assoc | exact Hloc].
Qed.

(* ===================================================================== *)
(** ** Lexer.cpp: words, string literals, comments and operators *)
(* ===================================================================== *)

(** [nextToken] on a character [c] that is not white space: [c] is
    consumed, and either a comment starts or the dispatch on [c] reads the
    token. *)
Lemma nextToken_rec_start (n : nat) (pre : string) (c : ascii)
    (rest : string) (st : nat) (loc : SourceLocation) :
  isWhitespace c = false ->
  Lexer.nextToken_rec n
    (Lexer.mk (pre ++ String c rest) (String.length pre) st loc)
  = let lx1 := Lexer.mk (pre ++ String c rest) (S (String.length pre))
                        (String.length pre) (SourceLocation_advance loc c) in
    if Ascii.eqb c "/" && fst (Lexer.match_ "/" lx1) then
      match n with
      | O => (None, Lexer.skipComment (snd (Lexer.match_ "/" lx1)))
      | S n' =>
          Lexer.nextToken_rec n' (Lexer.skipComment (snd (Lexer.match_ "/" lx1)))
      end
    else let '(tok, lx') := read_token c lx1 in (Some tok, lx').
Proof.
  intros Hws. rewrite nextToken_rec_dispatch.
  rewrite (skipWhitespace_none _ _ pre (String c rest));
    [|reflexivity|reflexivity|exact Hws].
  cbv zeta. rewrite isAtEnd_mid. unfold Lexer.set_start.
  cbn [Lexer.source_ Lexer.current_ Lexer.location_].
  rewrite advance_mid. reflexivity.
Qed.

Lemma readIdentifier_loop_run (s : string) :
  forall (pre post : string) (n st : nat) (loc : SourceLocation),
    all_chars isAlphaNumeric s = true ->
    stops isAlphaNumeric post ->
    String.length (s ++ post) <= n ->
    Lexer.readIdentifier_loop n
      (Lexer.mk (pre ++ s ++ post) (String.length pre) st loc)
    = Lexer.mk (pre ++ s ++ post) (String.length pre + String.length s) st
               (advance_string loc s).
Proof.
  induction s as [|c s IH]; intros pre post n st loc Hs Hstop Hn.
  - simpl. rewrite Nat.add_0_r. destruct n as [|n]; [reflexivity|].
    destruct post as [|d post]; simpl.
    + now rewrite string_app_nil_r, isAtEnd_end.
    + rewrite isAtEnd_mid, peek_mid. simpl in Hstop. now rewrite Hstop.
  - simpl in Hs. apply andb_true_iff in Hs as [Hc Hs].
    destruct n as [|n]; [simpl in Hn; lia|].
    cbn [Lexer.readIdentifier_loop append].
    rewrite isAtEnd_mid, peek_mid, Hc, advance_mid. cbn [negb andb snd].
    rewrite cursor_shift, IH; [|exact Hs|exact Hstop|simpl in Hn; lia].
    rewrite <- string_snoc_app, string_length_snoc. simpl.
    f_equal. lia.
Qed.

Lemma skipComment_loop_run (s : string) :
  forall (pre post : string) (n st : nat) (loc : SourceLocation),
    all_chars comment_char s = true ->
    stops comment_char post ->
    String.length (s ++ post) <= n ->
    Lexer.skipComment_loop n
      (Lexer.mk (pre ++ s ++ post) (String.length pre) st loc)
    = Lexer.mk (pre ++ s ++ post) (String.length pre + String.length s) st
               (advance_string loc s).
Proof.
  induction s as [|c s IH]; intros pre post n st loc Hs Hstop Hn.
  - simpl. rewrite Nat.add_0_r. destruct n as [|n]; [reflexivity|].
    destruct post as [|d post]; simpl.
    + now rewrite string_app_nil_r, isAtEnd_end.
    + rewrite isAtEnd_mid, peek_mid. simpl in Hstop.
      unfold comment_char in Hstop. now rewrite Hstop.
  - simpl in Hs. apply andb_true_iff in Hs as [Hc Hs].
    destruct n as [|n]; [simpl in Hn; lia|].
    cbn [Lexer.skipComment_loop append].
    unfold comment_char in Hc.
    rewrite isAtEnd_mid, peek_mid, Hc, advance_mid. cbn [negb andb snd].
    rewrite cursor_shift, IH; [|exact Hs|exact Hstop|simpl in Hn; lia].
    rewrite <- string_snoc_app, string_length_snoc. simpl.
    f_equal. lia.
Qed.

(** The loop of [readString] runs over the characters of the literal and
    stops in front of a quote or at the end of the input. *)
Lemma readString_loop_run (s : string) :
  forall (pre post : string) (n st : nat) (loc : SourceLocation),
    all_chars string_char s = true ->
    stops (fun c => negb (Ascii.eqb c dquote)) post ->
    String.length (s ++ post) <= n ->
    Lexer.readString_loop n
      (Lexer.mk (pre ++ s ++ post) (String.length pre) st loc)
    = inr (Lexer.mk (pre ++ s ++ post) (String.length pre + String.length s)
                    st (advance_string loc s)).
Proof.
  induction s as [|c s IH]; intros pre post n st loc Hs Hstop Hn.
  - simpl. rewrite Nat.add_0_r. destruct n as [|n]; [reflexivity|].
    destruct post as [|d post]; simpl.
    + now rewrite string_app_nil_r, isAtEnd_end.
    + rewrite isAtEnd_mid, peek_mid. simpl in Hstop. now rewrite Hstop.
  - simpl in Hs. apply andb_true_iff in Hs as [Hc Hs].
    destruct n as [|n]; [simpl in Hn; lia|].
    cbn [Lexer.readString_loop append].
    unfold string_char in Hc. apply andb_true_iff in Hc as [Hq Hnl].
    apply negb_true_iff in Hnl.
    rewrite isAtEnd_mid, peek_mid, Hq, Hnl, advance_mid. cbn [negb andb snd].
    rewrite cursor_shift, IH; [|exact Hs|exact Hstop|simpl in Hn; lia].
    rewrite <- string_snoc_app, string_length_snoc. simpl.
    do 2 f_equal. lia.
Qed.

(** In front of a line end it leaves with an ERROR token. *)
Lemma readString_loop_newline (s : string) :
  forall (pre post : string) (n st : nat) (loc : SourceLocation),
    all_chars string_char s = true ->
    String.length s < n ->
    Lexer.readString_loop n
      (Lexer.mk (pre ++ s ++ String newline post) (String.length pre) st loc)
    = inl (mkToken ERROR "Unterminated string" (advance_string loc s),
           Lexer.mk (pre ++ s ++ String newline post)
                    (String.length pre + String.length s)
                    st (advance_string loc s)).
Proof.
  induction s as [|c s IH]; intros pre post n st loc Hs Hn.
  - simpl. rewrite Nat.add_0_r. destruct n as [|n]; [lia|].
    simpl. rewrite isAtEnd_mid, peek_mid. reflexivity.
  - simpl in Hs. apply andb_true_iff in Hs as [Hc Hs].
    destruct n as [|n]; [simpl in Hn; lia|].
    cbn [Lexer.readString_loop append].
    unfold string_char in Hc. apply andb_true_iff in Hc as [Hq Hnl].
    apply negb_true_iff in Hnl.
    rewrite isAtEnd_mid, peek_mid, Hq, Hnl, advance_mid. cbn [negb andb snd].
    rewrite cursor_shift, IH; [|exact Hs|simpl in Hn; lia].
    rewrite <- string_snoc_app, string_length_snoc. simpl.
    do 3 f_equal. lia.
Qed.

Lemma alpha_classes (c : ascii) :
  isAlpha c = true ->
  isWhitespace c = false /\ Ascii.eqb c "/" = false.
Proof. intros H. split; ascii_cases c. Qed.

(** X4.  A word.  A token that starts with a letter or an underscore is the
    longest run of letters, digits and underscores from there; it is the
    keyword token of that word when the word is one of the twelve reserved
    ones, and an IDENTIFIER otherwise.  Its location is the position after
    the word. *)
Theorem word_token (pre : string) (c : ascii) (s post : string) (st : nat)
    (loc : SourceLocation) :
  isAlpha c = true ->
  all_chars isAlphaNumeric s = true ->
  stops isAlphaNumeric post ->
  fst (Lexer.nextToken
         (Lexer.mk (pre ++ String c (s ++ post)) (String.length pre) st loc))
  = Some (mkToken (word_kind (String c s)) (String c s)
                  (advance_string loc (String c s))).
Proof.
  intros Hc Hs Hstop. destruct (alpha_classes c Hc) as [Hws Hsl].
  unfold Lexer.nextToken. rewrite nextToken_rec_start by exact Hws.
  cbv zeta. rewrite Hsl. cbn [andb]. unfold read_token. rewrite Hc.
  unfold Lexer.readIdentifier, Lexer.remaining.
  cbn [Lexer.source_ Lexer.current_].
  rewrite cursor_shift.
  rewrite readIdentifier_loop_run;
    [|exact Hs|exact Hstop|solve_length].
  cbn [Lexer.source_ Lexer.current_ Lexer.start_ Lexer.location_].
  rewrite string_length_snoc.
  replace (S (String.length pre) + String.length s - String.length pre)
    with (String.length (String c s)) by (simpl; lia).
  replace ((pre ++ String c "") ++ s ++ post)
    with (pre ++ String c s ++ post)
    by (now rewrite string_app_assoc).
  rewrite substring_app. unfold word_kind.
  destruct (Lexer.keywords_ !! String c s); reflexivity.
Qed.

Lemma word_token_witness :
  fst (Lexer.nextToken (Lexer.mk ("x = " ++ String "w" ("hile" ++ "(")) 4 0
                                 (mkLoc 1 5 4)))
  = Some (mkToken WHILE "while" (mkLoc 1 10 9)).
Proof.
  exact (word_token "x = " "w" "hile" "(" 0 (mkLoc 1 5 4)
           ltac:(reflexivity) ltac:(reflexivity) ltac:(reflexivity)).
Defined.

Lemma dquote_classes :
  isWhitespace dquote = false /\ Ascii.eqb dquote "/" = false
  /\ isAlpha dquote = false /\ isDigit dquote = false.
Proof. repeat split. Qed.

(** X5.  A string literal.  From an opening quote the token runs to the next
    quote on the same line, whatever stands in between (a backslash does
    not protect a quote); its value is the text between the two quotes,
    unchanged, and its location is the position after the closing
    quote. *)
Theorem string_token (pre body post : string) (st : nat)
    (loc : SourceLocation) :
  all_chars string_char body = true ->
  fst (Lexer.nextToken
         (Lexer.mk (pre ++ String dquote (body ++ String dquote post))
                   (String.length pre) st loc))
  = Some (mkToken STRING body
            (advance_string loc (String dquote (body ++ String dquote "")))).
Proof.
  intros Hbody. destruct dquote_classes as (Hws & Hsl & Ha & Hd).
  unfold Lexer.nextToken. rewrite nextToken_rec_start by exact Hws.
  cbv zeta. rewrite Hsl. cbn [andb]. unfold read_token.
  rewrite Ha, Hd, Ascii.eqb_refl.
  unfold Lexer.readString, Lexer.remaining.
  cbn [Lexer.source_ Lexer.current_].
  rewrite cursor_shift.
  rewrite readString_loop_run;
    [|exact Hbody|reflexivity|solve_length].
  rewrite string_length_snoc.
  replace ((pre ++ String dquote "") ++ body ++ String dquote post)
    with (((pre ++ String dquote "") ++ body) ++ String dquote post)
    by (now rewrite !string_app_assoc).
  replace (S (String.length pre) + String.length body)
    with (String.length ((pre ++ String dquote "") ++ body))
    by solve_length.
  rewrite isAtEnd_mid, advance_mid.
  cbn [fst snd Lexer.source_ Lexer.current_ Lexer.start_ Lexer.location_].
  f_equal. f_equal.
  - replace (S (String.length ((pre ++ String dquote "") ++ body))
             - String.length pre - 2)
      with (String.length body) by solve_length.
    replace (S (String.length pre))
      with (String.length (pre ++ String dquote ""))
      by (now rewrite string_length_snoc).
    rewrite string_app_assoc. apply substring_app.
  - simpl. rewrite advance_string_app. reflexivity.
Qed.

Lemma string_token_witness :
  fst (Lexer.nextToken
         (Lexer.mk ("" ++ String dquote ("a\" ++ String dquote "b"))
                   0 0 (mkLoc 1 1 0)))
  = Some (mkToken STRING "a\" (mkLoc 1 5 4)).
Proof.
  exact (string_token "" "a\" "b" 0 (mkLoc 1 1 0) ltac:(reflexivity)).
Defined.

(** X6.  An unterminated string literal.  When the line or the input ends
    before a closing quote, the token is an ERROR token with the message
    [Unterminated string], located where the scan stopped; the line end is
    not consumed. *)
Theorem unterminated_string_token (pre body post : string) (st : nat)
    (loc : SourceLocation) :
  all_chars string_char body = true ->
  post = "" \/ (exists rest, post = String newline rest) ->
  Lexer.nextToken
    (Lexer.mk (pre ++ String dquote (body ++ post)) (String.length pre) st loc)
  = (Some (mkToken ERROR "Unterminated string"
             (advance_string loc (String dquote body))),
     Lexer.mk (pre ++ String dquote (body ++ post))
              (String.length pre + S (String.length body))
              (String.length pre)
              (advance_string loc (String dquote body))).
Proof.
  intros Hbody Hpost. destruct dquote_classes as (Hws & Hsl & Ha & Hd).
  unfold Lexer.nextToken. rewrite nextToken_rec_start by exact Hws.
  cbv zeta. rewrite Hsl. cbn [andb]. unfold read_token.
  rewrite Ha, Hd, Ascii.eqb_refl.
  unfold Lexer.readString, Lexer.remaining.
  cbn [Lexer.source_ Lexer.current_].
  rewrite cursor_shift.
  destruct Hpost as [->|[rest ->]].
  - rewrite readString_loop_run; [|exact Hbody|exact I|solve_length].
    rewrite string_length_snoc, string_app_nil_r.
    replace (S (String.length pre) + String.length body)
      with (String.length ((pre ++ String dquote "") ++ body))
      by solve_length.
    rewrite isAtEnd_end. unfold Lexer.errorToken. cbn [Lexer.location_].
    f_equal. f_equal; [solve_split | solve_length].
  - rewrite readString_loop_newline; [|exact Hbody|solve_length].
    rewrite string_length_snoc.
    f_equal. f_equal; [solve_split | solve_length].
Qed.

Lemma unterminated_string_token_witness :
  Lexer.nextToken (Lexer.mk ("" ++ String dquote ("ab" ++ "")) 0 0
                            (mkLoc 1 1 0))
  = (Some (mkToken ERROR "Unterminated string" (mkLoc 1 4 3)),
     Lexer.mk ("" ++ String dquote ("ab" ++ "")) 3 0 (mkLoc 1 4 3)).
Proof.
  exact (unterminated_string_token "" "ab" "" 0 (mkLoc 1 1 0)
           ltac:(reflexivity) ltac:(left; reflexivity)).
Defined.

(** X7.  A line comment.  Two slashes and what follows them up to the end of
    the line produce no token: [nextToken] goes on with the text from the
    line end (which it leaves to be skipped as white space). *)
Theorem comment_is_skipped (pre body post : string) (st : nat)
    (loc : SourceLocation) :
  all_chars comment_char body = true ->
  stops comment_char post ->
  Lexer.nextToken
    (Lexer.mk (pre ++ String "/" (String "/" (body ++ post)))
              (String.length pre) st loc)
  = Lexer.nextToken
      (Lexer.mk (pre ++ String "/" (String "/" (body ++ post)))
                (String.length pre + (2 + String.length body))
                (String.length pre)
                (advance_string loc (String "/" (String "/" body)))).
Proof.
  intros Hbody Hstop. unfold Lexer.nextToken.
  set (src := pre ++ String "/" (String "/" (body ++ post))).
  assert (Hrem : Lexer.remaining (Lexer.mk src (String.length pre) st loc)
                 = S (S (String.length (body ++ post)))).
  { unfold Lexer.remaining, src. simpl.
    rewrite string_length_app. simpl. lia. }
  rewrite Hrem. unfold src at 1.
  rewrite nextToken_rec_start by reflexivity. cbv zeta.
  rewrite Ascii.eqb_refl. cbn [andb].
  rewrite cursor_shift. unfold Lexer.match_.
  rewrite isAtEnd_mid. cbn [Lexer.current_]. rewrite at_mid.
  rewrite Ascii.eqb_refl. cbn [negb fst snd Lexer.source_ Lexer.start_
    Lexer.location_].
  rewrite cursor_shift.
  unfold Lexer.skipComment, Lexer.remaining.
  cbn [Lexer.source_ Lexer.current_].
  rewrite skipComment_loop_run; [|exact Hbody|exact Hstop|solve_length].
  rewrite !string_length_snoc.
  replace (((pre ++ String "/" "") ++ String "/" "") ++ body ++ post)
    with src by (unfold src; now rewrite !string_app_assoc).
  replace (S (S (String.length pre)) + String.length body)
    with (String.length pre + (2 + String.length body)) by lia.
  apply nextToken_rec_bound; unfold Lexer.remaining, src;
    cbn [Lexer.source_ Lexer.current_]; solve_length.
Qed.

Lemma comment_is_skipped_witness :
  Lexer.nextToken
    (Lexer.mk ("" ++ String "/" (String "/" (" note" ++ String newline "x")))
              0 0 (mkLoc 1 1 0))
  = Lexer.nextToken
      (Lexer.mk ("" ++ String "/" (String "/" (" note" ++ String newline "x")))
                (0 + (2 + 5)) 0 (mkLoc 1 8 7)).
Proof.
  exact (comment_is_skipped "" " note" (String newline "x") 0 (mkLoc 1 1 0)
           ltac:(reflexivity) ltac:(reflexivity)).
Defined.

Lemma twoCharOperator_first (c d : ascii) (ty : TokenType) :
  Lexer.twoCharOperator (String c (String d "")) = Some ty ->
  isWhitespace c = false /\ Ascii.eqb c "/" = false /\ isAlpha c = false
  /\ isDigit c = false /\ Ascii.eqb c dquote = false.
Proof.
  unfold Lexer.twoCharOperator.
  repeat match goal with
         | |- context [String.eqb ?a ?b] =>
             destruct (String.eqb_spec a b) as [E|_];
             [injection E as -> ->; intros _; repeat split|]
         end.
  discriminate.
Qed.

Lemma singleCharOperator_class (c : ascii) (ty : TokenType) :
  Lexer.singleCharOperator c = Some ty ->
  isWhitespace c = false /\ isAlpha c = false
  /\ isDigit c = false /\ Ascii.eqb c dquote = false.
Proof.
  intros Hop. destruct c as [[] [] [] [] [] [] [] []];
    vm_compute in Hop; try discriminate Hop; repeat split.
Qed.

Lemma match_slash_mid (pre : string) (c d : ascii) (rest : string)
    (st : nat) (loc : SourceLocation) :
  (Ascii.eqb c "/" && Ascii.eqb d "/") = false ->
  Ascii.eqb c "/"
  && fst (Lexer.match_ "/"
            (Lexer.mk (pre ++ String c (String d rest))
                      (S (String.length pre)) st loc)) = false.
Proof.
  intros H. destruct (Ascii.eqb c "/"); [|reflexivity]. cbn [andb] in *.
  rewrite cursor_shift. unfold Lexer.match_.
  rewrite isAtEnd_mid. cbn [Lexer.current_]. rewrite at_mid, H. reflexivity.
Qed.

Lemma match_slash_end (pre : string) (c : ascii) (st : nat)
    (loc : SourceLocation) :
  Ascii.eqb c "/"
  && fst (Lexer.match_ "/"
            (Lexer.mk (pre ++ String c "") (S (String.length pre)) st loc))
  = false.
Proof.
  destruct (Ascii.eqb c "/"); [|reflexivity]. cbn [andb].
  rewrite <- (string_length_snoc pre c). unfold Lexer.match_.
  now rewrite isAtEnd_end.
Qed.

(** X8.  A two-character operator.  When the two characters at the cursor
    spell one of [==], [!=], [<=], [>=], [&&], [||], they are one token of
    that kind. *)
Theorem two_character_operator (pre : string) (c d : ascii) (rest : string)
    (st : nat) (loc : SourceLocation) (ty : TokenType) :
  Lexer.twoCharOperator (String c (String d "")) = Some ty ->
  Lexer.nextToken
    (Lexer.mk (pre ++ String c (String d rest)) (String.length pre) st loc)
  = (Some (mkToken ty (String c (String d ""))
                   (advance_string loc (String c (String d "")))),
     Lexer.mk (pre ++ String c (String d rest)) (String.length pre + 2)
              (String.length pre)
              (advance_string loc (String c (String d "")))).
Proof.
  intros Htwo.
  destruct (twoCharOperator_first c d ty Htwo) as (Hws & Hsl & Ha & Hd & Hq).
  unfold Lexer.nextToken. rewrite nextToken_rec_start by exact Hws.
  cbv zeta. rewrite Hsl. cbn [andb]. unfold read_token.
  rewrite Ha, Hd, Hq. unfold Lexer.readOperator.
  cbn [Lexer.current_].
  replace (S (String.length pre) - 1) with (String.length pre) by lia.
  rewrite at_mid, cursor_shift, isAtEnd_mid, peek_mid. cbn [negb].
  rewrite Htwo, advance_mid.
  cbn [snd Lexer.location_]. rewrite string_length_snoc.
  f_equal. f_equal; [solve_split | lia].
Qed.

Lemma two_character_operator_witness :
  Lexer.nextToken (Lexer.mk ("a" ++ String "<" (String "=" "b")) 1 0
                            (mkLoc 1 2 1))
  = (Some (mkToken LESS_EQUAL "<=" (mkLoc 1 4 3)),
     Lexer.mk ("a" ++ String "<" (String "=" "b")) (1 + 2) 1 (mkLoc 1 4 3)).
Proof.
  exact (two_character_operator "a" "<" "=" "b" 0 (mkLoc 1 2 1) LESS_EQUAL
           ltac:(reflexivity)).
Defined.

(** What [nextToken] makes of a character that starts neither a word, a
    number, a string literal, a comment nor a two-character operator. *)
Lemma nextToken_single (pre : string) (c : ascii) (rest : string)
    (st : nat) (loc : SourceLocation) :
  isWhitespace c = false -> isAlpha c = false -> isDigit c = false ->
  Ascii.eqb c dquote = false ->
  stands_alone c rest ->
  Lexer.nextToken
    (Lexer.mk (pre ++ String c rest) (String.length pre) st loc)
  = (let '(tok, lx) :=
       Lexer.readOperator_single c
         (Lexer.mk (pre ++ String c rest) (S (String.length pre))
                   (String.length pre) (SourceLocation_advance loc c)) in
     (Some tok, lx)).
Proof.
  intros Hws Ha Hd Hq Halone.
  unfold Lexer.nextToken. rewrite nextToken_rec_start by exact Hws.
  cbv zeta.
  assert (Hread : forall lx,
            lx = Lexer.mk (pre ++ String c rest) (S (String.length pre))
                   (String.length pre) (SourceLocation_advance loc c) ->
            read_token c lx = Lexer.readOperator_single c lx).
  { intros lx ->. unfold read_token. rewrite Ha, Hd, Hq.
    unfold Lexer.readOperator. cbn [Lexer.current_].
    replace (S (String.length pre) - 1) with (String.length pre) by lia.
    rewrite at_mid. destruct rest as [|d rest].
    - rewrite cursor_shift, string_app_nil_r, isAtEnd_end. reflexivity.
    - destruct Halone as [Htwo _].
      rewrite cursor_shift, isAtEnd_mid, peek_mid. cbn [negb].
      now rewrite Htwo. }
  destruct rest as [|d rest].
  - rewrite match_slash_end. now rewrite Hread.
  - destruct Halone as [Htwo Hsl].
    rewrite (match_slash_mid _ _ _ _ _ _ Hsl). now rewrite Hread.
Qed.

(** X9.  A one-character operator or delimiter.  A character of the table of
    [readOperator] that does not start a two-character operator or a
    comment is one token of its kind; in particular a [/] that is not
    followed by a second [/] is a DIVIDE token. *)
Theorem one_character_operator (pre : string) (c : ascii) (rest : string)
    (st : nat) (loc : SourceLocation) (ty : TokenType) :
  Lexer.singleCharOperator c = Some ty ->
  stands_alone c rest ->
  Lexer.nextToken
    (Lexer.mk (pre ++ String c rest) (String.length pre) st loc)
  = (Some (mkToken ty (String c "") (SourceLocation_advance loc c)),
     Lexer.mk (pre ++ String c rest) (S (String.length pre))
              (String.length pre) (SourceLocation_advance loc c)).
Proof.
  intros Hop Halone.
  destruct (singleCharOperator_class c ty Hop) as (Hws & Ha & Hd & Hq).
  rewrite nextToken_single by assumption.
  unfold Lexer.readOperator_single. now rewrite Hop.
Qed.

Lemma one_character_operator_witness :
  Lexer.nextToken (Lexer.mk ("a " ++ String "/" " b") 2 0 (mkLoc 1 3 2))
  = (Some (mkToken DIVIDE "/" (mkLoc 1 4 3)),
     Lexer.mk ("a " ++ String "/" " b") 3 2 (mkLoc 1 4 3)).
Proof.
  exact (one_character_operator "a " "/" " b" 0 (mkLoc 1 3 2) DIVIDE
           ltac:(reflexivity) ltac:(split; reflexivity)).
Defined.

(** X10.  An unexpected character.  A character that is not white space, does
    not start a word, a number or a string literal and is not in the
    operator table (a colon, a lone [&] or [|], [@], ...) is consumed and
    becomes an ERROR token whose message names it. *)
Theorem unexpected_character (pre : string) (c : ascii) (rest : string)
    (st : nat) (loc : SourceLocation) :
  isWhitespace c = false -> isAlpha c = false -> isDigit c = false ->
  Ascii.eqb c dquote = false ->
  Lexer.singleCharOperator c = None ->
  stands_alone c rest ->
  Lexer.nextToken
    (Lexer.mk (pre ++ String c rest) (String.length pre) st loc)
  = (Some (mkToken ERROR ("Unexpected character: " ++ String c "")
                   (SourceLocation_advance loc c)),
     Lexer.mk (pre ++ String c rest) (S (String.length pre))
              (String.length pre) (SourceLocation_advance loc c)).
Proof.
  intros Hws Ha Hd Hq Hop Halone.
  rewrite nextToken_single by assumption.
  unfold Lexer.readOperator_single. now rewrite Hop.
Qed.

Lemma unexpected_character_witness :
  Lexer.nextToken (Lexer.mk ("a " ++ String "&" " b") 2 0 (mkLoc 1 3 2))
  = (Some (mkToken ERROR "Unexpected character: &" (mkLoc 1 4 3)),
     Lexer.mk ("a " ++ String "&" " b") 3 2 (mkLoc 1 4 3)).
Proof.
  exact (unexpected_character "a " "&" " b" 0 (mkLoc 1 3 2)
           ltac:(reflexivity) ltac:(reflexivity) ltac:(reflexivity)
           ltac:(reflexivity) ltac:(reflexivity) ltac:(split; reflexivity)).
Defined.

(** X11.  A blank source.  A source text of white space only (the empty text
    included) gives the END_OF_FILE token alone, located after the last
    character. *)
Theorem blank_source (ws : string) :
  all_chars isWhitespace ws = true ->
  tokenize ws = [mkToken END_OF_FILE "" (advance_string (mkLoc 1 1 0) ws)].
Proof.
  intros Hws. unfold tokenize, Lexer.tokenize, Lexer.new.
  destruct ws as [|c ws]; [reflexivity|].
  cbn [Lexer.tokenize_loop].
  assert (Hat : Lexer.isAtEnd (Lexer.mk (String c ws) 0 0 (mkLoc 1 1 0))
                = false) by reflexivity.
  rewrite Hat. cbn [negb]. unfold Lexer.nextToken, Lexer.set_start.
  cbn [Lexer.source_ Lexer.current_ Lexer.location_].
  rewrite nextToken_rec_dispatch. cbv zeta.
  rewrite (skipWhitespace_run (String c ws) 0 "" (String c ws) "");
    [|now rewrite string_app_nil_r|reflexivity|exact Hws|exact I].
  change (0 + String.length (String c ws)) with (String.length (String c ws)).
  rewrite isAtEnd_end, tokenize_loop_end. reflexivity.
Qed.

Lemma blank_source_witness :
  tokenize (String " " (String newline " "))
  = [mkToken END_OF_FILE "" (mkLoc 2 2 3)].
Proof.
  exact (blank_source (String " " (String newline " ")) ltac:(reflexivity)).
Defined.

(* ===================================================================== *)
(** ** Utils.cpp: what [escapeString] produces *)
(* ===================================================================== *)

Lemma unescape_escape (s : string) : unescapeString (escapeString s) = s.
Proof.
  induction s as [|c s IH]; [reflexivity|].
  simpl. now rewrite unescape_escapeChar, IH.
Qed.

(** X12.  [escapeString] loses nothing: two strings with the same escaped text
    are the same string. *)
Theorem escapeString_injective (s1 s2 : string) :
  escapeString s1 = escapeString s2 -> s1 = s2.
Proof.
  intros H. rewrite <- (unescape_escape s1), <- (unescape_escape s2).
  now rewrite H.
Qed.

Lemma escapeString_injective_witness :
  String tab "a" = String tab "a".
Proof.
  exact (escapeString_injective (String tab "a") (String tab "a")
           ltac:(reflexivity)).
Defined.

Lemma escapeChar_plain (c : ascii) (rest : string) :
  all_chars plain_char (escapeChar c ++ rest) = all_chars plain_char rest
  /\ no_bare_quote (escapeChar c ++ rest) = no_bare_quote rest.
Proof.
  unfold escapeChar.
  destruct (Ascii.eqb_spec c backslash) as [->|Hb]; [split; reflexivity|].
  destruct (Ascii.eqb_spec c dquote) as [->|Hq]; [split; reflexivity|].
  destruct (Ascii.eqb_spec c newline) as [->|Hn]; [split; reflexivity|].
  destruct (Ascii.eqb_spec c tab) as [->|Ht]; [split; reflexivity|].
  destruct (Ascii.eqb_spec c carriage_return) as [->|Hr];
    [split; reflexivity|].
  apply Ascii.eqb_neq in Hb, Hq, Hn, Ht, Hr.
  simpl. unfold plain_char. rewrite Hb, Hq, Hn, Ht, Hr. split; reflexivity.
Qed.

(** X13.  The escaped text fits between two quotes on one line: it contains no
    line feed, tab or carriage return, and every quote in it is part of an
    escape sequence. *)
Theorem escapeString_is_plain (s : string) :
  all_chars plain_char (escapeString s) = true
  /\ no_bare_quote (escapeString s) = true.
Proof.
  induction s as [|c s [IH1 IH2]]; [split; reflexivity|].
  simpl. destruct (escapeChar_plain c (escapeString s)) as [-> ->].
  split; assumption.
Qed.

(* ===================================================================== *)
(** ** Semantic.cpp: declarations in the symbol table *)
(* ===================================================================== *)

Lemma scopes_snoc (scopes : list (gmap string Symbol.t)) :
  scopes <> [] -> exists outer cur, scopes = (outer ++ [cur])%list.
Proof.
  intros H. destruct (exists_last H) as (outer & cur & ->). eauto.
Qed.

Lemma update_back_snoc {A} (f : A -> A) (l : list A) (x : A) :
  SymbolTable.update_back f (l ++ [x]) = (l ++ [f x])%list.
Proof.
  induction l as [|y l IH]; [reflexivity|].
  simpl. rewrite IH. destruct l; reflexivity.
Qed.

Lemma lookupCurrentScope_snoc (name : string)
    (outer : list (gmap string Symbol.t)) (cur : gmap string Symbol.t) :
  SymbolTable.lookupCurrentScope name (SymbolTable.mk (outer ++ [cur]))
  = cur !! name.
Proof.
  unfold SymbolTable.lookupCurrentScope. cbn [SymbolTable.scopes_].
  now rewrite last_snoc.
Qed.

Lemma lookup_snoc (name : string)
    (outer : list (gmap string Symbol.t)) (cur : gmap string Symbol.t) :
  SymbolTable.lookup name (SymbolTable.mk (outer ++ [cur]))
  = match cur !! name with
    | Some symbol => Some symbol
    | None => SymbolTable.lookup name (SymbolTable.mk outer)
    end.
Proof.
  unfold SymbolTable.lookup. cbn [SymbolTable.scopes_].
  now rewrite rev_app_distr.
Qed.

Lemma insert_snoc (name : string) (symbol : Symbol.t)
    (outer : list (gmap string Symbol.t)) (cur : gmap string Symbol.t) :
  SymbolTable.insert name symbol (SymbolTable.mk (outer ++ [cur]))
  = match cur !! name with
    | Some _ => (false, SymbolTable.mk (outer ++ [cur]))
    | None => (true, SymbolTable.mk (outer ++ [<[name := symbol]> cur]))
    end.
Proof.
  unfold SymbolTable.insert. rewrite lookupCurrentScope_snoc.
  destruct (cur !! name); [reflexivity|].
  cbn [SymbolTable.scopes_]. now rewrite update_back_snoc.
Qed.

Lemma insert_keeps_scopes (name : string) (symbol : Symbol.t)
    (st : SymbolTable.t) :
  SymbolTable.scopes_ st <> [] ->
  SymbolTable.scopes_ (snd (SymbolTable.insert name symbol st)) <> [].
Proof.
  intros H. destruct st as [scopes]. cbn [SymbolTable.scopes_] in H.
  destruct (scopes_snoc _ H) as (outer & cur & ->).
  rewrite insert_snoc. destruct (cur !! name); cbn [snd SymbolTable.scopes_];
    now destruct outer.
Qed.

Lemma builtins_scopes :
  SymbolTable.scopes_ (BuiltinFunctions.registerBuiltins SymbolTable.new)
  <> [].
Proof.
  unfold BuiltinFunctions.registerBuiltins,
    BuiltinFunctions.registerMathFunctions,
    BuiltinFunctions.registerInputFunction,
    BuiltinFunctions.registerPrintFunction.
  do 3 apply insert_keeps_scopes. discriminate.
Qed.

(** X14.  [insert] and the two lookups.  In a table with at least one scope, the
    first declaration of a name in the current scope wins: after [insert]
    both lookups find the symbol that was already bound there, or the new
    one when there was none; [insert] returns true exactly in the second
    case; no other name is affected and no scope is opened or closed. *)
Theorem insert_then_lookup (name : string) (symbol : Symbol.t)
    (st : SymbolTable.t) :
  SymbolTable.scopes_ st <> [] ->
  let bound := default symbol (SymbolTable.lookupCurrentScope name st) in
  let st' := snd (SymbolTable.insert name symbol st) in
  SymbolTable.lookupCurrentScope name st' = Some bound
  /\ SymbolTable.lookup name st' = Some bound
  /\ fst (SymbolTable.insert name symbol st)
     = bool_decide (SymbolTable.lookupCurrentScope name st = None)
  /\ (forall other, other <> name ->
        SymbolTable.lookup other st' = SymbolTable.lookup other st)
  /\ SymbolTable.scopeDepth st' = SymbolTable.scopeDepth st.
Proof.
  intros Hne. destruct st as [scopes]. cbn [SymbolTable.scopes_] in Hne.
  destruct (scopes_snoc scopes Hne) as (outer & cur & ->).
  cbv zeta. rewrite insert_snoc, lookupCurrentScope_snoc.
  destruct (cur !! name) as [old|] eqn:Hcur; cbn [fst snd default].
  - rewrite lookupCurrentScope_snoc, lookup_snoc, Hcur.
    repeat split; reflexivity.
  - rewrite lookupCurrentScope_snoc, lookup_snoc, lookup_insert_eq.
    repeat split.
    + intros other Hother. rewrite !lookup_snoc.
      now rewrite lookup_insert_ne by congruence.
    + unfold SymbolTable.scopeDepth. cbn [SymbolTable.scopes_].
      now rewrite !length_app.
Qed.

Lemma insert_then_lookup_witness :
  SymbolTable.lookup "print"
    (snd (SymbolTable.insert "print"
            (Symbol.new "print" INT false (mkLoc 1 1 0))
            (BuiltinFunctions.registerBuiltins SymbolTable.new)))
  = SymbolTable.lookup "print"
      (BuiltinFunctions.registerBuiltins SymbolTable.new).
Proof.
  destruct (insert_then_lookup "print"
              (Symbol.new "print" INT false (mkLoc 1 1 0))
              (BuiltinFunctions.registerBuiltins SymbolTable.new)
              builtins_scopes) as (_ & H & _).
  exact H.
Defined.

(** X15.  Shadowing.  A name declared in a freshly opened scope is found there
    whatever the enclosing scopes bind it to, the declaration always
    succeeds, and closing the scope gives back the table as it was. *)
Theorem inner_declaration_shadows (name : string) (inner : Symbol.t)
    (st : SymbolTable.t) :
  SymbolTable.scopes_ st <> [] ->
  let r := SymbolTable.insert name inner (SymbolTable.enterScope st) in
  fst r = true
  /\ SymbolTable.lookup name (snd r) = Some inner
  /\ SymbolTable.exitScope (snd r) = st.
Proof.
  intros Hne. destruct st as [scopes]. cbn [SymbolTable.scopes_] in Hne.
  cbv zeta. unfold SymbolTable.enterScope. cbn [SymbolTable.scopes_].
  rewrite insert_snoc, lookup_empty. cbn [fst snd].
  rewrite lookup_snoc, lookup_insert_eq, exitScope_snoc by exact Hne.
  repeat split.
Qed.

Lemma inner_declaration_shadows_witness :
  SymbolTable.lookup "sqrt"
    (snd (SymbolTable.insert "sqrt"
            (Symbol.new "sqrt" BOOL false (mkLoc 2 1 9))
            (SymbolTable.enterScope
               (BuiltinFunctions.registerBuiltins SymbolTable.new))))
  = Some (Symbol.new "sqrt" BOOL false (mkLoc 2 1 9)).
Proof.
  destruct (inner_declaration_shadows "sqrt"
              (Symbol.new "sqrt" BOOL false (mkLoc 2 1 9))
              (BuiltinFunctions.registerBuiltins SymbolTable.new)
              builtins_scopes) as (_ & H & _).
  exact H.
Defined.

(* ===================================================================== *)
(** ** Semantic.cpp: the type rules *)
(* ===================================================================== *)

(** X16.  Compatibility is reflexive and symmetric but not transitive: UNKNOWN
    is compatible with everything, so it links types that are not
    compatible with one another. *)
Theorem isCompatible_is_not_transitive :
  (forall ty, TypeChecker.isCompatible ty ty = true)
  /\ (forall from to,
        TypeChecker.isCompatible from to = TypeChecker.isCompatible to from)
  /\ TypeChecker.isCompatible STRING_T UNKNOWN = true
  /\ TypeChecker.isCompatible UNKNOWN BOOL = true
  /\ TypeChecker.isCompatible STRING_T BOOL = false.
Proof.
  repeat split.
  - intros ty. now destruct ty.
  - intros from to. now destruct from, to.
Qed.

(** X17.  The type of a binary expression does not depend on the order of its
    operands, and it is INT, FLOAT, BOOL or UNKNOWN: no operator yields a
    string, an array, a function or VOID. *)
Theorem getResultType_is_symmetric (op : OperatorType)
    (left_ right_ : DataType) :
  TypeChecker.getResultType op left_ right_
  = TypeChecker.getResultType op right_ left_
  /\ In (TypeChecker.getResultType op left_ right_)
        [INT; FLOAT_T; BOOL; UNKNOWN].
Proof. destruct op, left_, right_; simpl; tauto. Qed.

(* ===================================================================== *)
(** ** Semantic.cpp: what checking a statement leaves alone *)
(* ===================================================================== *)

Lemma same_outer_scopes_refl (st : SymbolTable.t) :
  SymbolTable.scopes_ st <> [] -> same_outer_scopes st st.
Proof.
  intros H. destruct (scopes_snoc _ H) as (outer & cur & E).
  exists outer, cur, cur. auto.
Qed.

Lemma same_outer_scopes_trans (st1 st2 st3 : SymbolTable.t) :
  same_outer_scopes st1 st2 -> same_outer_scopes st2 st3 ->
  same_outer_scopes st1 st3.
Proof.
  intros (o & c & c' & H1 & H2 & H3) (o' & d & d' & K1 & K2 & K3).
  rewrite H2 in K1. apply app_inj_tail in K1 as [<- <-].
  exists o, c, d'. repeat split; try assumption. now transitivity c'.
Qed.

Lemma same_outer_scopes_nonempty (st st' : SymbolTable.t) :
  same_outer_scopes st st' -> SymbolTable.scopes_ st' <> [].
Proof.
  intros (o & c & c' & _ & H & _). rewrite H. now destruct o.
Qed.

Lemma same_outer_scopes_insert (name : string) (symbol : Symbol.t)
    (st : SymbolTable.t) :
  SymbolTable.scopes_ st <> [] ->
  same_outer_scopes st (snd (SymbolTable.insert name symbol st)).
Proof.
  intros H. destruct st as [scopes]. cbn [SymbolTable.scopes_] in H.
  destruct (scopes_snoc _ H) as (outer & cur & ->).
  rewrite insert_snoc. destruct (cur !! name) eqn:Hcur; cbn [snd].
  - exists outer, cur, cur. auto.
  - exists outer, cur, (<[name := symbol]> cur).
    repeat split. now apply insert_subseteq.
Qed.

Lemma statement_frame_refl (a : SemanticAnalyzer.t) :
  has_scope a -> statement_frame a a.
Proof.
  intros H. split; [now apply same_outer_scopes_refl|].
  repeat split. exists []. now rewrite app_nil_r.
Qed.

Lemma statement_frame_trans (a b c : SemanticAnalyzer.t) :
  statement_frame a b -> statement_frame b c -> statement_frame a c.
Proof.
  intros (H1 & H2 & H3 & H4 & e1 & H5) (K1 & K2 & K3 & K4 & e2 & K5).
  split; [eapply same_outer_scopes_trans; eassumption|].
  repeat split; try congruence.
  exists (e1 ++ e2)%list. now rewrite K5, H5, app_assoc.
Qed.

Lemma statement_frame_has_scope (a a' : SemanticAnalyzer.t) :
  statement_frame a a' -> has_scope a'.
Proof. intros (H & _). exact (same_outer_scopes_nonempty _ _ H). Qed.

Lemma extends_statement_frame (a a' : SemanticAnalyzer.t) :
  has_scope a -> extends a a' -> statement_frame a a'.
Proof.
  intros H (H1 & H2 & H3 & H4 & H5).
  split; [rewrite H1; now apply same_outer_scopes_refl|].
  repeat split; assumption.
Qed.

Lemma checkCondition_extends (message : string) (condition : Expression)
    (a : SemanticAnalyzer.t) :
  extends a (SemanticAnalyzer.checkCondition message condition a).
Proof.
  unfold SemanticAnalyzer.checkCondition, SemanticAnalyzer.checkExpression.
  destruct (negb _).
  - eapply extends_trans;
      [apply visitExpression_extends | apply extends_reportError].
  - apply visitExpression_extends.
Qed.

Lemma visitReturnStatement_extends (value : option Expression)
    (l : SourceLocation) (a : SemanticAnalyzer.t) :
  extends a (SemanticAnalyzer.visitReturnStatement value l a).
Proof.
  unfold SemanticAnalyzer.visitReturnStatement,
    SemanticAnalyzer.checkExpression.
  destruct (negb (SemanticAnalyzer.inFunction_ a));
    [apply extends_reportError|].
  destruct value as [e|].
  - destruct (negb _).
    + eapply extends_trans;
        [apply visitExpression_extends | apply extends_reportError].
    + apply visitExpression_extends.
  - destruct (negb _); [apply extends_reportError | apply extends_refl].
Qed.

(** The state in which [visitVariableDeclaration] makes its [insert]: the
    initializer has been checked and a mismatch with the declared type
    reported; and the type the symbol gets. *)
Lemma visitVariableDeclaration_insert (name : string) (ty : DataType)
    (initializer : option Expression) (l : SourceLocation)
    (a : SemanticAnalyzer.t) :
  exists a1 declaredType,
    extends a a1
    /\ SemanticAnalyzer.visitVariableDeclaration name ty initializer l a
       = let r := SymbolTable.insert name (Symbol.new name declaredType false l)
                    (SemanticAnalyzer.symbolTable_ a1) in
         let a2 := SemanticAnalyzer.set_symbolTable (snd r) a1 in
         if negb (fst r)
         then SemanticAnalyzer.reportError
                ("Variable already declared: " ++ name) l a2
         else a2.
Proof.
  unfold SemanticAnalyzer.visitVariableDeclaration,
    SemanticAnalyzer.checkExpression.
  set (a0 := match initializer with
             | Some e => SemanticAnalyzer.visitExpression e a
             | None => a
             end).
  set (ity := match initializer with
              | Some e => SemanticAnalyzer.currentExpressionType_
                            (SemanticAnalyzer.visitExpression e a)
              | None => UNKNOWN
              end).
  assert (H0 : extends a a0).
  { unfold a0. destruct initializer;
      [apply visitExpression_extends|apply extends_refl]. }
  replace (match initializer with
           | Some e =>
               (SemanticAnalyzer.currentExpressionType_
                  (SemanticAnalyzer.visitExpression e a),
                SemanticAnalyzer.visitExpression e a)
           | None => (UNKNOWN, a)
           end) with (ity, a0) by (unfold ity, a0; now destruct initializer).
  destruct (bool_decide (ty = UNKNOWN)); [|destruct (_ && _)].
  - exists a0, ity. split; [exact H0|].
    cbv zeta. destruct (SymbolTable.insert _ _ _); reflexivity.
  - eexists (SemanticAnalyzer.reportError _ l a0), ty.
    split; [eapply extends_trans; [exact H0|apply extends_reportError]|].
    cbv zeta. destruct (SymbolTable.insert _ _ _); reflexivity.
  - exists a0, ty. split; [exact H0|].
    cbv zeta. destruct (SymbolTable.insert _ _ _); reflexivity.
Qed.

Lemma set_symbolTable_frame (st : SymbolTable.t) (a : SemanticAnalyzer.t) :
  same_outer_scopes (SemanticAnalyzer.symbolTable_ a) st ->
  statement_frame a (SemanticAnalyzer.set_symbolTable st a).
Proof.
  intros H. split; [exact H|]. repeat split.
  exists []. simpl. now rewrite app_nil_r.
Qed.

Lemma visitVariableDeclaration_frame (name : string) (ty : DataType)
    (initializer : option Expression) (l : SourceLocation)
    (a : SemanticAnalyzer.t) :
  has_scope a ->
  statement_frame a
    (SemanticAnalyzer.visitVariableDeclaration name ty initializer l a).
Proof.
  intros Hs.
  destruct (visitVariableDeclaration_insert name ty initializer l a)
    as (a1 & dt & Hext & ->).
  pose proof (extends_statement_frame _ _ Hs Hext) as H1.
  pose proof (statement_frame_has_scope _ _ H1) as Hs1.
  cbv zeta. eapply statement_frame_trans; [exact H1|].
  assert (H2 : statement_frame a1
                 (SemanticAnalyzer.set_symbolTable
                    (snd (SymbolTable.insert name (Symbol.new name dt false l)
                            (SemanticAnalyzer.symbolTable_ a1))) a1))
    by (apply set_symbolTable_frame; now apply same_outer_scopes_insert).
  destruct (negb _); [|exact H2].
  eapply statement_frame_trans; [exact H2|].
  apply extends_statement_frame;
    [exact (statement_frame_has_scope _ _ H2) | apply extends_reportError].
Qed.

(** The loop over the statements of a block is the left fold of the
    statement visitor. *)
Lemma visitStatement_block (statements : list Statement)
    (l : SourceLocation) (a : SemanticAnalyzer.t) :
  SemanticAnalyzer.visitStatement (BlockStatement statements l) a
  = let a1 :=
      SemanticAnalyzer.set_symbolTable
        (SymbolTable.enterScope (SemanticAnalyzer.symbolTable_ a)) a in
    let a2 :=
      fold_left (fun a s => SemanticAnalyzer.visitStatement s a)
                statements a1 in
    SemanticAnalyzer.set_symbolTable
      (SymbolTable.exitScope (SemanticAnalyzer.symbolTable_ a2)) a2.
Proof.
  cbn [SemanticAnalyzer.visitStatement]. cbv zeta.
  generalize (SemanticAnalyzer.set_symbolTable
                (SymbolTable.enterScope (SemanticAnalyzer.symbolTable_ a)) a).
  induction statements as [|s ss IH]; intros a1; [reflexivity|].
  cbn [fold_left]. apply IH.
Qed.

Lemma fold_statement_frame (statements : list Statement) :
  Forall (fun s => forall a, has_scope a ->
            statement_frame a (SemanticAnalyzer.visitStatement s a))
         statements ->
  forall a, has_scope a ->
    statement_frame a
      (fold_left (fun a s => SemanticAnalyzer.visitStatement s a)
                 statements a).
Proof.
  induction 1 as [|s ss Hs Hss IH]; intros a Ha; cbn [fold_left].
  - now apply statement_frame_refl.
  - eapply statement_frame_trans; [apply Hs, Ha|].
    apply IH. exact (statement_frame_has_scope _ _ (Hs a Ha)).
Qed.

(** A statement checked in a scope opened for it: when that scope is
    closed again, the table is the one from before it was opened. *)
Lemma scoped_frame (a a1 a2 : SemanticAnalyzer.t) :
  has_scope a ->
  SymbolTable.scopes_ (SemanticAnalyzer.symbolTable_ a1)
  = (SymbolTable.scopes_ (SemanticAnalyzer.symbolTable_ a) ++ [∅])%list ->
  statement_frame a1 a2 ->
  SymbolTable.exitScope (SemanticAnalyzer.symbolTable_ a2)
  = SemanticAnalyzer.symbolTable_ a.
Proof.
  intros Ha H1 ((o & c & c' & K1 & K2 & _) & _). unfold has_scope in Ha.
  rewrite H1 in K1. apply app_inj_tail in K1 as [<- _].
  destruct (SemanticAnalyzer.symbolTable_ a2) as [scopes2].
  destruct (SemanticAnalyzer.symbolTable_ a) as [scopes].
  cbn [SymbolTable.scopes_] in *. subst scopes2.
  now apply exitScope_snoc.
Qed.

Lemma block_frame (statements : list Statement) (l : SourceLocation)
    (a : SemanticAnalyzer.t) :
  Forall (fun s => forall a, has_scope a ->
            statement_frame a (SemanticAnalyzer.visitStatement s a))
         statements ->
  has_scope a ->
  let a' := SemanticAnalyzer.visitStatement (BlockStatement statements l) a in
  SemanticAnalyzer.symbolTable_ a' = SemanticAnalyzer.symbolTable_ a
  /\ statement_frame a a'.
Proof.
  intros Hall Ha. cbv zeta. rewrite visitStatement_block. cbv zeta.
  set (a1 := SemanticAnalyzer.set_symbolTable _ a).
  assert (Ha1 : has_scope a1).
  { unfold has_scope, a1. simpl.
    now destruct (SymbolTable.scopes_ (SemanticAnalyzer.symbolTable_ a)). }
  pose proof (fold_statement_frame statements Hall a1 Ha1)
    as Hfold.
  set (a2 := fold_left _ statements a1) in *.
  assert (Hexit : SymbolTable.exitScope (SemanticAnalyzer.symbolTable_ a2)
                  = SemanticAnalyzer.symbolTable_ a)
    by (apply (scoped_frame a a1 a2 Ha); [reflexivity | exact Hfold]).
  rewrite Hexit. split; [reflexivity|].
  destruct Hfold as (_ & F2 & F3 & F4 & F5).
  split; [now apply same_outer_scopes_refl|].
  repeat split; assumption.
Qed.

(** The parameters are declared in the current scope only, and nothing
    else of the analyzer changes. *)
Lemma parameters_frame (l : SourceLocation)
    (parameters : list (string * DataType)) :
  forall a, has_scope a ->
    statement_frame a
      (fold_left
         (fun a param =>
            SemanticAnalyzer.set_symbolTable
              (snd (SymbolTable.insert (fst param)
                      (Symbol.new (fst param) (snd param) false l)
                      (SemanticAnalyzer.symbolTable_ a))) a)
         parameters a).
Proof.
  induction parameters as [|param ps IH]; intros a Ha; cbn [fold_left].
  - now apply statement_frame_refl.
  - assert (H : statement_frame a
                  (SemanticAnalyzer.set_symbolTable
                     (snd (SymbolTable.insert (fst param)
                             (Symbol.new (fst param) (snd param) false l)
                             (SemanticAnalyzer.symbolTable_ a))) a))
      by (apply set_symbolTable_frame; now apply same_outer_scopes_insert).
    eapply statement_frame_trans; [exact H|].
    apply IH. exact (statement_frame_has_scope _ _ H).
Qed.

(** What [visitFunctionDeclaration] leaves behind: the function's symbol
    in the current scope when the name was free there, a diagnostic
    otherwise; the parameters and the body's declarations are gone. *)
Lemma function_frame (name : string) (returnType : DataType)
    (parameters : list (string * DataType)) (body : Statement)
    (l : SourceLocation) (a : SemanticAnalyzer.t) :
  (forall a, has_scope a ->
     statement_frame a (SemanticAnalyzer.visitStatement body a)) ->
  has_scope a ->
  let a' :=
    SemanticAnalyzer.visitStatement
      (FunctionDeclaration name returnType parameters body l) a in
  SemanticAnalyzer.symbolTable_ a'
  = snd (SymbolTable.insert name
           (function_symbol name returnType parameters l)
           (SemanticAnalyzer.symbolTable_ a))
  /\ statement_frame a a'.
Proof.
  intros Hbody Ha. cbv zeta. cbn [SemanticAnalyzer.visitStatement].
  fold (function_symbol name returnType parameters l).
  pose proof (same_outer_scopes_insert name
                (function_symbol name returnType parameters l) _ Ha) as Hins.
  destruct (SymbolTable.insert name _ (SemanticAnalyzer.symbolTable_ a))
    as [inserted st]. cbn [snd] in *.
  pose proof (set_symbolTable_frame st a Hins) as H1.
  pose proof (statement_frame_has_scope _ _ H1) as Hs1.
  destruct inserted; cbn [negb].
  2: { split; [reflexivity|].
       eapply statement_frame_trans; [exact H1|].
       apply extends_statement_frame; [exact Hs1|apply extends_reportError]. }
  set (a1 := SemanticAnalyzer.set_symbolTable st a) in *.
  set (a2 := SemanticAnalyzer.set_function true returnType
               (SemanticAnalyzer.set_symbolTable
                  (SymbolTable.enterScope (SemanticAnalyzer.symbolTable_ a1))
                  a1)).
  assert (Ha2 : has_scope a2).
  { unfold has_scope, a2. simpl. now destruct (SymbolTable.scopes_ st). }
  pose proof (parameters_frame l parameters a2 Ha2) as H3.
  set (a3 := fold_left _ parameters a2) in *.
  pose proof (Hbody a3 (statement_frame_has_scope _ _ H3)) as H4.
  pose proof (statement_frame_trans _ _ _ H3 H4) as H24.
  set (a4 := SemanticAnalyzer.visitStatement body a3) in *.
  assert (Hexit : SymbolTable.exitScope (SemanticAnalyzer.symbolTable_ a4)
                  = SemanticAnalyzer.symbolTable_ a1)
    by (apply (scoped_frame a1 a2 a4 Hs1); [reflexivity | exact H24]).
  cbn [SemanticAnalyzer.set_function SemanticAnalyzer.set_symbolTable
       SemanticAnalyzer.symbolTable_ SemanticAnalyzer.inFunction_
       SemanticAnalyzer.currentFunctionReturnType_
       SemanticAnalyzer.typeChecker_ SemanticAnalyzer.inLoop_
       SemanticAnalyzer.currentExpressionType_].
  rewrite Hexit. split; [reflexivity|].
  destruct H24 as (_ & F2 & _ & _ & F5).
  split; [exact Hins|]. repeat split; assumption.
Qed.

Lemma visitStatement_frame (s : Statement) :
  forall a, has_scope a ->
    statement_frame a (SemanticAnalyzer.visitStatement s a).
Proof.
  induction s as [ss l IH | n ty init l | n ret params body l IH
                 | c s1 s2 l IH1 IH2 | c body l IH | v l | e l]
    using Statement_nested_ind; intros a Ha.
  - now apply block_frame.
  - now apply visitVariableDeclaration_frame.
  - now apply function_frame.
  - cbn [SemanticAnalyzer.visitStatement].
    pose proof (extends_statement_frame _ _ Ha
                  (checkCondition_extends "If condition must be boolean" c a))
      as H1.
    pose proof (IH1 _ (statement_frame_has_scope _ _ H1)) as H2.
    pose proof (statement_frame_trans _ _ _ H1 H2) as H12.
    destruct s2 as [s2|]; [|exact H12].
    eapply statement_frame_trans; [exact H12|].
    apply IH2. exact (statement_frame_has_scope _ _ H12).
  - cbn [SemanticAnalyzer.visitStatement].
    pose proof (extends_statement_frame _ _ Ha
                  (checkCondition_extends "While condition must be boolean"
                     c a)) as H1.
    set (a1 := SemanticAnalyzer.checkCondition _ c a) in *.
    assert (Ha2 : has_scope (SemanticAnalyzer.set_inLoop true a1))
      by exact (statement_frame_has_scope _ _ H1).
    pose proof (IH _ Ha2) as (G1 & _ & G3 & G4 & G5).
    destruct H1 as (F1 & F2 & F3 & F4 & e1 & F5).
    split; [eapply same_outer_scopes_trans; [exact F1 | exact G1]|].
    destruct G5 as (e2 & G5).
    repeat split; try (simpl in *; congruence).
    exists (e1 ++ e2)%list. simpl in *.
    unfold SemanticAnalyzer.getErrors in *. simpl in *.
    now rewrite G5, F5, app_assoc.
  - apply extends_statement_frame;
      [exact Ha | apply visitReturnStatement_extends].
  - apply extends_statement_frame;
      [exact Ha | apply visitExpression_extends].
Qed.

(** X18.  The frame of a statement.  Checking any statement, in an analyzer with
    at least one scope, leaves the enclosing scopes and the scope depth as
    they were, keeps every binding of the current scope (it can only add
    to them), restores [inLoop_], [inFunction_] and
    [currentFunctionReturnType_], and only appends diagnostics. *)
Theorem statement_leaves_frame (s : Statement) (a : SemanticAnalyzer.t) :
  has_scope a ->
  statement_frame a (SemanticAnalyzer.visitStatement s a).
Proof. apply visitStatement_frame. Qed.

Lemma statement_leaves_frame_witness :
  statement_frame SemanticAnalyzer.new
    (SemanticAnalyzer.visitStatement
       (WhileStatement (LiteralExpression "1" INT (mkLoc 1 8 7))
          (BlockStatement
             [VariableDeclaration "x" UNKNOWN None (mkLoc 1 12 11)]
             (mkLoc 1 20 19))
          (mkLoc 1 20 19))
       SemanticAnalyzer.new).
Proof.
  apply statement_leaves_frame. exact builtins_scopes.
Defined.

(** X19.  Block scope.  After a block has been checked the symbol table is
    exactly the one from before it: nothing declared inside the block,
    at any depth, is visible after it. *)
Theorem block_restores_symbol_table (statements : list Statement)
    (l : SourceLocation) (a : SemanticAnalyzer.t) :
  has_scope a ->
  SemanticAnalyzer.symbolTable_
    (SemanticAnalyzer.visitStatement (BlockStatement statements l) a)
  = SemanticAnalyzer.symbolTable_ a.
Proof.
  intros Ha. apply block_frame; [|exact Ha].
  apply Forall_forall. intros s _. apply visitStatement_frame.
Qed.

Lemma block_restores_symbol_table_witness :
  SemanticAnalyzer.symbolTable_
    (SemanticAnalyzer.visitStatement
       (BlockStatement
          [VariableDeclaration "print" UNKNOWN None (mkLoc 1 3 2)]
          (mkLoc 1 14 13))
       SemanticAnalyzer.new)
  = SemanticAnalyzer.symbolTable_ SemanticAnalyzer.new.
Proof.
  apply block_restores_symbol_table. exact builtins_scopes.
Defined.

(** X20.  Function scope.  After a function declaration has been checked, the
    symbol table differs from the one before it by the function's own
    symbol at most: the parameters and the declarations of the body are
    gone, and when the name was already declared in the current scope the
    table is unchanged. *)
Theorem function_declares_only_itself (name : string) (returnType : DataType)
    (parameters : list (string * DataType)) (body : Statement)
    (l : SourceLocation) (a : SemanticAnalyzer.t) :
  has_scope a ->
  SemanticAnalyzer.symbolTable_
    (SemanticAnalyzer.visitStatement
       (FunctionDeclaration name returnType parameters body l) a)
  = snd (SymbolTable.insert name
           (function_symbol name returnType parameters l)
           (SemanticAnalyzer.symbolTable_ a)).
Proof.
  intros Ha. apply function_frame; [|exact Ha].
  apply visitStatement_frame.
Qed.

Lemma function_declares_only_itself_witness :
  SemanticAnalyzer.symbolTable_
    (SemanticAnalyzer.visitStatement
       (FunctionDeclaration "f" INT [("n", INT)]
          (BlockStatement
             [ReturnStatement (Some (VariableExpression "n" (mkLoc 1 30 29)))
                              (mkLoc 1 23 22)]
             (mkLoc 1 33 32))
          (mkLoc 1 10 9))
       SemanticAnalyzer.new)
  = snd (SymbolTable.insert "f"
           (function_symbol "f" INT [("n", INT)] (mkLoc 1 10 9))
           (SemanticAnalyzer.symbolTable_ SemanticAnalyzer.new)).
Proof.
  apply function_declares_only_itself. exact builtins_scopes.
Defined.

(** X21.  Redeclaration.  A variable declaration whose name is already bound in
    the current scope leaves the symbol table as it was (the first
    declaration stays) and ends with the diagnostic [Variable already
    declared], after the diagnostics of its initializer. *)
Theorem redeclaration_is_diagnosed (name : string) (ty : DataType)
    (initializer : option Expression) (l : SourceLocation)
    (a : SemanticAnalyzer.t) (old : Symbol.t) :
  SymbolTable.lookupCurrentScope name (SemanticAnalyzer.symbolTable_ a)
  = Some old ->
  let a' := SemanticAnalyzer.visitVariableDeclaration
              name ty initializer l a in
  SemanticAnalyzer.symbolTable_ a' = SemanticAnalyzer.symbolTable_ a
  /\ exists errors,
       SemanticAnalyzer.getErrors a'
       = (SemanticAnalyzer.getErrors a ++ errors
          ++ [format_diagnostic l ("Variable already declared: " ++ name)])%list.
Proof.
  intros Hold. cbv zeta.
  destruct (visitVariableDeclaration_insert name ty initializer l a)
    as (a1 & dt & (E1 & _ & _ & _ & extra & E5) & ->).
  cbv zeta. unfold SymbolTable.insert. rewrite E1, Hold. cbn [fst snd negb].
  split; [reflexivity|].
  exists extra. unfold SemanticAnalyzer.getErrors in *. simpl.
  now rewrite E5, app_assoc.
Qed.

Lemma redeclaration_is_diagnosed_witness :
  SemanticAnalyzer.symbolTable_
    (SemanticAnalyzer.visitVariableDeclaration "print" INT None (mkLoc 1 1 0)
       SemanticAnalyzer.new)
  = SemanticAnalyzer.symbolTable_ SemanticAnalyzer.new.
Proof.
  destruct (redeclaration_is_diagnosed "print" INT None (mkLoc 1 1 0)
              SemanticAnalyzer.new
              (Symbol.mk "print" FUNCTION_T true false SourceLocation_default
                         [STRING_T] (Some VOID))
              ltac:(vm_compute; reflexivity)) as [H _].
  exact H.
Defined.

(* ===================================================================== *)
(** ** Semantic.cpp: a type left unknown is reported *)
(* ===================================================================== *)

Lemma reported_after_extends (m : string) (l : SourceLocation)
    (a a' : SemanticAnalyzer.t) :
  extends a a' ->
  SemanticAnalyzer.getErrors (SemanticAnalyzer.reportError m l a')
  <> SemanticAnalyzer.getErrors a.
Proof.
  intros (_ & _ & _ & _ & extra & E) H.
  unfold SemanticAnalyzer.getErrors in *. simpl in H. rewrite E in H.
  apply (f_equal (@length string)) in H. rewrite !length_app in H.
  simpl in H. lia.
Qed.

(** X22.  No operator leaves a type unknown in silence.  When checking an
    expression adds no diagnostic and still gives it the type UNKNOWN, the
    expression is the [null] literal, or a variable, an assignment or a
    call whose symbol was declared with that type; it is never a unary or
    binary operation. *)
Theorem silent_unknown_type (e : Expression) (a : SemanticAnalyzer.t) :
  SemanticAnalyzer.getErrors (SemanticAnalyzer.visitExpression e a)
  = SemanticAnalyzer.getErrors a ->
  SemanticAnalyzer.currentExpressionType_
    (SemanticAnalyzer.visitExpression e a) = UNKNOWN ->
  unknown_by_declaration e (SemanticAnalyzer.symbolTable_ a).
Proof.
  assert (Hundef : forall m l a',
            extends a a' ->
            SemanticAnalyzer.getErrors
              (SemanticAnalyzer.set_currentExpressionType UNKNOWN
                 (SemanticAnalyzer.reportError m l a'))
            <> SemanticAnalyzer.getErrors a)
    by (intros m l a' Ha'; exact (reported_after_extends m l a a' Ha')).
  destruct e as [v ty l | n l | e1 op e2 l | op e l | n e l | n args l];
    cbn [SemanticAnalyzer.visitExpression unknown_by_declaration].
  - intros _ H. exact H.
  - destruct (SymbolTable.lookup n _) as [symbol|] eqn:Hl.
    + intros _ H. eauto.
    + intros H. now apply Hundef in H; [|apply extends_refl].
  - pose proof (visitExpression_extends e1 a) as H1.
    pose proof (visitExpression_extends e2
                  (SemanticAnalyzer.visitExpression e1 a)) as H2.
    pose proof (extends_trans _ _ _ H1 H2) as H12.
    cbv zeta. destruct (bool_decide _) eqn:Hb.
    + intros H. exfalso. revert H. apply reported_after_extends.
      eapply extends_trans; [exact H12 | apply extends_set_type].
    + intros _ H. apply bool_decide_eq_false in Hb. now elim Hb.
  - pose proof (visitExpression_extends e a) as H1.
    cbv zeta. destruct (bool_decide _) eqn:Hb.
    + intros H. exfalso. revert H. apply reported_after_extends.
      eapply extends_trans; [exact H1 | apply extends_set_type].
    + intros _ H. apply bool_decide_eq_false in Hb. now elim Hb.
  - pose proof (visitExpression_extends e a) as H1.
    cbv zeta. destruct H1 as (Hst & H1').
    assert (H1 : extends a (SemanticAnalyzer.visitExpression e a))
      by (split; assumption).
    rewrite Hst.
    destruct (SymbolTable.lookup n _) as [symbol|] eqn:Hl.
    + intros _ H. eauto.
    + intros H. now apply Hundef in H.
  - destruct (SymbolTable.lookup n _) as [symbol|] eqn:Hl.
    2: { intros H. now apply Hundef in H; [|apply extends_refl]. }
    destruct (negb (Symbol.isFunction symbol)).
    { intros H. now apply Hundef in H; [|apply extends_refl]. }
    destruct (negb _).
    { intros H. now apply Hundef in H; [|apply extends_refl]. }
    intros _ H. eauto.
Qed.

Lemma silent_unknown_type_witness :
  unknown_by_declaration (LiteralExpression "null" UNKNOWN (mkLoc 1 1 0))
    (SemanticAnalyzer.symbolTable_ SemanticAnalyzer.new).
Proof.
  apply (silent_unknown_type (LiteralExpression "null" UNKNOWN (mkLoc 1 1 0))
           SemanticAnalyzer.new); reflexivity.
Defined.

(* ===================================================================== *)
(** ** Parser.cpp: the parser on a well-formed stream *)
(* ===================================================================== *)

Lemma parser_wp_ret {A} (a : A) (returned : A -> Parser.t -> Prop)
    (raised : CompilerError -> Parser.t -> Prop) (p : Parser.t) :
  returned a p -> parser_wp (Parser.ret a) returned raised p.
Proof. intros H. exact H. Qed.

Lemma parser_wp_throw {A} (e : CompilerError)
    (returned : A -> Parser.t -> Prop)
    (raised : CompilerError -> Parser.t -> Prop) (p : Parser.t) :
  raised e p -> parser_wp (Parser.throw e) returned raised p.
Proof. intros H. exact H. Qed.

Lemma parser_wp_bind {A B} (m : Parser.M A) (f : A -> Parser.M B)
    (mid : A -> Parser.t -> Prop) (returned : B -> Parser.t -> Prop)
    (raised : CompilerError -> Parser.t -> Prop) (p : Parser.t) :
  parser_wp m mid raised p ->
  (forall a p', mid a p' -> parser_wp (f a) returned raised p') ->
  parser_wp (Parser.bind m f) returned raised p.
Proof.
  unfold parser_wp, Parser.bind. intros Hm Hf.
  destruct (m p) as [a p'|e p'| |]; auto. now apply Hf.
Qed.

Lemma parser_wp_mono {A} (m : Parser.M A)
    (returned returned' : A -> Parser.t -> Prop)
    (raised raised' : CompilerError -> Parser.t -> Prop) (p : Parser.t) :
  parser_wp m returned raised p ->
  (forall a p', returned a p' -> returned' a p') ->
  (forall e p', raised e p' -> raised' e p') ->
  parser_wp m returned' raised' p.
Proof.
  unfold parser_wp. intros Hm H1 H2. destruct (m p); auto.
Qed.

Lemma well_formed_stream_shape (tokens : list Token) :
  well_formed_stream tokens = true ->
  forall i tok,
    tokens !! i = Some tok ->
    (type tok = END_OF_FILE <-> S i = length tokens).
Proof.
  induction tokens as [|t ts IH]; [discriminate|].
  intros Hwf i tok Hi. destruct ts as [|t' ts].
  - simpl in Hwf. apply bool_decide_eq_true in Hwf.
    destruct i; [|discriminate]. injection Hi as <-. simpl. tauto.
  - cbn [well_formed_stream] in Hwf. apply andb_true_iff in Hwf as [Ht Hts].
    apply negb_true_iff, bool_decide_eq_false in Ht.
    destruct i as [|i].
    + injection Hi as <-. simpl. split; [tauto | discriminate].
    + specialize (IH Hts i tok Hi). cbn [length] in *. rewrite IH. lia.
Qed.

Lemma kind_absent_lookup (ty : TokenType) (tokens : list Token) :
  kind_absent ty tokens = true ->
  forall i tok, tokens !! i = Some tok -> type tok <> ty.
Proof.
  unfold kind_absent. rewrite forallb_forall. intros H i tok Hi.
  apply list_elem_of_lookup_2, list_elem_of_In in Hi. specialize (H tok Hi).
  now apply negb_true_iff, bool_decide_eq_false in H.
Qed.

Section ParserSafety.

Variable toks : list Token.
Hypothesis Hshape :
  forall i tok,
    toks !! i = Some tok -> (type tok = END_OF_FILE <-> S i = length toks).

Variables colon_ok slash_ok : bool.
Hypothesis Hcolon :
  colon_ok = false -> forall i tok, toks !! i = Some tok -> type tok <> COLON.
Hypothesis Hslash :
  slash_ok = false -> forall i tok, toks !! i = Some tok -> type tok <> SLASH.

Lemma peek_spec (raised : CompilerError -> Parser.t -> Prop) (p : Parser.t) :
  parser_wf toks p ->
  parser_wp Parser.peek
    (fun tok p' => p' = p /\ toks !! Parser.current_ p = Some tok) raised p.
Proof.
  intros [Ht Hc]. unfold parser_wp, Parser.peek. rewrite Ht.
  destruct (lookup_lt_is_Some_2 toks _ Hc) as [tok Htok].
  rewrite Htok. auto.
Qed.

Lemma previous_spec (raised : CompilerError -> Parser.t -> Prop)
    (p : Parser.t) :
  parser_wf toks p ->
  0 < Parser.current_ p ->
  parser_wp Parser.previous
    (fun tok p' =>
       p' = p /\ forall i, Parser.current_ p = S i -> toks !! i = Some tok)
    raised p.
Proof.
  intros [Ht Hc] Hpos. unfold parser_wp, Parser.previous. rewrite Ht.
  destruct (Parser.current_ p) as [|i]; [lia|].
  destruct (lookup_lt_is_Some_2 toks i ltac:(lia)) as [tok Htok].
  rewrite Htok. split; [reflexivity|]. now intros j [= <-].
Qed.

Lemma isAtEnd_spec (raised : CompilerError -> Parser.t -> Prop)
    (p : Parser.t) :
  parser_wf toks p ->
  parser_wp Parser.isAtEnd
    (fun b p' =>
       p' = p /\ (b = true <-> S (Parser.current_ p) = length toks)) raised p.
Proof.
  intros Hwf. unfold Parser.isAtEnd.
  eapply parser_wp_bind; [apply peek_spec, Hwf|].
  intros tok p' [-> Htok]. apply parser_wp_ret. split; [reflexivity|].
  rewrite bool_decide_eq_true. now apply Hshape.
Qed.

Lemma check_spec (ty : TokenType)
    (raised : CompilerError -> Parser.t -> Prop) (p : Parser.t) :
  parser_wf toks p ->
  parser_wp (Parser.check ty)
    (fun b p' =>
       p' = p
       /\ (b = true ->
           S (Parser.current_ p) < length toks
           /\ exists tok,
                toks !! Parser.current_ p = Some tok /\ type tok = ty))
    raised p.
Proof.
  intros Hwf. unfold Parser.check.
  eapply parser_wp_bind; [apply isAtEnd_spec, Hwf|].
  intros atEnd p' [-> Hend]. destruct atEnd.
  - apply parser_wp_ret. split; [reflexivity | discriminate].
  - eapply parser_wp_bind; [apply peek_spec, Hwf|].
    intros tok p' [-> Htok]. apply parser_wp_ret. split; [reflexivity|].
    rewrite bool_decide_eq_true. intros Hty. split; [|eauto].
    destruct Hwf as [_ Hc].
    assert (S (Parser.current_ p) <> length toks)
      by (intros E; apply Hend in E; discriminate).
    lia.
Qed.

Lemma advance_spec (raised : CompilerError -> Parser.t -> Prop)
    (p : Parser.t) :
  parser_wf toks p ->
  S (Parser.current_ p) < length toks ->
  parser_wp Parser.advance
    (fun tok p' =>
       stepped toks 1 p p'
       /\ Parser.current_ p' = S (Parser.current_ p)
       /\ toks !! Parser.current_ p = Some tok) raised p.
Proof.
  intros Hwf Hlt. unfold Parser.advance.
  eapply parser_wp_bind; [apply isAtEnd_spec, Hwf|].
  intros atEnd p' [-> Hend].
  destruct atEnd; [destruct Hend as [Hend _]; specialize (Hend eq_refl); lia|].
  eapply parser_wp_bind.
  { unfold parser_wp. instantiate
      (1 := fun _ p' =>
              p' = Parser.mk (Parser.tokens_ p) (S (Parser.current_ p))
                             (Parser.hadError_ p) (Parser.panicMode_ p)).
    reflexivity. }
  intros _ p' ->. destruct Hwf as [Ht Hc].
  eapply parser_wp_mono; [apply previous_spec| |intros e p' H; exact H].
  - split; simpl; [exact Ht | lia].
  - simpl. lia.
  - simpl. intros tok p' [-> Hprev].
    repeat split; simpl; try lia; try assumption.
    now apply Hprev.
Qed.

Lemma match_spec (ty : TokenType)
    (raised : CompilerError -> Parser.t -> Prop) (p : Parser.t) :
  parser_wf toks p ->
  parser_wp (Parser.match_ ty) (matched toks [ty] p) raised p.
Proof.
  intros Hwf. unfold Parser.match_.
  eapply parser_wp_bind; [apply check_spec, Hwf|].
  intros b p' [-> Hb]. destruct b; [|now apply parser_wp_ret].
  destruct (Hb eq_refl) as (Hlt & tok & Htok & Hty).
  eapply parser_wp_bind; [apply advance_spec; assumption|].
  intros tok' p' (Hstep & Hcur & _). apply parser_wp_ret.
  split; [exact Hstep|]. split; [exact Hcur|].
  exists tok. split; [exact Htok | left; now symmetry].
Qed.

Lemma matched_weaken (tys tys' : list TokenType) (p : Parser.t) (b : bool)
    (p' : Parser.t) :
  (forall ty, In ty tys -> In ty tys') ->
  matched toks tys p b p' -> matched toks tys' p b p'.
Proof.
  intros Hsub. unfold matched. destruct b; [|auto].
  intros (H1 & H2 & tok & H3 & H4). eauto 8.
Qed.

Lemma match_any_spec (tys : list TokenType)
    (raised : CompilerError -> Parser.t -> Prop) (p : Parser.t) :
  parser_wf toks p ->
  parser_wp (match_any tys) (matched toks tys p) raised p.
Proof.
  intros Hwf. induction tys as [|ty tys IH].
  - now apply parser_wp_ret.
  - destruct tys as [|ty' tys]; [now apply match_spec|].
    change (match_any (ty :: ty' :: tys))
      with (Parser.orM (Parser.match_ ty) (match_any (ty' :: tys))).
    unfold Parser.orM.
    eapply parser_wp_bind; [apply match_spec, Hwf|].
    intros b p' Hb. destruct b.
    + apply parser_wp_ret.
      eapply matched_weaken; [|exact Hb]. intros t [<-|[]]. now left.
    + simpl in Hb. subst p'.
      eapply parser_wp_mono; [exact IH| |auto].
      intros b p'. apply matched_weaken. intros t Ht. now right.
Qed.

Lemma consume_spec (ty : TokenType) (message : string) (p : Parser.t) :
  parser_wf toks p ->
  parser_wp (Parser.consume ty message)
    (fun _ p' =>
       stepped toks 1 p p' /\ Parser.current_ p' = S (Parser.current_ p)
       /\ exists tok, toks !! Parser.current_ p = Some tok /\ type tok = ty)
    (thrown toks) p.
Proof.
  intros Hwf. unfold Parser.consume.
  eapply parser_wp_bind; [apply check_spec, Hwf|].
  intros b p' [-> Hb]. destruct b.
  - destruct (Hb eq_refl) as (Hlt & tok & Htok & Hty).
    eapply parser_wp_mono;
      [apply (advance_spec (thrown toks)); assumption| |auto].
    intros tok' p' (H1 & H2 & H3). eauto 8.
  - eapply parser_wp_bind; [apply peek_spec, Hwf|].
    intros tok p' [-> _]. apply parser_wp_throw. split; [exact Hwf|eauto].
Qed.

(** [error] always throws, with both flags set. *)
Lemma error_spec (message : string) (p : Parser.t) :
  parser_wf toks p ->
  0 < Parser.current_ p \/ S (Parser.current_ p) < length toks ->
  parser_wp (Parser.error message) (fun _ _ => False)
    (fun e p' =>
       parser_wf toks p'
       /\ (exists l, e = CompilerError_new message l)
       /\ Parser.hadError_ p' = true /\ Parser.panicMode_ p' = true) p.
Proof.
  intros Hwf Hpos. unfold Parser.error.
  eapply parser_wp_bind.
  { unfold parser_wp. instantiate
      (1 := fun _ p' =>
              p' = Parser.mk (Parser.tokens_ p) (Parser.current_ p) true true).
    reflexivity. }
  intros _ p' ->.
  assert (Hwf' : parser_wf toks
                   (Parser.mk (Parser.tokens_ p) (Parser.current_ p) true true))
    by exact Hwf.
  eapply parser_wp_bind; [apply isAtEnd_spec, Hwf'|].
  intros atEnd p' [-> Hend]. simpl in Hend. destruct atEnd; cbn [negb].
  - eapply parser_wp_bind; [apply previous_spec; [exact Hwf'|]|].
    { simpl. destruct Hend as [Hend _]. specialize (Hend eq_refl). lia. }
    intros tok p' [-> _]. apply parser_wp_throw. simpl. eauto 8.
  - eapply parser_wp_bind; [apply peek_spec, Hwf'|].
    intros tok p' [-> _]. apply parser_wp_throw. simpl. eauto 8.
Qed.

Lemma error_thrown {A} (message : string) (k : Parser.M A)
    (returned : A -> Parser.t -> Prop) (p : Parser.t) :
  parser_wf toks p ->
  0 < Parser.current_ p \/ S (Parser.current_ p) < length toks ->
  parser_wp (Parser.bind (Parser.error message) (fun _ => k)) returned
            (thrown toks) p.
Proof.
  intros Hwf Hpos.
  eapply parser_wp_bind;
    [eapply parser_wp_mono; [apply error_spec; assumption| |]|].
  - intros a p' H. exact H.
  - intros e p' (H1 & [l ->] & _). split; [exact H1 | eauto].
  - intros a p' [].
Qed.

Ltac psolve :=
  unfold matched, stepped, parser_wf, fuel_for in *;
  repeat match goal with
         | H : _ /\ _ |- _ => destruct H
         | H : exists _, _ |- _ => destruct H
         end;
  repeat split; first [assumption | lia | congruence | idtac].

Lemma rule_match_previous {A} (tys : list TokenType)
    (K : Token -> Parser.M A) (E : Parser.M A)
    (returned : A -> Parser.t -> Prop) (p : Parser.t) :
  parser_wf toks p ->
  (forall tok p1,
     In (type tok) tys -> toks !! Parser.current_ p = Some tok ->
     stepped toks 1 p p1 ->
     parser_wp (K tok) returned (thrown toks) p1) ->
  parser_wp E returned (thrown toks) p ->
  parser_wp
    (Parser.bind (match_any tys)
       (fun b => if b then Parser.bind Parser.previous K else E))
    returned (thrown toks) p.
Proof.
  intros Hwf HK HE.
  eapply parser_wp_bind; [apply match_any_spec, Hwf|].
  intros [] p1 Hm; [|simpl in Hm; now subst p1].
  destruct Hm as (Hstep & Hcur & tok & Htok & Hin).
  eapply parser_wp_bind; [apply previous_spec; psolve|].
  intros tok' p' [-> Hprev]. specialize (Hprev _ Hcur).
  assert (tok' = tok) as -> by congruence.
  now apply HK.
Qed.

Lemma rule_match {A} (tys : list TokenType) (X E : Parser.M A)
    (returned : A -> Parser.t -> Prop) (p : Parser.t) :
  parser_wf toks p ->
  (forall tok p1,
     In (type tok) tys -> toks !! Parser.current_ p = Some tok ->
     stepped toks 1 p p1 ->
     parser_wp X returned (thrown toks) p1) ->
  parser_wp E returned (thrown toks) p ->
  parser_wp (Parser.bind (match_any tys) (fun b => if b then X else E))
    returned (thrown toks) p.
Proof.
  intros Hwf HK HE.
  eapply parser_wp_bind; [apply match_any_spec, Hwf|].
  intros [] p1 Hm; [|simpl in Hm; now subst p1].
  destruct Hm as (Hstep & Hcur & tok & Htok & Hin). now apply (HK tok).
Qed.

Lemma rule_consume {A} (ty : TokenType) (message : string)
    (K : Parser.M A) (returned : A -> Parser.t -> Prop) (p : Parser.t) :
  parser_wf toks p ->
  (forall tok p1,
     type tok = ty -> toks !! Parser.current_ p = Some tok ->
     stepped toks 1 p p1 ->
     parser_wp K returned (thrown toks) p1) ->
  parser_wp (Parser.bind (Parser.consume ty message) (fun _ => K))
    returned (thrown toks) p.
Proof.
  intros Hwf HK.
  eapply parser_wp_bind; [apply consume_spec, Hwf|].
  intros _ p1 (Hstep & _ & tok & Htok & Hty). now apply (HK tok).
Qed.

Lemma rule_previous {A} (K : Token -> Parser.M A)
    (returned : A -> Parser.t -> Prop) (p : Parser.t) :
  parser_wf toks p ->
  0 < Parser.current_ p ->
  (forall tok, parser_wp (K tok) returned (thrown toks) p) ->
  parser_wp (Parser.bind Parser.previous K) returned (thrown toks) p.
Proof.
  intros Hwf Hpos HK.
  eapply parser_wp_bind; [apply previous_spec; assumption|].
  intros tok p' [-> _]. apply HK.
Qed.

Lemma rule_parse {A B} (k : nat) (Q : A -> Prop) (m : Parser.M A)
    (K : A -> Parser.M B) (returned : B -> Parser.t -> Prop)
    (p : Parser.t) :
  parses toks k Q m p ->
  (forall a p1, Q a -> stepped toks k p p1 ->
                parser_wp (K a) returned (thrown toks) p1) ->
  parser_wp (Parser.bind m K) returned (thrown toks) p.
Proof.
  intros Hm HK. eapply parser_wp_bind; [exact Hm|].
  intros a p1 [HQ Hstep]. now apply HK.
Qed.

Lemma parses_out_of_fuel {A} (k d : nat) (Q : A -> Prop) (m : Parser.M A)
    (p : Parser.t) :
  fuel_for toks (S d) 0 p -> parses toks k Q m p.
Proof. unfold fuel_for. lia. Qed.

Lemma plain_binary (e1 e2 : Expression) (op : OperatorType)
    (l : SourceLocation) :
  Expression_plain slash_ok e1 = true ->
  Expression_plain slash_ok e2 = true ->
  op <> OP_DIVIDE \/ slash_ok = true ->
  Expression_plain slash_ok (BinaryExpression e1 op e2 l) = true.
Proof.
  intros H1 H2 Hop. simpl. rewrite H1, H2.
  destruct Hop as [Hop| ->]; [|reflexivity].
  rewrite (bool_decide_eq_false_2 _ Hop). now destruct slash_ok.
Qed.

(** One level of binary operators: the operand, then the loop. *)
Lemma level_spec (d : nat) (fuel : nat)
    (next : Parser.M Expression)
    (loop : Expression -> Parser.M Expression) (p : Parser.t) :
  let Q := fun e => Expression_plain slash_ok e = true in
  (forall p, parser_wf toks p -> fuel_for toks d fuel p ->
             parses toks 1 Q next p) ->
  (forall e p, Q e -> parser_wf toks p -> fuel_for toks 1 fuel p ->
               parses toks 0 Q (loop e) p) ->
  parser_wf toks p ->
  fuel_for toks (S d) (S fuel) p ->
  parses toks 1 Q (Parser.bind next loop) p.
Proof.
  intros Q Hnext Hloop Hwf Hfuel.
  eapply rule_parse; [apply Hnext; psolve|].
  intros e p1 He Hs.
  eapply parser_wp_mono; [apply Hloop; [exact He|psolve..]| |auto].
  intros e' p' [He' Hs']. split; [exact He'|psolve].
Qed.

(** One turn of the loop of a level: an operator, the right operand, and
    what the loop does with the two. *)
Lemma loop_spec (d : nat) (fuel : nat) (tys : list TokenType)
    (next : Parser.M Expression)
    (rest : Token -> Expression -> Parser.M Expression)
    (e : Expression) (p : Parser.t) :
  let Q := fun e => Expression_plain slash_ok e = true in
  d <= 15 ->
  (forall p, parser_wf toks p -> fuel_for toks d fuel p ->
             parses toks 1 Q next p) ->
  (forall tok right_ p i,
     toks !! i = Some tok -> In (type tok) tys -> Q right_ ->
     parser_wf toks p -> fuel_for toks 1 fuel p ->
     parses toks 0 Q (rest tok right_) p) ->
  Q e ->
  parser_wf toks p ->
  fuel_for toks 1 (S fuel) p ->
  parses toks 0 Q
    (Parser.bind (match_any tys)
       (fun b =>
          if b then
            Parser.bind Parser.previous
              (fun operator_ =>
                 Parser.bind next (fun right_ => rest operator_ right_))
          else Parser.ret e)) p.
Proof.
  intros Q Hd Hnext Hrest He Hwf Hfuel.
  apply rule_match_previous; [exact Hwf| |].
  - intros tok p1 Hin Htok Hs.
    eapply rule_parse; [apply Hnext; psolve|].
    intros right_ p2 Hr Hs2.
    eapply parser_wp_mono;
      [eapply (Hrest tok right_ p2); [exact Htok|exact Hin|exact Hr|psolve..]
      | |auto].
    intros e' p' [He' Hs']. split; [exact He'|psolve].
  - apply parser_wp_ret. split; [exact He|psolve].
Qed.

Lemma expression_parsers_hold (fuel : nat) :
  expression_parsers toks slash_ok fuel.
Proof.
  induction fuel as [|fuel IH]; unfold expression_parsers; cbv zeta.
  { repeat split; intros; eapply parses_out_of_fuel; eassumption. }
  destruct IH as (IHexpr & IHassign & IHor & IHor_loop & IHand & IHand_loop
                  & IHeq & IHeq_loop & IHcmp & IHcmp_loop & IHterm
                  & IHterm_loop & IHfactor & IHfactor_loop & IHunary
                  & IHprimary).
  repeat apply conj.
  - (* parseExpression *)
    intros p Hwf Hfuel. cbn [Parser.parseExpression].
    apply IHassign; psolve.
  - (* parseAssignment *)
    intros p Hwf Hfuel. cbn [Parser.parseAssignment].
    eapply rule_parse; [apply IHor; psolve|].
    intros e p1 He Hs.
    apply (rule_match_previous [ASSIGN]); [psolve| |].
    + intros equals p2 _ _ Hs2.
      eapply rule_parse; [apply IHassign; psolve|].
      intros v p3 Hv Hs3.
      destruct e; try (apply error_thrown; psolve).
      apply parser_wp_ret. split; [exact Hv|psolve].
    + apply parser_wp_ret. split; [exact He|psolve].
  - (* parseLogicalOr *)
    intros p Hwf Hfuel. cbn [Parser.parseLogicalOr].
    now apply (level_spec 7 fuel).
  - intros e p He Hwf Hfuel. cbn [Parser.parseLogicalOr_loop].
    apply (loop_spec 7 fuel [OR]); try assumption; [lia|].
    intros tok r p' i Htok Hin Hr Hwf' Hfuel'.
    apply IHor_loop; try assumption.
    apply plain_binary; auto; left; discriminate.
  - intros p Hwf Hfuel. cbn [Parser.parseLogicalAnd].
    now apply (level_spec 6 fuel).
  - intros e p He Hwf Hfuel. cbn [Parser.parseLogicalAnd_loop].
    apply (loop_spec 6 fuel [AND]); try assumption; [lia|].
    intros tok r p' i Htok Hin Hr Hwf' Hfuel'.
    apply IHand_loop; try assumption.
    apply plain_binary; auto; left; discriminate.
  - intros p Hwf Hfuel. cbn [Parser.parseEquality].
    now apply (level_spec 5 fuel).
  - intros e p He Hwf Hfuel. cbn [Parser.parseEquality_loop].
    apply (loop_spec 5 fuel [NOT_EQUAL; EQUAL]); try assumption; [lia|].
    intros tok r p' i Htok Hin Hr Hwf' Hfuel'.
    apply IHeq_loop; try assumption.
    apply plain_binary; auto; left; now destruct (bool_decide _).
  - intros p Hwf Hfuel. cbn [Parser.parseComparison].
    now apply (level_spec 4 fuel).
  - intros e p He Hwf Hfuel. cbn [Parser.parseComparison_loop].
    apply (loop_spec 4 fuel [GREATER; GREATER_EQUAL; LESS; LESS_EQUAL]);
      try assumption; [lia|].
    intros tok r p' i Htok Hin Hr Hwf' Hfuel'.
    destruct Hin as [<-|[<-|[<-|[<-|[]]]]];
      (apply IHcmp_loop; try assumption;
       apply plain_binary; auto; left; discriminate).
  - intros p Hwf Hfuel. cbn [Parser.parseTerm].
    now apply (level_spec 3 fuel).
  - intros e p He Hwf Hfuel. cbn [Parser.parseTerm_loop].
    apply (loop_spec 3 fuel [MINUS; PLUS]); try assumption; [lia|].
    intros tok r p' i Htok Hin Hr Hwf' Hfuel'.
    apply IHterm_loop; try assumption.
    apply plain_binary; auto; left; now destruct (bool_decide _).
  - intros p Hwf Hfuel. cbn [Parser.parseFactor].
    now apply (level_spec 2 fuel).
  - intros e p He Hwf Hfuel. cbn [Parser.parseFactor_loop].
    apply (loop_spec 2 fuel [SLASH; MULTIPLY; MODULO]);
      try assumption; [lia|].
    intros tok r p' i Htok Hin Hr Hwf' Hfuel'.
    destruct Hin as [Hty|[<-|[<-|[]]]].
    + rewrite <- Hty. apply IHfactor_loop; try assumption.
      apply plain_binary; auto; right.
      destruct slash_ok; [reflexivity|].
      exfalso. now apply (Hslash eq_refl i tok Htok).
    + apply IHfactor_loop; try assumption.
      apply plain_binary; auto; left; discriminate.
    + apply IHfactor_loop; try assumption.
      apply plain_binary; auto; left; discriminate.
  - (* parseUnary *)
    intros p Hwf Hfuel. cbn [Parser.parseUnary].
    apply (rule_match_previous [NOT; MINUS]); [exact Hwf| |].
    + intros tok p1 _ _ Hs.
      eapply rule_parse; [apply IHunary; psolve|].
      intros r p2 Hr Hs2. apply parser_wp_ret. split; [exact Hr|psolve].
    + apply IHprimary; psolve.
  - (* parsePrimary *)
    intros p Hwf Hfuel. cbn [Parser.parsePrimary].
    repeat (apply (rule_match_previous [_]); [exact Hwf| |];
            [intros tok p1 _ _ Hs; apply parser_wp_ret;
             split; [reflexivity|psolve]|]).
    apply (rule_match [LEFT_PAREN]); [exact Hwf| |].
    + intros tok p1 _ _ Hs.
      eapply rule_parse; [apply IHexpr; psolve|].
      intros e p2 He Hs2.
      apply rule_consume; [psolve|].
      intros tok' p3 _ _ Hs3. apply parser_wp_ret. split; [exact He|psolve].
    + eapply parser_wp_bind; [apply peek_spec, Hwf|].
      intros tok p' [-> _]. apply parser_wp_throw. split; [exact Hwf|eauto].
Qed.

Lemma rule_ret_bind {A B} (a : A) (K : A -> Parser.M B)
    (returned : B -> Parser.t -> Prop)
    (raised : CompilerError -> Parser.t -> Prop) (p : Parser.t) :
  parser_wp (K a) returned raised p ->
  parser_wp (Parser.bind (Parser.ret a) K) returned raised p.
Proof. intros H. exact H. Qed.

Lemma parseType_spec (p : Parser.t) :
  parser_wf toks p ->
  0 < Parser.current_ p ->
  parses toks 0 (fun _ : DataType => True) Parser.parseType p.
Proof.
  intros Hwf Hpos. unfold Parser.parseType.
  apply (rule_match_previous [IDENTIFIER]); [exact Hwf| |].
  - intros tok p1 _ _ Hs.
    repeat (destruct (String.eqb _ _);
            [apply parser_wp_ret; split; [exact I|psolve]|]).
    apply error_thrown; psolve.
  - apply error_thrown; psolve.
Qed.

Lemma parseParameters_loop_spec (fuel : nat) :
  forall parameters p,
    parser_wf toks p -> fuel_for toks 1 fuel p ->
    parses toks 0 (fun _ : list (string * DataType) => colon_ok = true)
      (Parser.parseParameters_loop fuel parameters) p.
Proof.
  induction fuel as [|fuel IH]; intros parameters p Hwf Hfuel;
    [eapply parses_out_of_fuel; eassumption|].
  cbn [Parser.parseParameters_loop].
  apply rule_consume; [exact Hwf|]. intros tok1 p1 _ _ Hs1.
  apply rule_previous; [psolve..|]. intros name.
  apply rule_consume; [psolve|]. intros tok2 p2 Hty2 Htok2 Hs2.
  assert (Hc : colon_ok = true).
  { destruct colon_ok; [reflexivity|]. exfalso.
    exact (Hcolon eq_refl _ _ Htok2 Hty2). }
  eapply rule_parse; [apply parseType_spec; psolve|].
  intros ty p3 _ Hs3.
  apply (rule_match [COMMA]); [psolve| |].
  - intros tok4 p4 _ _ Hs4.
    eapply parser_wp_mono; [apply IH; psolve| |auto].
    intros ps p' [Hps Hs']. split; [exact Hps|psolve].
  - apply parser_wp_ret. split; [exact Hc|psolve].
Qed.

Lemma parseParameters_spec (fuel : nat) (p : Parser.t) :
  parser_wf toks p -> fuel_for toks 1 fuel p ->
  parses toks 0
    (fun parameters : list (string * DataType) =>
       colon_ok = true \/ parameters = [])
    (Parser.parseParameters fuel) p.
Proof.
  intros Hwf Hfuel. unfold Parser.parseParameters.
  eapply parser_wp_bind; [apply check_spec, Hwf|].
  intros b p' [-> _]. destruct b; cbn [negb].
  - apply parser_wp_ret. split; [now right|psolve].
  - eapply parser_wp_mono;
      [apply parseParameters_loop_spec; assumption| |auto].
    intros ps p' [Hps Hs']. split; [now left|exact Hs'].
Qed.

Lemma parseExpressionStatement_spec (fuel : nat) (p : Parser.t) :
  parser_wf toks p -> fuel_for toks 10 fuel p ->
  parses toks 1 (fun s => Statement_plain colon_ok slash_ok s = true)
    (Parser.parseExpressionStatement fuel) p.
Proof.
  intros Hwf Hfuel. unfold Parser.parseExpressionStatement.
  destruct (expression_parsers_hold fuel) as (IHexpr & _).
  eapply rule_parse; [apply IHexpr; assumption|].
  intros e p1 He Hs1.
  apply rule_consume; [psolve|]. intros tok p2 _ _ Hs2.
  apply rule_previous; [psolve..|]. intros prev.
  apply parser_wp_ret. split; [exact He|psolve].
Qed.

Lemma parseReturnStatement_spec (fuel : nat) (p : Parser.t) :
  parser_wf toks p -> 0 < Parser.current_ p -> fuel_for toks 10 fuel p ->
  parses toks 1 (fun s => Statement_plain colon_ok slash_ok s = true)
    (Parser.parseReturnStatement fuel) p.
Proof.
  intros Hwf Hpos Hfuel. unfold Parser.parseReturnStatement.
  destruct (expression_parsers_hold fuel) as (IHexpr & _).
  apply rule_previous; [assumption..|]. intros keyword.
  eapply parser_wp_bind; [apply check_spec, Hwf|].
  intros b p' [-> _]. destruct b; cbn [negb].
  - apply rule_ret_bind.
    apply rule_consume; [psolve|]. intros tok p2 _ _ Hs2.
    apply parser_wp_ret. split; [reflexivity|psolve].
  - eapply parser_wp_bind.
    { eapply rule_parse; [apply IHexpr; assumption|].
      intros e p1 He Hs1. apply parser_wp_ret.
      instantiate
        (1 := fun v p1 =>
                option_plain (Expression_plain slash_ok) v = true
                /\ stepped toks 0 p p1).
      split; [exact He|psolve]. }
    intros v p1 [Hv Hs1].
    apply rule_consume; [psolve|]. intros tok p2 _ _ Hs2.
    apply parser_wp_ret. split; [exact Hv|psolve].
Qed.

Lemma parseVariableDeclaration_spec (fuel : nat) (p : Parser.t) :
  parser_wf toks p -> 0 < Parser.current_ p -> fuel_for toks 10 fuel p ->
  parses toks 1 (fun s => Statement_plain colon_ok slash_ok s = true)
    (Parser.parseVariableDeclaration fuel) p.
Proof.
  intros Hwf Hpos Hfuel. unfold Parser.parseVariableDeclaration.
  destruct (expression_parsers_hold fuel) as (IHexpr & _).
  apply rule_previous; [assumption..|]. intros keyword.
  apply rule_consume; [exact Hwf|]. intros tok1 p1 _ _ Hs1.
  apply rule_previous; [psolve..|]. intros name.
  eapply parser_wp_bind; [apply (match_spec COLON), Hs1|].
  intros b p2 Hm.
  eapply parser_wp_bind with
    (mid := fun ty p3 =>
              (colon_ok = true \/ ty = UNKNOWN) /\ stepped toks 1 p p3).
  { destruct b.
    - destruct Hm as (Hs2 & _ & tok & Htok & [Hty|[]]).
      assert (Hc : colon_ok = true).
      { destruct colon_ok; [reflexivity|]. exfalso.
        exact (Hcolon eq_refl _ _ Htok (eq_sym Hty)). }
      eapply parser_wp_mono; [apply parseType_spec; psolve| |auto].
      intros ty p3 [_ Hs3]. split; [now left|psolve].
    - simpl in Hm. subst p2. apply parser_wp_ret.
      split; [now right|psolve]. }
  intros ty p3 [Hty Hs3].
  eapply parser_wp_bind; [apply (match_spec ASSIGN), Hs3|].
  intros b' p4 Hm'.
  eapply parser_wp_bind with
    (mid := fun v p5 =>
              option_plain (Expression_plain slash_ok) v = true
              /\ stepped toks 1 p p5).
  { destruct b'.
    - destruct Hm' as (Hs4 & _).
      eapply rule_parse; [apply IHexpr; psolve|].
      intros e p5 He Hs5. apply parser_wp_ret. split; [exact He|psolve].
    - simpl in Hm'. subst p4. apply parser_wp_ret.
      split; [reflexivity|exact Hs3]. }
  intros v p5 [Hv Hs5].
  apply rule_consume; [psolve|]. intros tok6 p6 _ _ Hs6.
  apply parser_wp_ret. split; [|psolve].
  simpl. rewrite Hv.
  destruct Hty as [->| ->]; [reflexivity|now destruct colon_ok].
Qed.

Lemma statement_parsers_hold (fuel : nat) :
  statement_parsers toks colon_ok slash_ok fuel.
Proof.
  induction fuel as [|fuel IH]; unfold statement_parsers; cbv zeta.
  { repeat split; intros; eapply parses_out_of_fuel; eassumption. }
  destruct IH as (IHstmt & IHblock & IHblock_loop & IHif & IHwhile & IHfun).
  destruct (expression_parsers_hold fuel) as (IHexpr & _).
  repeat apply conj.
  - (* parseStatement *)
    intros p Hwf Hfuel. cbn [Parser.parseStatement].
    apply (rule_match [IF]); [exact Hwf| |].
    { intros tok p1 _ _ Hs.
      eapply parser_wp_mono; [apply IHif; psolve| |auto].
      intros s p' [Hq Hs']. split; [exact Hq|psolve]. }
    apply (rule_match [WHILE]); [exact Hwf| |].
    { intros tok p1 _ _ Hs.
      eapply parser_wp_mono; [apply IHwhile; psolve| |auto].
      intros s p' [Hq Hs']. split; [exact Hq|psolve]. }
    apply (rule_match [RETURN]); [exact Hwf| |].
    { intros tok p1 _ _ Hs.
      eapply parser_wp_mono;
        [apply parseReturnStatement_spec; psolve| |auto].
      intros s p' [Hq Hs']. split; [exact Hq|psolve]. }
    apply (rule_match [LEFT_BRACE]); [exact Hwf| |].
    { intros tok p1 _ _ Hs.
      eapply parser_wp_mono; [apply IHblock; psolve| |auto].
      intros s p' [Hq Hs']. split; [exact Hq|psolve]. }
    apply (rule_match [VAR; LET; CONST]); [exact Hwf| |].
    { intros tok p1 _ _ Hs.
      eapply parser_wp_mono;
        [apply parseVariableDeclaration_spec; psolve| |auto].
      intros s p' [Hq Hs']. split; [exact Hq|psolve]. }
    apply (rule_match [FUNCTION]); [exact Hwf| |].
    { intros tok p1 _ _ Hs.
      eapply parser_wp_mono; [apply IHfun; psolve| |auto].
      intros s p' [Hq Hs']. split; [exact Hq|psolve]. }
    apply parseExpressionStatement_spec; psolve.
  - (* parseBlockStatement *)
    intros p Hwf Hfuel. cbn [Parser.parseBlockStatement].
    eapply rule_parse; [apply IHblock_loop; [reflexivity|psolve..]|].
    intros ss p1 Hss Hs1.
    apply rule_consume; [psolve|]. intros tok p2 _ _ Hs2.
    apply rule_previous; [psolve..|]. intros prev.
    apply parser_wp_ret. split; [exact Hss|psolve].
  - (* parseBlockStatement_loop *)
    intros ss p Hss Hwf Hfuel. cbn [Parser.parseBlockStatement_loop].
    eapply parser_wp_bind; [apply check_spec, Hwf|].
    intros isBrace p' [-> _].
    eapply parser_wp_bind with (mid := fun _ p1 => p1 = p).
    { destruct isBrace; cbn [negb].
      - now apply parser_wp_ret.
      - eapply parser_wp_mono;
          [apply (isAtEnd_spec (thrown toks)), Hwf| |auto].
        now intros b p1 [-> _]. }
    intros atEnd p1 ->.
    destruct (negb isBrace && negb atEnd).
    + eapply rule_parse; [apply IHstmt; psolve|].
      intros s p1 Hq Hs1.
      eapply parser_wp_mono; [apply IHblock_loop; [|psolve..]| |auto].
      * rewrite forallb_app. simpl. now rewrite Hss, Hq.
      * intros ss' p' [Hq' Hs']. split; [exact Hq'|psolve].
    + apply parser_wp_ret. split; [exact Hss|psolve].
  - (* parseIfStatement *)
    intros p Hwf Hfuel. cbn [Parser.parseIfStatement].
    apply rule_consume; [exact Hwf|]. intros tok1 p1 _ _ Hs1.
    eapply rule_parse; [apply IHexpr; psolve|].
    intros c p2 Hc Hs2.
    apply rule_consume; [psolve|]. intros tok3 p3 _ _ Hs3.
    eapply rule_parse; [apply IHstmt; psolve|].
    intros s1 p4 Hq1 Hs4.
    eapply parser_wp_bind; [apply (match_spec ELSE), Hs4|].
    intros b p5 Hm.
    eapply parser_wp_bind with
      (mid := fun s2 p6 =>
                option_plain (Statement_plain colon_ok slash_ok) s2 = true
                /\ stepped toks 1 p p6).
    { destruct b.
      - destruct Hm as (Hs5 & _).
        eapply rule_parse; [apply IHstmt; psolve|].
        intros s2 p6 Hq2 Hs6. apply parser_wp_ret.
        split; [exact Hq2|psolve].
      - simpl in Hm. subst p5. apply parser_wp_ret.
        split; [reflexivity|psolve]. }
    intros s2 p6 [Hq2 Hs6].
    apply rule_previous; [psolve..|]. intros prev.
    apply parser_wp_ret. split; [|psolve].
    simpl. now rewrite Hc, Hq1, Hq2.
  - (* parseWhileStatement *)
    intros p Hwf Hfuel. cbn [Parser.parseWhileStatement].
    apply rule_consume; [exact Hwf|]. intros tok1 p1 _ _ Hs1.
    eapply rule_parse; [apply IHexpr; psolve|].
    intros c p2 Hc Hs2.
    apply rule_consume; [psolve|]. intros tok3 p3 _ _ Hs3.
    eapply rule_parse; [apply IHstmt; psolve|].
    intros body p4 Hq Hs4.
    apply rule_previous; [psolve..|]. intros prev.
    apply parser_wp_ret. split; [|psolve].
    simpl. now rewrite Hc, Hq.
  - (* parseFunctionDeclaration *)
    intros p Hwf Hfuel. cbn [Parser.parseFunctionDeclaration].
    apply rule_consume; [exact Hwf|]. intros tok1 p1 _ _ Hs1.
    apply rule_previous; [psolve..|]. intros name.
    apply rule_consume; [psolve|]. intros tok2 p2 _ _ Hs2.
    eapply rule_parse; [apply parseParameters_spec; psolve|].
    intros params p3 Hps Hs3.
    apply rule_consume; [psolve|]. intros tok4 p4 _ _ Hs4.
    eapply parser_wp_bind; [apply (match_spec COLON), Hs4|].
    intros b p5 Hm.
    eapply parser_wp_bind with
      (mid := fun ty p6 =>
                (colon_ok = true \/ ty = VOID) /\ stepped toks 1 p p6).
    { destruct b.
      - destruct Hm as (Hs5 & _ & tok & Htok & [Hty|[]]).
        assert (Hc : colon_ok = true).
        { destruct colon_ok; [reflexivity|]. exfalso.
          exact (Hcolon eq_refl _ _ Htok (eq_sym Hty)). }
        eapply parser_wp_mono; [apply parseType_spec; psolve| |auto].
        intros ty p6 [_ Hs6]. split; [now left|psolve].
      - simpl in Hm. subst p5. apply parser_wp_ret.
        split; [now right|psolve]. }
    intros ret p6 [Hret Hs6].
    apply rule_consume; [psolve|]. intros tok7 p7 _ _ Hs7.
    eapply rule_parse; [apply IHblock; psolve|].
    intros body p8 Hq Hs8.
    apply parser_wp_ret. split; [|psolve].
    cbn [Statement_plain]. rewrite Hq.
    destruct Hps as [->| ->]; [reflexivity|].
    destruct Hret as [->| ->]; [reflexivity|now destruct colon_ok].
Qed.

(** The loop of [parse]: statements until the END_OF_FILE token; the
    first syntax error is passed to [error], which sets the flags and
    throws again. *)
Lemma parse_loop_spec (fuel : nat) :
  forall statements p,
    forallb (Statement_plain colon_ok slash_ok) statements = true ->
    parser_wf toks p ->
    fuel_for toks 12 fuel p ->
    parsed toks colon_ok slash_ok p (Parser.parse_loop fuel statements p).
Proof.
  induction fuel as [|fuel IH]; intros statements p Hss Hwf Hfuel;
    [unfold fuel_for in Hfuel; lia|].
  cbn [Parser.parse_loop].
  pose proof (isAtEnd_spec (fun _ _ => False) p Hwf) as Hend.
  unfold parser_wp in Hend. unfold Parser.bind at 1.
  destruct (Parser.isAtEnd p) as [atEnd p0|e p0| |]; try (now destruct Hend).
  destruct Hend as [-> Hend]. destruct atEnd.
  { simpl. destruct Hwf as [Ht _]. repeat split; try assumption.
    now apply Hend. }
  assert (Hnot : S (Parser.current_ p) < length toks).
  { destruct Hwf as [_ Hc].
    assert (S (Parser.current_ p) <> length toks)
      by (intros E; apply Hend in E; discriminate).
    lia. }
  destruct (statement_parsers_hold fuel) as (Hstmt & _).
  specialize (Hstmt p Hwf ltac:(psolve)).
  unfold parses, parser_wp in Hstmt.
  destruct (Parser.parseStatement fuel p) as [stmt p1|e p1| |];
    try (now destruct Hstmt).
  - destruct Hstmt as [Hq Hs1].
    assert (H1 : parsed toks colon_ok slash_ok p1
                   (Parser.parse_loop fuel (statements ++ [stmt]) p1)).
    { apply IH; [|psolve..]. rewrite forallb_app. simpl.
      now rewrite Hss, Hq. }
    unfold parsed in *.
    destruct (Parser.parse_loop fuel _ p1); try exact H1.
    destruct H1 as (? & ? & ? & ? & ?). repeat split; try assumption; psolve.
  - destruct Hstmt as [Hwf1 (message & l2 & ->)].
    pose proof (error_spec (what (CompilerError_new message l2)) p1 Hwf1)
      as Herr.
    unfold parser_wp in Herr. unfold Parser.bind at 1.
    destruct (Parser.error _ p1) as [u p2|e p2| |].
    + exfalso. apply Herr. destruct Hwf1 as [_ Hc1]. lia.
    + destruct Herr as ((Ht & _) & [l1 ->] & Hh & Hp);
        [destruct Hwf1 as [_ Hc1]; lia|].
      simpl. repeat split; try assumption. eauto.
    + apply Herr. destruct Hwf1 as [_ Hc1]. lia.
    + apply Herr. destruct Hwf1 as [_ Hc1]. lia.
Qed.

End ParserSafety.

Lemma parse_spec (tokens : list Token) (colon_ok slash_ok : bool) :
  well_formed_stream tokens = true ->
  (colon_ok = false -> kind_absent COLON tokens = true) ->
  (slash_ok = false -> kind_absent SLASH tokens = true) ->
  parsed tokens colon_ok slash_ok (Parser.new tokens) (parse tokens).
Proof.
  intros Hwf Hcolon Hslash. unfold parse, Parser.parse.
  assert (Hlen : 0 < length tokens) by (destruct tokens; [discriminate|simpl; lia]).
  apply parse_loop_spec.
  - now apply well_formed_stream_shape.
  - intros Hc. now apply kind_absent_lookup, Hcolon.
  - intros Hs. now apply kind_absent_lookup, Hslash.
  - reflexivity.
  - split; [reflexivity | exact Hlen].
  - unfold fuel_for, Parser.budget. simpl Parser.tokens_.
    simpl Parser.current_. lia.
Qed.

(** X23.  The parser on a well-formed stream.  On a stream that ends with its
    only END_OF_FILE token, [parse] never reads a token out of range and
    never uses up the budget of this embedding.  It returns a program with
    the cursor on the END_OF_FILE token and the two flags unset, or it
    throws: the first syntax error ends the parse (there is no recovery),
    both flags are set, and the message of the exception carries a location
    prefix twice.  A program it returns contains no call; when the stream
    has no COLON token it contains no declared type, no parameter and no
    return type, and when it has no SLASH token it contains no
    division. *)
Theorem parse_on_well_formed_stream (tokens : list Token)
    (colon_ok slash_ok : bool) :
  well_formed_stream tokens = true ->
  (colon_ok = false -> kind_absent COLON tokens = true) ->
  (slash_ok = false -> kind_absent SLASH tokens = true) ->
  parsed tokens colon_ok slash_ok (Parser.new tokens) (parse tokens).
Proof. apply parse_spec. Qed.

Lemma parse_on_well_formed_stream_witness :
  parsed [mkToken VAR "var" (mkLoc 1 4 3); mkToken IDENTIFIER "x" (mkLoc 1 6 5);
          mkToken COLON ":" (mkLoc 1 7 6);
          mkToken IDENTIFIER "int" (mkLoc 1 11 10);
          mkToken SEMICOLON ";" (mkLoc 1 12 11);
          mkToken END_OF_FILE "" (mkLoc 1 12 11)]
    true false
    (Parser.new
       [mkToken VAR "var" (mkLoc 1 4 3); mkToken IDENTIFIER "x" (mkLoc 1 6 5);
        mkToken COLON ":" (mkLoc 1 7 6);
        mkToken IDENTIFIER "int" (mkLoc 1 11 10);
        mkToken SEMICOLON ";" (mkLoc 1 12 11);
        mkToken END_OF_FILE "" (mkLoc 1 12 11)])
    (parse
       [mkToken VAR "var" (mkLoc 1 4 3); mkToken IDENTIFIER "x" (mkLoc 1 6 5);
        mkToken COLON ":" (mkLoc 1 7 6);
        mkToken IDENTIFIER "int" (mkLoc 1 11 10);
        mkToken SEMICOLON ";" (mkLoc 1 12 11);
        mkToken END_OF_FILE "" (mkLoc 1 12 11)]).
Proof.
  apply parse_on_well_formed_stream;
    [reflexivity | discriminate | reflexivity].
Defined.

Lemma scanned_stream (body : list Token) (l : SourceLocation) :
  Forall (fun tok => scanner_kind (type tok) = true) body ->
  well_formed_stream (body ++ [mkToken END_OF_FILE "" l]) = true
  /\ kind_absent COLON (body ++ [mkToken END_OF_FILE "" l]) = true
  /\ kind_absent SLASH (body ++ [mkToken END_OF_FILE "" l]) = true.
Proof.
  induction 1 as [|tok body Htok Hbody (IH1 & IH2 & IH3)];
    [repeat split|].
  unfold kind_absent in *. cbn [app forallb].
  rewrite IH2, IH3.
  assert (Hwf : well_formed_stream
                  (tok :: body ++ [mkToken END_OF_FILE "" l])
                = negb (bool_decide (type tok = END_OF_FILE))
                  && well_formed_stream (body ++ [mkToken END_OF_FILE "" l]))
    by (destruct body; reflexivity).
  rewrite Hwf, IH1. destruct (type tok); try discriminate Htok;
    repeat split.
Qed.

Lemma parse_tokenize (source : string) :
  parsed (tokenize source) false false (Parser.new (tokenize source))
         (parse (tokenize source)).
Proof.
  destruct (tokenize_stream source) as (body & l & -> & Hbody).
  destruct (scanned_stream body l Hbody) as (H1 & H2 & H3).
  apply parse_spec; auto.
Qed.

(** X24.  Scanner and parser together.  For every source text, parsing the
    scanned stream ends by a returned program or by a thrown
    [CompilerError], never by an out-of-range read or an exhausted budget;
    and a returned program contains no call, no division, no declared
    variable type, no function parameter and no function return type other
    than VOID: the scanner produces none of the tokens the parser needs
    for them. *)
Theorem parse_of_scanned_source (source : string) :
  parsed (tokenize source) false false (Parser.new (tokenize source))
         (parse (tokenize source)).
Proof. apply parse_tokenize. Qed.

(* ===================================================================== *)
(** ** main.cpp: the front end of [compileFile] *)
(* ===================================================================== *)

(** X25.  The front end always gives a verdict.  With [-E] (preprocess only),
    [compileFile] ends with a lexical error, a compilation error or
    success, whatever the source text; and with or without it, the budget
    of this embedding is never the reason it stops. *)
Theorem compileFile_front_end_is_total (source : string) :
  match compileFile true source with
  | LexicalError _ | CompilationError _ | PreprocessedOnly => True
  | _ => False
  end
  /\ forall preprocessOnly,
       compileFile preprocessOnly source <> BudgetExceeded.
Proof.
  pose proof (parse_tokenize source) as H. unfold compileFile.
  destruct (List.find isErrorToken (tokenize source));
    [split; [exact I | discriminate]|].
  unfold parsed in H.
  destruct (parse (tokenize source)); try contradiction;
    (split; [exact I|]); intros []; try discriminate.
  destruct (SemanticAnalyzer.analyze _ _) as [ok analyzer].
  destruct (negb ok); [discriminate|].
  destruct (LLVMCodeGenerator.generate _ _) as [b g| |]; try discriminate.
  destruct (negb b); discriminate.
Qed.

(* ===================================================================== *)
(** ** Parser.cpp: associativity and the dangling [else] *)
(* ===================================================================== *)

(** How operators group, on four small streams.  Operators of one level
    group to the left ([a - b - c] is [(a - b) - c]); assignment groups to
    the right
    ([a = b = c] is [a = (b = c)]) and takes a variable only on its left;
    a unary operator binds tighter than any binary one ([- a * b] is
    [(- a) * b]). *)
Example operators_group (a b c : string)
    (la l1 lb l2 lc lsemi leof : SourceLocation) :
  (exists p,
     parse [mkToken IDENTIFIER a la; mkToken MINUS "-" l1;
            mkToken IDENTIFIER b lb; mkToken MINUS "-" l2;
            mkToken IDENTIFIER c lc; mkToken SEMICOLON ";" lsemi;
            mkToken END_OF_FILE "" leof]
     = Parser.Ok
         (mkProgram
            [ExpressionStatement
               (BinaryExpression
                  (BinaryExpression (VariableExpression a la) OP_SUBTRACT
                     (VariableExpression b lb) l1)
                  OP_SUBTRACT (VariableExpression c lc) l2) lsemi]) p)
  /\ (exists p,
        parse [mkToken IDENTIFIER a la; mkToken ASSIGN "=" l1;
               mkToken IDENTIFIER b lb; mkToken ASSIGN "=" l2;
               mkToken IDENTIFIER c lc; mkToken SEMICOLON ";" lsemi;
               mkToken END_OF_FILE "" leof]
        = Parser.Ok
            (mkProgram
               [ExpressionStatement
                  (AssignmentExpression a
                     (AssignmentExpression b (VariableExpression c lc) l2)
                     l1) lsemi]) p)
  /\ (exists p,
        parse [mkToken INTEGER a la; mkToken ASSIGN "=" l1;
               mkToken IDENTIFIER b lb; mkToken SEMICOLON ";" lsemi;
               mkToken END_OF_FILE "" leof]
        = Parser.Throw
            (CompilerError_new
               (what (CompilerError_new "Invalid assignment target" lsemi))
               lsemi) p)
  /\ (exists p,
        parse [mkToken MINUS "-" l1; mkToken IDENTIFIER a la;
               mkToken MULTIPLY "*" l2; mkToken IDENTIFIER b lb;
               mkToken SEMICOLON ";" lsemi; mkToken END_OF_FILE "" leof]
        = Parser.Ok
            (mkProgram
               [ExpressionStatement
                  (BinaryExpression
                     (UnaryExpression OP_SUBTRACT (VariableExpression a la) l1)
                     OP_MULTIPLY (VariableExpression b lb) l2) lsemi]) p).
Proof. repeat split; eexists; vm_compute; reflexivity. Qed.

(** The dangling [else].  In [if (a) if (b) x; else y;] the [else] belongs
    to the inner [if]. *)
Example else_binds_to_nearest_if (a b x y : string)
    (l1 l2 l3 l4 l5 l6 l7 l8 l9 l10 l11 l12 l13 leof : SourceLocation) :
  exists p,
    parse [mkToken IF "if" l1; mkToken LEFT_PAREN "(" l2;
           mkToken IDENTIFIER a l3; mkToken RIGHT_PAREN ")" l4;
           mkToken IF "if" l5; mkToken LEFT_PAREN "(" l6;
           mkToken IDENTIFIER b l7; mkToken RIGHT_PAREN ")" l8;
           mkToken IDENTIFIER x l9; mkToken SEMICOLON ";" l10;
           mkToken ELSE "else" l11;
           mkToken IDENTIFIER y l12; mkToken SEMICOLON ";" l13;
           mkToken END_OF_FILE "" leof]
    = Parser.Ok
        (mkProgram
           [IfStatement (VariableExpression a l3)
              (IfStatement (VariableExpression b l7)
                 (ExpressionStatement (VariableExpression x l9) l10)
                 (Some (ExpressionStatement (VariableExpression y l12) l13))
                 l13)
              None l13]) p.
Proof. eexists. vm_compute. reflexivity. Qed.

(* ===================================================================== *)
(** ** CodeGen.cpp: what lowering does to the generator's tables *)
(* ===================================================================== *)

Lemma lowering_grows_refl (g : LLVMCodeGenerator.t) : lowering_grows g g.
Proof.
  repeat split; auto. exists []. now rewrite app_nil_r.
Qed.

Lemma lowering_grows_same (g g' : LLVMCodeGenerator.t) :
  LLVMCodeGenerator.variables_ g' = LLVMCodeGenerator.variables_ g ->
  LLVMCodeGenerator.functions_ g' = LLVMCodeGenerator.functions_ g ->
  LLVMCodeGenerator.errors_ g' = LLVMCodeGenerator.errors_ g ->
  LLVMCodeGenerator.hasErrors_ g' = LLVMCodeGenerator.hasErrors_ g ->
  lowering_grows g g'.
Proof.
  intros V F E H. unfold lowering_grows. rewrite V, F, E, H.
  repeat split; auto. exists []. now rewrite app_nil_r.
Qed.

Lemma lowering_grows_trans (g1 g2 g3 : LLVMCodeGenerator.t) :
  lowering_grows g1 g2 -> lowering_grows g2 g3 -> lowering_grows g1 g3.
Proof.
  intros (V1 & F1 & (e1 & E1) & H1) (V2 & F2 & (e2 & E2) & H2).
  repeat split; auto.
  exists (e1 ++ e2)%list. now rewrite E2, E1, app_assoc.
Qed.

Lemma grows_only_ret {A} (a : A) : grows_only (LLVMCodeGenerator.ret a).
Proof. intros g. apply lowering_grows_refl. Qed.

Lemma grows_only_bind {A B} (m : LLVMCodeGenerator.M A)
    (f : A -> LLVMCodeGenerator.M B) :
  grows_only m -> (forall a, grows_only (f a)) ->
  grows_only (LLVMCodeGenerator.bind m f).
Proof.
  intros Hm Hf g. unfold LLVMCodeGenerator.bind.
  specialize (Hm g). destruct (m g) as [a g1| |]; auto.
  specialize (Hf a g1). destruct (f a g1) as [b g2| |]; auto.
  eapply lowering_grows_trans; eassumption.
Qed.

Lemma grows_only_get {A} (proj : LLVMCodeGenerator.t -> A) :
  grows_only (LLVMCodeGenerator.get proj).
Proof. intros g. apply lowering_grows_refl. Qed.

Lemma grows_only_modify (f : LLVMCodeGenerator.t -> LLVMCodeGenerator.t) :
  (forall g, lowering_grows g (f g)) ->
  grows_only (LLVMCodeGenerator.modify f).
Proof. intros H g. apply H. Qed.

Lemma grows_only_fail {A} (r : LLVMCodeGenerator.result A) :
  (forall a g, r <> LLVMCodeGenerator.Ok a g) -> grows_only (fun _ => r).
Proof. intros H g. destruct r; auto. now elim (H a g0). Qed.

Lemma grows_only_on_module {A} (f : IR.Module -> A * IR.Module) :
  grows_only (LLVMCodeGenerator.on_module f).
Proof.
  intros g. unfold LLVMCodeGenerator.on_module.
  destruct (f _) as [a m]. now apply lowering_grows_same.
Qed.

Lemma grows_only_insertBlock : grows_only LLVMCodeGenerator.insertBlock.
Proof.
  intros g. unfold LLVMCodeGenerator.insertBlock.
  destruct (LLVMCodeGenerator.builder_ g); [apply lowering_grows_refl|exact I].
Qed.

Lemma grows_only_emit (i : IR.Instr) : grows_only (LLVMCodeGenerator.emit i).
Proof.
  apply grows_only_modify. intros g.
  destruct (LLVMCodeGenerator.builder_ g); now apply lowering_grows_same.
Qed.

Lemma grows_only_SetInsertPoint (b : IR.BlockRef) :
  grows_only (LLVMCodeGenerator.SetInsertPoint b).
Proof. apply grows_only_modify. intros g. now apply lowering_grows_same. Qed.

Lemma grows_only_set_currentValue (v : option IR.Value) :
  grows_only (LLVMCodeGenerator.set_currentValue v).
Proof. apply grows_only_modify. intros g. now apply lowering_grows_same. Qed.

Lemma grows_only_set_currentFunction (f : option nat) :
  grows_only (LLVMCodeGenerator.set_currentFunction f).
Proof. apply grows_only_modify. intros g. now apply lowering_grows_same. Qed.

Lemma grows_only_set_targets (brk cont : list IR.BlockRef) :
  grows_only (LLVMCodeGenerator.set_targets brk cont).
Proof. apply grows_only_modify. intros g. now apply lowering_grows_same. Qed.

Lemma grows_only_declareVariable (name : string) (v : IR.Value) :
  grows_only (LLVMCodeGenerator.declareVariable name v).
Proof.
  apply grows_only_modify. intros g. repeat split; simpl; auto.
  - intros n Hn. destruct (decide (n = name)) as [->|Hne].
    + rewrite lookup_insert_eq. eauto.
    + now rewrite lookup_insert_ne by congruence.
  - exists []. now rewrite app_nil_r.
Qed.

Lemma grows_only_register_function (name : string) (f : nat) :
  grows_only (LLVMCodeGenerator.register_function name f).
Proof.
  apply grows_only_modify. intros g. repeat split; simpl; auto.
  - intros n Hn. destruct (decide (n = name)) as [->|Hne].
    + rewrite lookup_insert_eq. eauto.
    + now rewrite lookup_insert_ne by congruence.
  - exists []. now rewrite app_nil_r.
Qed.

Lemma grows_only_reportError (message : string) (l : SourceLocation) :
  grows_only (LLVMCodeGenerator.reportError message l).
Proof.
  apply grows_only_modify. intros g. repeat split; simpl; auto.
  - eauto.
  - intros _. symmetry. apply negb_true_iff, bool_decide_eq_false.
    now destruct (LLVMCodeGenerator.errors_ g).
Qed.

Ltac grows_step :=
  first
    [ apply grows_only_ret
    | apply grows_only_get
    | apply grows_only_on_module
    | apply grows_only_insertBlock
    | apply grows_only_emit
    | apply grows_only_SetInsertPoint
    | apply grows_only_set_currentValue
    | apply grows_only_set_currentFunction
    | apply grows_only_set_targets
    | apply grows_only_declareVariable
    | apply grows_only_register_function
    | apply grows_only_reportError
    | (apply grows_only_fail; discriminate)
    | assumption
    | (apply grows_only_bind; [|intros ?])
    | match goal with
      | |- grows_only (match ?x with _ => _ end) => destruct x
      | |- grows_only (if ?b then _ else _) => destruct b
      end ].

Ltac grows := repeat grows_step.

Lemma grows_only_currentTerminator :
  grows_only LLVMCodeGenerator.currentTerminator.
Proof. unfold LLVMCodeGenerator.currentTerminator,
         LLVMCodeGenerator.nullDereference. grows. Qed.

Lemma grows_only_createAlloca (ty : IR.Ty) (name : string) :
  grows_only (LLVMCodeGenerator.createAlloca ty name).
Proof. unfold LLVMCodeGenerator.createAlloca. grows. Qed.

Lemma grows_only_CreateLoad (ty : IR.Ty) (ptr : IR.Value) :
  grows_only (LLVMCodeGenerator.CreateLoad ty ptr).
Proof. unfold LLVMCodeGenerator.CreateLoad. grows. Qed.

Lemma grows_only_CreateStore (val ptr : IR.Value) :
  grows_only (LLVMCodeGenerator.CreateStore val ptr).
Proof. unfold LLVMCodeGenerator.CreateStore. grows. Qed.

Lemma grows_only_CreateBinOp (opc : IR.BinOpcode) (l r : IR.Value) :
  grows_only (LLVMCodeGenerator.CreateBinOp opc l r).
Proof. unfold LLVMCodeGenerator.CreateBinOp. grows. Qed.

Lemma grows_only_CreateUnOp (opc : IR.UnOpcode) (v : IR.Value) :
  grows_only (LLVMCodeGenerator.CreateUnOp opc v).
Proof. unfold LLVMCodeGenerator.CreateUnOp. grows. Qed.

Lemma grows_only_CreateCall (callee : nat) (args : list IR.Value) :
  grows_only (LLVMCodeGenerator.CreateCall callee args).
Proof. unfold LLVMCodeGenerator.CreateCall. grows. Qed.

Lemma grows_only_CreateGlobalStringPtr (text : string) :
  grows_only (LLVMCodeGenerator.CreateGlobalStringPtr text).
Proof. unfold LLVMCodeGenerator.CreateGlobalStringPtr. grows. Qed.

Lemma grows_only_generateBinaryOperation (l : IR.Value) (op : OperatorType)
    (r : IR.Value) :
  grows_only (LLVMCodeGenerator.generateBinaryOperation l op r).
Proof.
  unfold LLVMCodeGenerator.generateBinaryOperation.
  destruct op; grows; apply grows_only_CreateBinOp || idtac.
Qed.

Lemma grows_only_generateUnaryOperation (op : OperatorType)
    (operand : IR.Value) :
  grows_only (LLVMCodeGenerator.generateUnaryOperation op operand).
Proof.
  unfold LLVMCodeGenerator.generateUnaryOperation.
  destruct op; grows; apply grows_only_CreateUnOp || idtac.
Qed.

Lemma grows_only_visitLiteralExpression (value : string) (ty : DataType)
    (l : SourceLocation) :
  grows_only (LLVMCodeGenerator.visitLiteralExpression value ty l).
Proof.
  unfold LLVMCodeGenerator.visitLiteralExpression.
  destruct ty; try destruct (LLVMCodeGenerator.stod value);
    grows; apply grows_only_CreateGlobalStringPtr || idtac.
Qed.

Lemma grows_only_visitExpression (e : Expression) :
  grows_only (LLVMCodeGenerator.visitExpression e).
Proof.
  induction e as [v ty l | n l | e1 op e2 l IH1 IH2 | op e l IH | n e l IH
                 | n args l IHargs] using Expression_nested_ind;
    cbn [LLVMCodeGenerator.visitExpression].
  - apply grows_only_visitLiteralExpression.
  - unfold LLVMCodeGenerator.getVariable. grows.
  - grows; try apply grows_only_generateBinaryOperation.
  - grows; try apply grows_only_generateUnaryOperation.
  - unfold LLVMCodeGenerator.getVariable. grows.
  - apply grows_only_bind; [grows|]. intros m.
    destruct (IR.getFunction n m); [|grows].
    apply grows_only_bind.
    + match goal with
      | |- grows_only (?loop args []) =>
          assert (Hloop : forall es,
                    Forall (fun e => grows_only
                                       (LLVMCodeGenerator.visitExpression e))
                           es ->
                    forall acc, grows_only (loop es acc))
      end.
      { induction 1 as [|arg es Harg Hes IHloop]; intros acc; grows;
          try apply IHloop. }
      now apply Hloop.
    + intros [args'|]; grows; try apply grows_only_CreateCall.
Qed.

Lemma grows_only_generateExpression (e : Expression) :
  grows_only (LLVMCodeGenerator.generateExpression e).
Proof.
  unfold LLVMCodeGenerator.generateExpression.
  apply grows_only_bind; [apply grows_only_visitExpression|]. intros _.
  grows.
Qed.

Lemma grows_only_visitVariableDeclaration (name : string) (ty : DataType)
    (initializer : option Expression) :
  grows_only (LLVMCodeGenerator.visitVariableDeclaration name ty initializer).
Proof.
  unfold LLVMCodeGenerator.visitVariableDeclaration.
  apply grows_only_bind; [apply grows_only_createAlloca|]. intros var.
  apply grows_only_bind; [grows|]. intros _.
  destruct initializer; [|grows].
  apply grows_only_bind; [apply grows_only_generateExpression|].
  intros [v|]; [apply grows_only_CreateStore|grows].
Qed.

Lemma grows_only_visitReturnStatement (value : option Expression) :
  grows_only (LLVMCodeGenerator.visitReturnStatement value).
Proof.
  unfold LLVMCodeGenerator.visitReturnStatement.
  destruct value; [|grows].
  apply grows_only_bind; [apply grows_only_generateExpression|].
  intros [v|]; grows.
Qed.

Lemma grows_only_parameters_loop (parameters : list (string * DataType)) :
  forall func i,
    grows_only (LLVMCodeGenerator.parameters_loop func i parameters).
Proof.
  induction parameters as [|param ps IH]; intros func i;
    cbn [LLVMCodeGenerator.parameters_loop]; [grows|].
  apply grows_only_bind; [apply grows_only_createAlloca|]. intros var.
  apply grows_only_bind; [apply grows_only_CreateStore|]. intros _.
  apply grows_only_bind; [grows|]. intros _. apply IH.
Qed.

Lemma grows_only_beginFunction (name : string) (returnType : DataType)
    (parameters : list (string * DataType)) :
  grows_only (LLVMCodeGenerator.beginFunction name returnType parameters).
Proof.
  unfold LLVMCodeGenerator.beginFunction.
  apply grows_only_bind; [grows|]. intros func.
  apply grows_only_bind; [grows|]. intros _.
  apply grows_only_bind; [grows|]. intros entry.
  apply grows_only_bind; [grows|]. intros _.
  apply grows_only_bind; [apply grows_only_parameters_loop|]. intros _.
  grows.
Qed.

Lemma grows_only_endFunction (returnType : DataType) :
  grows_only (LLVMCodeGenerator.endFunction returnType).
Proof.
  unfold LLVMCodeGenerator.endFunction.
  apply grows_only_bind; [grows|]. intros _.
  destruct (bool_decide _); [|grows].
  apply grows_only_bind; [apply grows_only_currentTerminator|].
  intros [t|]; grows.
Qed.

Lemma grows_only_visitStatement (s : Statement) :
  grows_only (LLVMCodeGenerator.visitStatement s).
Proof.
  pose proof grows_only_generateExpression as Hexpr.
  pose proof grows_only_currentTerminator as Hterm.
  induction s as [ss l IH | n ty init l | n ret params body l IH
                 | c s1 s2 l IH1 IH2 | c body l IH | v l | e l]
    using Statement_nested_ind;
    cbn [LLVMCodeGenerator.visitStatement].
  - induction IH as [|s ss Hs Hss IHloop]; grows.
  - apply grows_only_visitVariableDeclaration.
  - apply grows_only_bind; [apply grows_only_beginFunction|]. intros _.
    apply grows_only_bind; [exact IH|]. intros _.
    apply grows_only_endFunction.
  - apply grows_only_bind; [apply Hexpr|]. intros [cond|]; [|grows].
    destruct s2 as [s2|]; grows;
      try apply Hterm; try apply Hexpr; try apply grows_only_visitExpression.
  - grows;
      try apply Hterm; try apply Hexpr; try apply grows_only_visitExpression.
  - apply grows_only_visitReturnStatement.
  - grows; try apply Hexpr; try apply grows_only_visitExpression.
Qed.

Lemma grows_only_visitStatements (ss : list Statement) :
  grows_only (LLVMCodeGenerator.visitStatements ss).
Proof.
  induction ss as [|s ss IH]; cbn [LLVMCodeGenerator.visitStatements];
    [grows|].
  apply grows_only_bind; [apply grows_only_visitStatement|]. intros _.
  exact IH.
Qed.



(** X27.  The verdict of [generate].  From a fresh generator, [generate] returns
    true exactly when the lowering recorded no diagnostic. *)
Theorem generate_verdict (program : Program) (ok : bool)
    (g' : LLVMCodeGenerator.t) :
  LLVMCodeGenerator.generate program LLVMCodeGenerator.new
  = LLVMCodeGenerator.Ok ok g' ->
  ok = bool_decide (LLVMCodeGenerator.errors_ g' = []).
Proof.
  unfold LLVMCodeGenerator.generate, LLVMCodeGenerator.visitProgram,
    LLVMCodeGenerator.bind, LLVMCodeGenerator.get, LLVMCodeGenerator.ret.
  pose proof (grows_only_visitStatements (Program_statements program)
                LLVMCodeGenerator.new) as K.
  destruct (LLVMCodeGenerator.visitStatements _ _) as [u g1| |];
    try discriminate.
  intros [= <- <-]. destruct K as (_ & _ & _ & K).
  rewrite (K eq_refl). now rewrite negb_involutive.
Qed.

Lemma generate_verdict_witness :
  LLVMCodeGenerator.errors_
    (state_of (LLVMCodeGenerator.generate undefined_x_in_f
                 LLVMCodeGenerator.new))
  = ["1:17: Undefined variable: x"]
  /\ false
     = bool_decide
         (LLVMCodeGenerator.errors_
            (state_of (LLVMCodeGenerator.generate undefined_x_in_f
                         LLVMCodeGenerator.new)) = []).
Proof.
  split; [vm_compute; reflexivity |].
  apply (generate_verdict undefined_x_in_f false).
  vm_compute. reflexivity.
Defined.

(** X28.  Lowering outside a function.  While no insertion point has been set
    (no function has been lowered yet), the lowering of a variable
    declaration or of a [while] statement dereferences the null insertion
    block: [createAlloca] and [visitWhileStatement] ask it for its parent
    function. *)
Theorem lowering_outside_function_crashes (g : LLVMCodeGenerator.t)
    (name : string) (ty : DataType) (initializer : option Expression)
    (condition : Expression) (body : Statement) (l : SourceLocation) :
  LLVMCodeGenerator.builder_ g = None ->
  LLVMCodeGenerator.visitStatement (VariableDeclaration name ty initializer l)
    g = LLVMCodeGenerator.NullDereference
  /\ LLVMCodeGenerator.visitStatement (WhileStatement condition body l) g
     = LLVMCodeGenerator.NullDereference.
Proof.
  intros H. cbn [LLVMCodeGenerator.visitStatement].
  unfold LLVMCodeGenerator.visitVariableDeclaration,
    LLVMCodeGenerator.createAlloca, LLVMCodeGenerator.bind,
    LLVMCodeGenerator.insertBlock.
  rewrite H. split; reflexivity.
Qed.

Lemma lowering_outside_function_crashes_witness :
  LLVMCodeGenerator.visitStatement
    (VariableDeclaration "x" UNKNOWN
       (Some (LiteralExpression "42" INT (mkLoc 1 11 10))) (mkLoc 1 4 3))
    LLVMCodeGenerator.new
  = LLVMCodeGenerator.NullDereference.
Proof.
  destruct (lowering_outside_function_crashes LLVMCodeGenerator.new
              "x" UNKNOWN (Some (LiteralExpression "42" INT (mkLoc 1 11 10)))
              (LiteralExpression "true" BOOL (mkLoc 1 1 0))
              (BlockStatement [] (mkLoc 1 1 0)) (mkLoc 1 4 3)
              ltac:(reflexivity)) as [H _].
  exact H.
Defined.
